(** * Vocabulary, batch assembly and decoding loops of the lemmatizer

    A shallow embedding of
      - [models/common/vocab.py]        ([Vocab], [ComposedVocab]),
      - [models/lemma/loader.py] and [models/mwt/data.py] ([DataLoader]),
      - [models/lemma/seq2seq_model.py] ([predict_greedy], [predict]),
    with the properties the specification states about them. *)

From Stdlib Require Import ZArith Lia.
From stdpp Require Import gmap strings list sorting.

Open Scope Z_scope.
Open Scope nat_scope.

(** ** Python results

    A Python call either returns a value or raises; the exceptions the
    modelled code can raise are listed by name. *)

Inductive exn : Type :=
  | KeyError
  | IndexError
  | ValueError
  | TypeError
  | AssertionError (msg : string)
  | FileNotFoundError
  | UnpicklingError
  | NotImplementedError.

Inductive result (A : Type) : Type :=
  | Ok (a : A)
  | Raise (e : exn).
Arguments Ok {A} a.
Arguments Raise {A} e.

#[global] Instance result_ret : MRet result := λ A a, Ok a.
#[global] Instance result_fmap : FMap result := λ A B f r,
  match r with
  | Ok a => Ok (f a)
  | Raise e => Raise e
  end.
#[global] Instance result_bind : MBind result := λ A B k r,
  match r with
  | Ok a => k a
  | Raise e => Raise e
  end.

Definition of_option {A} (e : exn) (o : option A) : result A :=
  match o with
  | Some a => Ok a
  | None => Raise e
  end.

Definition is_Ok {A} (r : result A) : Prop := ∃ a, r = Ok a.

(** [mapM f l] is the list comprehension [[f(x) for x in l]] when [f] can
    raise: the first exception, left to right, ends the comprehension. *)
Fixpoint mapM {A B} (f : A → result B) (l : list A) : result (list B) :=
  match l with
  | [] => Ok []
  | x :: l' => y ← f x; ys ← mapM f l'; Ok (y :: ys)
  end.

(** [l[i]] on a Python list: a negative index counts from the end. *)
Definition py_index {A} (l : list A) (i : Z) : result A :=
  if (0 <=? i)%Z then of_option IndexError (l !! Z.to_nat i)
  else if (- Z.of_nat (length l) <=? i)%Z
       then of_option IndexError (l !! Z.to_nat (Z.of_nat (length l) + i))
       else Raise IndexError.

(** [{w: i for i, w in enumerate(l)}], counting from [i]: a later
    occurrence of a key overwrites the earlier one. *)
Fixpoint enumerate_from (i : nat) (l : list string) (m : gmap string nat)
  : gmap string nat :=
  match l with
  | [] => m
  | w :: l' => enumerate_from (S i) l' (<[w := i]> m)
  end.

Definition enumerate_dict (l : list string) : gmap string nat :=
  enumerate_from 0 l ∅.

(** ** Persistence

    [pickle] is an external library: [pickle.dump(obj, f)] appends the bytes
    of one object to the stream, [pickle.load(f)] reads one object back
    and leaves the stream after it.  It is taken as an interface; what the
    vocabulary relies on is stated as [PickleLaws]. *)

Class Pickle (A : Type) : Type := {
  pickle_dump : A → list Byte.byte;
  pickle_load : list Byte.byte → result (A * list Byte.byte)
}.

Class PickleLaws (A : Type) `{Pickle A} : Prop :=
  pickle_load_dump : ∀ (a : A) (rest : list Byte.byte),
    pickle_load (pickle_dump a ++ rest) = Ok (a, rest).

(** The files of the machine, by name. *)
Abbreviation files := (gmap string (list Byte.byte)).

Section persist.
Context {I U : Type} `{Pickle I, Pickle U}.

(** [Vocab.save]: both tables, [_id2unit] first, to a file opened for
    writing (its old content is dropped). *)
Definition vocab_save (filename : string) (id2unit : I) (unit2id : U)
  (fs : files) : files :=
  <[filename := pickle_dump id2unit ++ pickle_dump unit2id]> fs.

(** [Vocab.load]: both tables from the file, [_id2unit] first. *)
Definition vocab_load (filename : string) (fs : files) : result (I * U) :=
  bytes ← of_option FileNotFoundError (fs !! filename);
  '(id2unit, rest) ← pickle_load bytes;
  '(unit2id, _) ← pickle_load rest;
  Ok (id2unit, unit2id).

End persist.

(** ** [Vocab] *)

Definition PAD : string := "<PAD>".
Definition PAD_ID : nat := 0.
Definition VOCAB_PREFIX : list string := [PAD].
Definition UNK : string := "<UNK>".

Module Vocab.

Record t : Type := mk {
  filename : string;
  _id2unit : list string;
  _unit2id : gmap string nat
}.

Definition normalize_unit (unit : string) : string := unit.

Definition unit2id (self : t) (unit : string) : result nat :=
  let unit := normalize_unit unit in
  match _unit2id self !! unit with
  | Some i => Ok i
  | None => of_option KeyError (_unit2id self !! UNK)
  end.

Definition id2unit (self : t) (id : Z) : result string :=
  py_index (_id2unit self) id.

Definition map (self : t) (units : list string) : result (list nat) :=
  mapM (unit2id self) units.

Definition unmap (self : t) (ids : list Z) : result (list string) :=
  mapM (id2unit self) ids.

Definition len (self : t) : nat := length (_id2unit self).

Definition contains (self : t) (key : string) : bool :=
  bool_decide (is_Some (_unit2id self !! key)).

Definition size (self : t) : nat := len self.

Section io.
Context `{Pickle (list string), Pickle (gmap string nat)}.

Definition save (self : t) (fs : files) : files :=
  vocab_save (filename self) (_id2unit self) (_unit2id self) fs.

Definition load (self : t) (fs : files) : result t :=
  '(id2unit, unit2id) ← vocab_load (filename self) fs;
  Ok {| filename := filename self; _id2unit := id2unit; _unit2id := unit2id |}.

Definition build_vocab (self : t) : result t := Raise NotImplementedError.

(** [__init__]: load when the file exists, else build and save. *)
Definition init (filename : string) (fs : files) : result (t * files) :=
  let self := {| filename := filename; _id2unit := []; _unit2id := ∅ |} in
  if bool_decide (is_Some (fs !! filename)) then
    self ← load self fs; Ok (self, fs)
  else
    self ← build_vocab self; Ok (self, save self fs).

End io.

(** Modelled from the spec: [build_vocab] of the base class is abstract
    (it raises [NotImplementedError]) and the subclasses that implement it
    are not part of the sources.  The data model of a built Vocabulary
    is: an ordered sequence of distinct units, the reverse mapping over
    the same units, the reserved [PAD] unit at id 0 and a reserved [UNK]
    unit. *)
Record built (self : t) : Prop := {
  built_nodup : NoDup (_id2unit self);
  built_reverse : _unit2id self = enumerate_dict (_id2unit self);
  built_pad : _id2unit self !! PAD_ID = Some PAD;
  built_unk : UNK ∈ _id2unit self
}.

(** [__getitem__]: a string is looked up as a unit, an integer as an
    id, and a key of any other type is a [TypeError]. *)
Inductive pykey : Type :=
  | KStr (s : string)
  | KInt (i : Z)
  | KOther.

Inductive item : Type :=
  | IId (i : nat)
  | IUnit (u : string).

Definition getitem (self : t) (key : pykey) : result item :=
  match key with
  | KStr s => IId <$> unit2id self s
  | KInt i => IUnit <$> id2unit self i
  | KOther => Raise TypeError
  end.

End Vocab.

(** ** Strings as Python sees them *)

(** [[x for x in unit]]: the characters of a string, each a string. *)
Fixpoint chars (unit : string) : list string :=
  match unit with
  | EmptyString => []
  | String c rest => String c EmptyString :: chars rest
  end.

Fixpoint starts_with (p s : string) : bool :=
  match p, s with
  | EmptyString, _ => true
  | String a p', String b s' => bool_decide (a = b) && starts_with p' s'
  | String _ _, EmptyString => false
  end.

(** [s.split(sep)] for a non-empty [sep]: the pieces between the
    occurrences of [sep], found left to right without overlap.  [skip]
    counts the characters of a separator still to be passed over and
    [cur] is the piece being read. *)
Fixpoint split_go (sep : string) (skip : nat) (cur s : string) : list string :=
  match s with
  | EmptyString => [cur]
  | String c s' =>
      match skip with
      | S k => split_go sep k cur s'
      | O =>
          if starts_with sep s
          then cur :: split_go sep (String.length sep - 1) EmptyString s'
          else split_go sep 0 (cur +:+ String c EmptyString) s'
      end
  end.

Definition split (sep s : string) : list string := split_go sep 0 EmptyString s.

(** [sep.join(parts)] *)
Fixpoint join (sep : string) (parts : list string) : string :=
  match parts with
  | [] => EmptyString
  | x :: rest =>
      match rest with
      | [] => x
      | _ :: _ => x +:+ sep +:+ join sep rest
      end
  end.

(** [s[n:]] *)
Fixpoint sdrop (n : nat) (s : string) : string :=
  match n, s with
  | O, _ => s
  | S _, EmptyString => EmptyString
  | S n', String _ s' => sdrop n' s'
  end.

(** ** Insertion-ordered dictionaries

    [OrderedDict], and a [dict] that is iterated: the items in insertion
    order.  Assigning to a present key keeps its place. *)

Section odict.
Context {K : Type} `{EqDecision K} {V : Type}.

Fixpoint od_get (d : list (K * V)) (k : K) : option V :=
  match d with
  | [] => None
  | (k', v) :: d' => if decide (k = k') then Some v else od_get d' k
  end.

Definition od_mem (d : list (K * V)) (k : K) : bool :=
  bool_decide (is_Some (od_get d k)).

Fixpoint od_set (d : list (K * V)) (k : K) (v : V) : list (K * V) :=
  match d with
  | [] => [(k, v)]
  | (k', v') :: d' =>
      if decide (k = k') then (k, v) :: d' else (k', v') :: od_set d' k v
  end.

(** [dict(pairs)] *)
Definition od_of_pairs (pairs : list (K * V)) : list (K * V) :=
  foldl (λ d '(k, v), od_set d k v) [] pairs.

End odict.

(** ** [ComposedVocab] *)

Module ComposedVocab.

(** A field key: a position (positional mode) or an attribute name
    (keyed mode). *)
Inductive key : Set :=
  | Idx (i : nat)
  | Name (s : string).

#[global] Instance key_eq_dec : EqDecision key.
Proof. solve_decision. Defined.

(** What [unit2parts] returns: a list in positional mode, a dict from
    attribute name to values in keyed mode. *)
Inductive parts : Type :=
  | PList (l : list string)
  | PDict (d : list (key * list string)).

(** What [unit2id] returns: one sub-id per position, or one list of
    sub-ids per field key. *)
Inductive encoded : Type :=
  | EPos (ids : list nat)
  | EKeyed (ids : list (list nat)).

Record t : Type := mk {
  filename : string;
  data : list (list (list string));
  lang : string;
  idx : Z;
  sep : string;
  keyed : bool;
  _id2unit : list (key * list string);
  _unit2id : list (key * gmap string nat)
}.

(** The parts of a unit before the attributes are read. *)
Definition split_unit (self : t) (unit : string) : list string :=
  if decide (sep self = EmptyString) then chars unit
  else split (sep self) unit.

Definition unit2parts (self : t) (unit : string) : result parts :=
  let parts := split_unit self unit in
  if keyed self then
    if decide (parts = ["_"]) then Ok (PDict [])
    else
      let parts := split "=" <$> parts in
      pairs ← mapM (λ xy, match xy with
                          | [x; y] => Ok (Name x, split "," y)
                          | _ => Raise ValueError
                          end) parts;
      Ok (PDict (od_of_pairs pairs))
  else Ok (PList parts).

(** [unit2parts] answers to the same [keyed] flag, so a list in keyed
    mode or a dict in positional mode does not occur. *)
Definition unit2id (self : t) (unit : string) : result encoded :=
  parts ← unit2parts self unit;
  if keyed self then
    match parts with
    | PDict parts =>
        EKeyed <$> mapM (λ k,
          match od_get parts k with
          | Some vs =>
              tbl ← of_option KeyError (od_get (_unit2id self) k);
              mapM (λ x, of_option KeyError (tbl !! x)) vs
          | None => Ok [0]
          end) (_unit2id self).*1
    | PList _ => Raise TypeError
    end
  else
    match parts with
    | PList parts =>
        EPos <$> mapM (λ i,
          if decide (i < length parts) then
            tbl ← of_option KeyError (od_get (_unit2id self) (Idx i));
            p ← of_option IndexError (parts !! i);
            Ok (default 0 (tbl !! p))
          else Ok 0) (seq 0 (length (_unit2id self)))
    | PDict _ => Raise TypeError
    end.

Definition id2unit (self : t) (id : Z) : result string :=
  Raise NotImplementedError.

(** The sub-id of value [x] in the table of field [k]; 0 where the table
    has none. *)
Definition sub_id (self : t) (k : key) (x : string) : nat :=
  default 0 (tbl ← od_get (_unit2id self) k; tbl !! x).

(** The field keys, in the order of the table. *)
Definition known_keys (self : t) : list key := (_unit2id self).*1.

(** [if v not in self._id2unit[key]: self._id2unit[key].append(v)] *)
Definition add_value (id2unit : list (key * list string)) (k : key) (v : string)
  : result (list (key * list string)) :=
  vals ← of_option KeyError (od_get id2unit k);
  Ok (if decide (v ∈ vals) then id2unit else od_set id2unit k (vals ++ [v])).

(** [if key not in self._id2unit: self._id2unit[key] = copy(VOCAB_PREFIX)] *)
Definition add_key (id2unit : list (key * list string)) (k : key)
  : list (key * list string) :=
  if od_mem id2unit k then id2unit else od_set id2unit k VOCAB_PREFIX.

(** [foldM]: a [for] loop whose body can raise. *)
Fixpoint foldM {A S} (body : S → A → result S) (s : S) (l : list A) : result S :=
  match l with
  | [] => Ok s
  | x :: l' => s' ← body s x; foldM body s' l'
  end.

Definition build_keyed_unit (self : t) (id2unit : list (key * list string))
  (u : string) : result (list (key * list string)) :=
  parts ← unit2parts self u;
  match parts with
  | PDict parts =>
      foldM (λ id2unit '(k, vs),
               foldM (λ id2unit v, add_value id2unit k v) (add_key id2unit k) vs)
            id2unit parts
  | PList _ => Raise TypeError
  end.

Definition build_positional_parts (id2unit : list (key * list string))
  (parts : list string) : result (list (key * list string)) :=
  foldM (λ id2unit '(i, p),
           let id2unit := add_key id2unit (Idx i) in
           if decide (i < length parts) then add_value id2unit (Idx i) p
           else Ok id2unit)
        id2unit (imap pair parts).

Definition as_list (p : parts) : result (list string) :=
  match p with
  | PList l => Ok l
  | PDict _ => Raise TypeError
  end.

(** [max(l)]: [ValueError] on an empty list. *)
Definition py_max (l : list nat) : result nat :=
  match l with
  | [] => Raise ValueError
  | x :: l' => Ok (foldl Nat.max x l')
  end.

Definition allunits (self : t) : result (list string) :=
  mapM (λ w, py_index w (idx self)) (concat (data self)).

Definition build_vocab (self : t) : result t :=
  allunits ← allunits self;
  id2unit ←
    (if keyed self then
       foldM (build_keyed_unit self) [] allunits
     else
       allparts ← mapM (λ u, p ← unit2parts self u; as_list p) allunits;
       maxlen ← py_max (length <$> allparts);
       foldM build_positional_parts [] allparts);
  Ok {| filename := filename self; data := data self; lang := lang self;
        idx := idx self; sep := sep self; keyed := keyed self;
        _id2unit := id2unit;
        _unit2id := (λ '(k, units), (k, enumerate_dict units)) <$> id2unit |}.

(** Value [v] is in the list of field [k]. *)
Definition holds (id2unit : list (key * list string)) (k : key) (v : string) : Prop :=
  ∃ units, od_get id2unit k = Some units ∧ v ∈ units.

(** The fields while [build_vocab] runs: distinct keys, every list
    starting with [PAD] and without a sub-unit twice. *)
Definition fields_ok (d : list (key * list string)) : Prop :=
  NoDup d.*1 ∧ Forall (λ kl, NoDup kl.2 ∧ kl.2 !! 0 = Some PAD) d.

(** A field as [build_vocab] leaves it: its list of sub-units starts with
    [PAD] and has no sub-unit twice, and its table gives every sub-unit
    its place in the list. *)
Definition field_ok (field : key * list string) (entry : key * gmap string nat)
  : Prop :=
  field.1 = entry.1 ∧
  NoDup field.2 ∧
  field.2 !! 0 = Some PAD ∧
  entry.2 !! PAD = Some 0 ∧
  ∀ x i, entry.2 !! x = Some i ↔ field.2 !! i = Some x.

Section io.
Context `{Pickle (list (key * list string)), Pickle (list (key * gmap string nat))}.

Definition save (self : t) (fs : files) : files :=
  vocab_save (filename self) (_id2unit self) (_unit2id self) fs.

Definition with_tables (self : t) (id2unit : list (key * list string))
  (unit2id : list (key * gmap string nat)) : t :=
  {| filename := filename self; data := data self; lang := lang self;
     idx := idx self; sep := sep self; keyed := keyed self;
     _id2unit := id2unit; _unit2id := unit2id |}.

Definition load (self : t) (fs : files) : result t :=
  '(id2unit, unit2id) ← vocab_load (filename self) fs;
  Ok (with_tables self id2unit unit2id).

Definition init (self : t) (fs : files) : result (t * files) :=
  if bool_decide (is_Some (fs !! filename self)) then
    self ← load self fs; Ok (self, fs)
  else
    self ← build_vocab self; Ok (self, save self fs).

End io.

End ComposedVocab.


(** ** Helpers of [models/common/data.py] *)

(** Modelled from the spec: [sort_all] of [models/common/data.py] is not
    part of the sources.  "Sorting is by descending length and is stable
    for equal lengths", and [orig_idx] is "a permutation mapping sorted
    position back to original position".  The rows are tagged with their
    length and their position, and sorted by insertion: a row goes in
    front of the first row that is not longer. *)
Fixpoint insert_desc {A} (x : nat * A) (l : list (nat * A)) : list (nat * A) :=
  match l with
  | [] => [x]
  | y :: l' => if x.1 <? y.1 then y :: insert_desc x l' else x :: y :: l'
  end.

Definition sort_desc {A} (l : list (nat * A)) : list (nat * A) :=
  foldr insert_desc [] l.

Definition sort_all {A} (batch : list A) (lens : list nat) : list A * list nat :=
  let sorted := sort_desc (zip lens (zip (seq 0 (length lens)) batch)) in
  (sorted.*2.*2, sorted.*2.*1).
Arguments sort_all : simpl never.

(** The order of a sorted chunk: a longer row first, and of two rows of
    one length the one that came first. *)
Definition before {A} (x y : nat * (nat * A)) : Prop :=
  y.1 < x.1 ∨ (x.1 = y.1 ∧ x.2.1 < y.2.1).

(** The rows of a chunk, tagged with length and position. *)
Definition tagged {A} (len : A → nat) (batch : list A) : list (nat * (nat * A)) :=
  zip (len <$> batch) (zip (seq 0 (length (len <$> batch))) batch).

(** Modelled from the spec: [unsort] is not part of the sources.  The
    sorted rows are put back in the order the chunk had: position [i] of
    the result is the sorted row whose [orig_idx] is [i]. *)
Fixpoint index_of (i : nat) (l : list nat) : option nat :=
  match l with
  | [] => None
  | j :: l' => if decide (i = j) then Some 0 else S <$> index_of i l'
  end.

Definition unsort {A} (sorted : list A) (oidx : list nat) : list (option A) :=
  (λ i, j ← index_of i oidx; sorted !! j) <$> seq 0 (length oidx).

(** A two-dimensional [LongTensor]: [size(0)], [size(1)] and the rows. *)
Record tensor : Type := mk_tensor {
  size0 : nat;
  size1 : nat;
  cells : list (list nat)
}.

(** Modelled from the spec: [get_long_tensor] is not part of the
    sources.  Within one batch a sequence-valued field is padded to the
    longest of its sequences; the padding value is the PAD id (0). *)
Definition pad_to (token_len : nat) (s : list nat) : list nat :=
  s ++ replicate (token_len - length s) PAD_ID.

Definition get_long_tensor (tokens_list : list (list nat)) (batch_size : nat)
  : tensor :=
  let token_len := max_list (length <$> tokens_list) in
  {| size0 := batch_size;
     size1 := token_len;
     cells := pad_to token_len <$> tokens_list |}.

(** [torch.eq(src, constant.PAD_ID)] *)
Definition eq_pad (x : tensor) : list (list bool) :=
  (λ row : list nat, (λ v, bool_decide (v = PAD_ID)) <$> row) <$> cells x.

(** [range(0, n, step)] *)
Definition range_step (n : nat) (step : Z) : result (list nat) :=
  if decide (step = 0%Z) then Raise ValueError
  else if decide (step < 0)%Z then Ok []
  else
    let k := Z.to_nat step in
    Ok ((λ q, q * k) <$> seq 0 ((n + k - 1) / k)).

(** [[data[i:i+batch_size] for i in range(0, len(data), batch_size)]] *)
Definition chunk {A} (data : list A) (batch_size : Z) : result (list (list A)) :=
  starts ← range_step (length data) batch_size;
  Ok (fmap (M:=list) (λ i, take (Z.to_nat batch_size) (drop i data)) starts).

(** The shuffle of [__init__]: [indices] is what [random.shuffle] left
    of [range(len(data))]; [None] stands for evaluation mode. *)
Definition shuffle_data {A} (data : list A) (indices : option (list Z))
  : result (list A) :=
  match indices with
  | None => Ok data
  | Some indices => mapM (py_index data) indices
  end.

Definition msg_shape : string :=
  "Target input and output sequence sizes do not match.".

(** ** [DataLoader] of the lemmatizer *)

Module LemmaLoader.

Section loader.
(** [models.common.seq2seq_constant], [models.lemma.edit] and the
    lemmatizer's own [Vocab] are not part of the sources: the two
    markers, the UNK id and the edit classifier are parameters; of the
    vocabularies only the [unit2id] dicts are used. *)
Variables SOS EOS : string.
Variable UNK_ID : nat.
Variable edit_type_id : string → string → result nat.

(** Modelled from the spec: [map_to_ids] is not part of the sources.
    Every token is mapped to its id; a lookup miss is "silently resolved
    to UNK". *)
Definition map_to_ids (tokens : list string) (unit2id : gmap string nat)
  : list nat :=
  (λ t, default UNK_ID (unit2id !! t)) <$> tokens.

(** One raw example: [d[0]] the word, [d[1]] its tag, [d[2]] the lemma. *)
Record raw : Type := mk_raw {
  word : string;
  upos : string;
  lemma : string
}.

(** One processed example: [[src, tgt_in, tgt_out, pos, edit_type]]. *)
Record example : Type := mk_example {
  ex_src : list nat;
  ex_tgt_in : list nat;
  ex_tgt_out : list nat;
  ex_pos : nat;
  ex_edit : nat
}.

Definition preprocess_one (vocab pos_vocab : gmap string nat) (d : raw)
  : result example :=
  edit_type ← edit_type_id (word d) (lemma d);
  let src := chars (word d) in
  let src := [SOS] ++ src ++ [EOS] in
  let src := map_to_ids src vocab in
  let pos := upos d in
  let pos := default UNK_ID (pos_vocab !! pos) in
  let tgt := chars (lemma d) in
  let tgt_in := map_to_ids ([SOS] ++ tgt) vocab in
  let tgt_out := map_to_ids (tgt ++ [EOS]) vocab in
  Ok (mk_example src tgt_in tgt_out pos edit_type).

Definition preprocess (data : list raw) (vocab pos_vocab : gmap string nat)
  : result (list example) :=
  mapM (preprocess_one vocab pos_vocab) data.

(** The part of [__init__] after the vocabularies: preprocess, shuffle,
    chunk. *)
Definition init (data : list raw) (vocab pos_vocab : gmap string nat)
  (indices : option (list Z)) (batch_size : Z) : result (list (list example)) :=
  data ← preprocess data vocab pos_vocab;
  data ← shuffle_data data indices;
  chunk data batch_size.

Record batch : Type := mk_batch {
  b_src : tensor;
  b_src_mask : list (list bool);
  b_tgt_in : tensor;
  b_tgt_out : tensor;
  b_pos : list nat;
  b_edits : list nat;
  b_orig_idx : list nat
}.

Definition getitem (data : list (list example)) (key : Z) : result batch :=
  if bool_decide (key < 0)%Z || bool_decide (key >= Z.of_nat (length data))%Z
  then Raise IndexError
  else
    batch ← of_option IndexError (data !! Z.to_nat key);
    let batch_size := length batch in
    (* unzipping a chunk without examples gives no column at all, not five *)
    if decide (batch = []) then Raise (AssertionError EmptyString)
    else
      let lens := (λ x, length (ex_src x)) <$> batch in
      let '(batch, orig_idx) := sort_all batch lens in
      let src := get_long_tensor (ex_src <$> batch) batch_size in
      let src_mask := eq_pad src in
      let tgt_in := get_long_tensor (ex_tgt_in <$> batch) batch_size in
      let tgt_out := get_long_tensor (ex_tgt_out <$> batch) batch_size in
      let pos := ex_pos <$> batch in
      let edits := ex_edit <$> batch in
      if decide (size1 tgt_in = size1 tgt_out)
      then Ok (mk_batch src src_mask tgt_in tgt_out pos edits orig_idx)
      else Raise (AssertionError msg_shape).

Definition targets_agree (x : example) : Prop :=
  length (ex_tgt_in x) = length (ex_tgt_out x).

#[global] Instance targets_agree_dec (x : example) : Decision (targets_agree x).
Proof. unfold targets_agree. apply _. Defined.

(** The batch [getitem] returns for a chunk whose targets agree. *)
Definition batch_of (chunk : list example) : batch :=
  let '(sorted, orig_idx) := sort_all chunk ((λ x, length (ex_src x)) <$> chunk) in
  let src := get_long_tensor (ex_src <$> sorted) (length chunk) in
  mk_batch src (eq_pad src)
           (get_long_tensor (ex_tgt_in <$> sorted) (length chunk))
           (get_long_tensor (ex_tgt_out <$> sorted) (length chunk))
           (ex_pos <$> sorted) (ex_edit <$> sorted) orig_idx.

(** A batch [b] that is a chunk sorted by length: [orig_idx] is
    a permutation of the positions of the chunk; row [j] of every field
    is the example [orig_idx[j]] of the chunk; a longer source comes
    first and sources of one length keep the order of the chunk; and
    [unsort] by [orig_idx] gives every field back in the order of the
    chunk. *)
Definition sorted_by_length (chunk : list example) (b : batch) : Prop :=
  b_orig_idx b ≡ₚ seq 0 (length chunk) ∧
  (∀ j i, b_orig_idx b !! j = Some i →
     ∃ x, chunk !! i = Some x ∧
          cells (b_src b) !! j = Some (pad_to (size1 (b_src b)) (ex_src x)) ∧
          cells (b_tgt_in b) !! j = Some (pad_to (size1 (b_tgt_in b)) (ex_tgt_in x)) ∧
          cells (b_tgt_out b) !! j = Some (pad_to (size1 (b_tgt_out b)) (ex_tgt_out x)) ∧
          b_pos b !! j = Some (ex_pos x) ∧
          b_edits b !! j = Some (ex_edit x)) ∧
  (∀ j1 j2 i1 i2 x1 x2,
     j1 < j2 → b_orig_idx b !! j1 = Some i1 → b_orig_idx b !! j2 = Some i2 →
     chunk !! i1 = Some x1 → chunk !! i2 = Some x2 →
     length (ex_src x2) ≤ length (ex_src x1) ∧
     (length (ex_src x1) = length (ex_src x2) → i1 < i2)) ∧
  unsort (cells (b_src b)) (b_orig_idx b)
    = Some <$> (pad_to (size1 (b_src b)) <$> (ex_src <$> chunk)) ∧
  unsort (cells (b_tgt_in b)) (b_orig_idx b)
    = Some <$> (pad_to (size1 (b_tgt_in b)) <$> (ex_tgt_in <$> chunk)) ∧
  unsort (cells (b_tgt_out b)) (b_orig_idx b)
    = Some <$> (pad_to (size1 (b_tgt_out b)) <$> (ex_tgt_out <$> chunk)) ∧
  unsort (b_pos b) (b_orig_idx b) = Some <$> (ex_pos <$> chunk) ∧
  unsort (b_edits b) (b_orig_idx b) = Some <$> (ex_edit <$> chunk).

(** [__iter__]: the batches of all keys in order; an exception of
    [__getitem__] ends the iteration. *)
Definition iter (data : list (list example)) : result (list batch) :=
  mapM (getitem data) (Z.of_nat <$> seq 0 (length data)).

End loader.

End LemmaLoader.

(** ** [DataLoader] of the multi-word-token expander *)

Module MwtLoader.

Section loader.
Variables SOS EOS : string.
Variable UNK_ID : nat.

(** A token handed to [map_to_ids]: a character or marker, or, for the
    placeholder target of evaluation mode, an id. *)
Inductive token : Type :=
  | TStr (s : string)
  | TInt (i : nat).

(** Modelled from the spec: [map_to_ids] is not part of the sources.
    Here it is handed the [Vocab] object: [t in vocab] is
    [Vocab.__contains__] and [vocab[t]] is [Vocab.__getitem__], which for
    a string is [unit2id]; a miss is resolved to UNK. *)
Definition map_to_ids (tokens : list token) (vocab : Vocab.t) : result (list nat) :=
  mapM (λ t, match t with
             | TStr s => if Vocab.contains vocab s then Vocab.unit2id vocab s
                         else Ok UNK_ID
             | TInt _ => Ok UNK_ID
             end) tokens.

(** One raw example: [d[0]] the token, [d[1]] its expansion (absent in
    evaluation mode). *)
Record raw : Type := mk_raw {
  surface : string;
  expansion : string
}.

Record example : Type := mk_example {
  ex_src : list nat;
  ex_tgt_in : list nat;
  ex_tgt_out : list nat
}.

Definition preprocess_one (eval : bool) (vocab : Vocab.t) (d : raw)
  : result example :=
  let src := TStr <$> chars (surface d) in
  let src := [TStr SOS] ++ src ++ [TStr EOS] in
  src ← map_to_ids src vocab;
  let tgt := if eval then fmap (M:=list) TInt src else TStr <$> chars (expansion d) in
  tgt_in ← map_to_ids ([TStr SOS] ++ tgt) vocab;
  tgt_out ← map_to_ids (tgt ++ [TStr EOS]) vocab;
  Ok (mk_example src tgt_in tgt_out).

Definition preprocess (eval : bool) (data : list raw) (vocab : Vocab.t)
  : result (list example) :=
  mapM (preprocess_one eval vocab) data.

Definition init (eval : bool) (data : list raw) (vocab : Vocab.t)
  (indices : option (list Z)) (batch_size : Z) : result (list (list example)) :=
  data ← preprocess eval data vocab;
  data ← shuffle_data data indices;
  chunk data batch_size.

Record batch : Type := mk_batch {
  b_src : tensor;
  b_src_mask : list (list bool);
  b_tgt_in : tensor;
  b_tgt_out : tensor;
  b_orig_idx : list nat
}.

Definition getitem (data : list (list example)) (key : Z) : result batch :=
  if bool_decide (key < 0)%Z || bool_decide (key >= Z.of_nat (length data))%Z
  then Raise IndexError
  else
    batch ← of_option IndexError (data !! Z.to_nat key);
    let batch_size := length batch in
    if decide (batch = []) then Raise (AssertionError EmptyString)
    else
      let lens := (λ x, length (ex_src x)) <$> batch in
      let '(batch, orig_idx) := sort_all batch lens in
      let src := get_long_tensor (ex_src <$> batch) batch_size in
      let src_mask := eq_pad src in
      let tgt_in := get_long_tensor (ex_tgt_in <$> batch) batch_size in
      let tgt_out := get_long_tensor (ex_tgt_out <$> batch) batch_size in
      if decide (size1 tgt_in = size1 tgt_out)
      then Ok (mk_batch src src_mask tgt_in tgt_out orig_idx)
      else Raise (AssertionError msg_shape).

Definition targets_agree (x : example) : Prop :=
  length (ex_tgt_in x) = length (ex_tgt_out x).

#[global] Instance targets_agree_dec (x : example) : Decision (targets_agree x).
Proof. unfold targets_agree. apply _. Defined.

Definition batch_of (chunk : list example) : batch :=
  let '(sorted, orig_idx) := sort_all chunk ((λ x, length (ex_src x)) <$> chunk) in
  let src := get_long_tensor (ex_src <$> sorted) (length chunk) in
  mk_batch src (eq_pad src)
           (get_long_tensor (ex_tgt_in <$> sorted) (length chunk))
           (get_long_tensor (ex_tgt_out <$> sorted) (length chunk))
           orig_idx.

Definition sorted_by_length (chunk : list example) (b : batch) : Prop :=
  b_orig_idx b ≡ₚ seq 0 (length chunk) ∧
  (∀ j i, b_orig_idx b !! j = Some i →
     ∃ x, chunk !! i = Some x ∧
          cells (b_src b) !! j = Some (pad_to (size1 (b_src b)) (ex_src x)) ∧
          cells (b_tgt_in b) !! j = Some (pad_to (size1 (b_tgt_in b)) (ex_tgt_in x)) ∧
          cells (b_tgt_out b) !! j = Some (pad_to (size1 (b_tgt_out b)) (ex_tgt_out x))) ∧
  (∀ j1 j2 i1 i2 x1 x2,
     j1 < j2 → b_orig_idx b !! j1 = Some i1 → b_orig_idx b !! j2 = Some i2 →
     chunk !! i1 = Some x1 → chunk !! i2 = Some x2 →
     length (ex_src x2) ≤ length (ex_src x1) ∧
     (length (ex_src x1) = length (ex_src x2) → i1 < i2)) ∧
  unsort (cells (b_src b)) (b_orig_idx b)
    = Some <$> (pad_to (size1 (b_src b)) <$> (ex_src <$> chunk)) ∧
  unsort (cells (b_tgt_in b)) (b_orig_idx b)
    = Some <$> (pad_to (size1 (b_tgt_in b)) <$> (ex_tgt_in <$> chunk)) ∧
  unsort (cells (b_tgt_out b)) (b_orig_idx b)
    = Some <$> (pad_to (size1 (b_tgt_out b)) <$> (ex_tgt_out <$> chunk)).

End loader.

End MwtLoader.

(** ** [Seq2SeqModel]: the two decoding loops *)

Module Seq2SeqModel.

(** One call of [Beam.advance] as [predict] makes it: the decoding step,
    the index of the beam in the batch, and the value returned. *)
Record advance_call : Type := mk_call {
  call_step : nat;
  call_beam : nat;
  call_is_done : bool
}.

Section model.
(** The network is an external collaborator.  [state] is all that one
    decoder call hands to the next (hidden state, encoded source and the
    next decoder inputs).  [max_dec_len] is a count; a configured value
    below zero runs no step either. *)
Variable state : Type.
Variable EOS_ID : Z.
Variable max_dec_len : nat.

(** *** [predict_greedy] *)

(** [self.decode] followed by the arg-max and the embedding of the
    predictions: the token predicted for every example of the batch, and
    the state of the next call. *)
Variable decode_greedy : state → (nat → Z) * state.

Record greedy : Type := mk_greedy {
  done : list bool;
  total_done : nat;
  max_len : nat;
  output_seqs : list (list Z);
  dec : state
}.

(** The body of [for i in range(batch_size)].  [done], [output_seqs]
    were made with [batch_size] entries, so [i] is in range.  On an
    end-of-sequence token the source evaluates the comparison
    [done[i] == True] and drops its value: [done] is left as it was. *)
Definition greedy_example (preds : nat → Z) (s : greedy) (i : nat) : greedy :=
  if negb (default false (done s !! i)) then
    let token := preds i in
    if bool_decide (token = EOS_ID) then
      let _ := bool_decide (done s !! i = Some true) in
      mk_greedy (done s) (total_done s + 1) (max_len s) (output_seqs s) (dec s)
    else
      mk_greedy (done s) (total_done s) (max_len s)
                (alter (λ seq, seq ++ [token]) i (output_seqs s)) (dec s)
  else s.

(** One turn of the [while] loop. *)
Definition greedy_step (batch_size : nat) (s : greedy) : greedy :=
  let '(preds, dec') := decode_greedy (dec s) in
  let s := mk_greedy (done s) (total_done s) (max_len s + 1) (output_seqs s) dec' in
  foldl (greedy_example preds) s (seq 0 batch_size).

Definition greedy_continues (batch_size : nat) (s : greedy) : bool :=
  bool_decide (total_done s < batch_size) && bool_decide (max_len s < max_dec_len).

Fixpoint greedy_loop (fuel batch_size : nat) (s : greedy) : greedy :=
  match fuel with
  | O => s
  | S fuel' =>
      if greedy_continues batch_size s
      then greedy_loop fuel' batch_size (greedy_step batch_size s)
      else s
  end.

Definition greedy_init (batch_size : nat) (dec0 : state) : greedy :=
  mk_greedy (replicate batch_size false) 0 0 (replicate batch_size []) dec0.

(** Every turn adds one to [max_len], so [max_dec_len] turns are enough. *)
Definition greedy_run (batch_size : nat) (dec0 : state) : greedy :=
  greedy_loop max_dec_len batch_size (greedy_init batch_size dec0).

Definition predict_greedy (batch_size : nat) (dec0 : state) : list (list Z) :=
  output_seqs (greedy_run batch_size dec0).

(** The decoder on its own: its state before turn [t], the token it
    predicts for example [i] at turn [t], the number of examples for which
    it predicts the end-of-sequence token at turn [t], and that number
    summed over the turns before [k]. *)
Fixpoint dec_at (dec0 : state) (t : nat) : state :=
  match t with
  | O => dec0
  | S t' => (decode_greedy (dec_at dec0 t')).2
  end.

Definition preds_at (dec0 : state) (t i : nat) : Z :=
  (decode_greedy (dec_at dec0 t)).1 i.

Definition eos_at (batch_size : nat) (dec0 : state) (t : nat) : nat :=
  length (filter (λ i, preds_at dec0 t i = EOS_ID) (seq 0 batch_size)).

Definition eos_before (batch_size : nat) (dec0 : state) (k : nat) : nat :=
  sum_list_with (eos_at batch_size dec0) (seq 0 k).

(** The variables of [predict_greedy] after [k] turns of a loop that sets
    no flag: one count per end-of-sequence token predicted, and for every
    example all its predicted tokens but the end-of-sequence ones. *)
Definition greedy_after (batch_size : nat) (dec0 : state) (k : nat) : greedy :=
  mk_greedy (replicate batch_size false)
            (eos_before batch_size dec0 k)
            k
            ((λ i, filter (λ token, token ≠ EOS_ID)
                          ((λ t, preds_at dec0 t i) <$> seq 0 k))
               <$> seq 0 batch_size)
            (dec_at dec0 k).

(** *** [predict] *)

(** [models.lemma.beam.Beam] is not part of the sources: the beam is an
    abstract object, [advance] returns the early-exit signal and the
    beam as the call left it, [decode_beam] is [self.decode] on the
    current state of all beams and [update_state] the reordering of the
    hidden state by one beam's back-pointers. *)
Variable beam : Type.
Variable logp : Type.
Variable new_beam : beam.
Variable advance : beam → logp → bool * beam.
Variable decode_beam : state → list beam → (nat → logp) * state.
Variable update_state : state → nat → beam → state.

Record search : Type := mk_search {
  beams : list beam;
  hidden : state;
  calls : list advance_call
}.

(** The body of [for b in range(batch_size)]; [done] collects the beams
    that returned the signal at this step. *)
Definition advance_beam (i : nat) (log_probs : nat → logp)
  (acc : search * list nat) (b : nat) : search * list nat :=
  let '(s, done) := acc in
  match beams s !! b with
  | Some bm =>
      let '(is_done, bm) := advance bm (log_probs b) in
      let done := if is_done then done ++ [b] else done in
      (mk_search (<[b := bm]> (beams s)) (update_state (hidden s) b bm)
                 (calls s ++ [mk_call i b is_done]), done)
  | None => acc
  end.

(** One turn of [for i in range(self.max_dec_len)], and whether the
    loop breaks after it. *)
Definition search_step (batch_size : nat) (s : search) (i : nat) : search * bool :=
  let '(log_probs, hidden') := decode_beam (hidden s) (beams s) in
  let s := mk_search (beams s) hidden' (calls s) in
  let '(s, done) := foldl (advance_beam i log_probs) (s, []) (seq 0 batch_size) in
  (s, bool_decide (length done = batch_size)).

Fixpoint search_loop (batch_size : nat) (s : search) (steps : list nat) : search :=
  match steps with
  | [] => s
  | i :: steps' =>
      let '(s, break) := search_step batch_size s i in
      if break then s else search_loop batch_size s steps'
  end.

(** [predict] up to the back trace: the beams after the main loop, with
    the calls of [advance] made on the way. *)
Definition predict_search (batch_size : nat) (hidden0 : state) : search :=
  search_loop batch_size (mk_search (replicate batch_size new_beam) hidden0 [])
              (seq 0 max_dec_len).

End model.

Arguments mk_greedy {state} _ _ _ _ _.
Arguments done {state} _.
Arguments total_done {state} _.
Arguments max_len {state} _.
Arguments output_seqs {state} _.
Arguments dec {state} _.
Arguments mk_search {state beam} _ _ _.
Arguments beams {state beam} _.
Arguments hidden {state beam} _.
Arguments calls {state beam} _.

(** The calls of a run in which turn [t] returned the signals
    [results[t]], one per beam. *)
Definition calls_of (results : list (list bool)) : list advance_call :=
  concat (imap (λ t ds, imap (mk_call t) ds) results).

(** A beam is left alone once it has signalled DONE: no call of
    [advance] on it at a later step. *)
Definition never_advanced_after_done (tr : list advance_call) : Prop :=
  ∀ c1 c2, c1 ∈ tr → c2 ∈ tr →
    call_is_done c1 = true → call_beam c2 = call_beam c1 →
    ¬ (call_step c1 < call_step c2).

End Seq2SeqModel.

(** ** [LSTMAttention.forward]: the loop over the steps

    The tensors are kept abstract: [input] is what [input[i]] gives for
    one step, [vec] a batch of hidden vectors and [cell] a batch of cell
    states.  [recurrence] is the closure of that name, which computes the
    gates, the new cell state and the attention over [ctx]; it returns
    the pair [(h_tilde, cy)]. *)

Module LSTMAttention.

Section forward.
Variables input vec cell : Type.
Variable recurrence : input → vec * cell → vec * cell.

(** The [for i in steps] loop: [output] collects [hidden[0]] of each
    step. *)
Definition forward_loop (output : list vec) (hidden : vec * cell) (steps : list input)
    : list vec * (vec * cell) :=
  foldl (λ '(output, hidden) x,
           let hidden := recurrence x hidden in
           (output ++ [hidden.1], hidden))
        (output, hidden) steps.

(** [forward]: the outputs of the steps, stacked, and the last hidden
    state.  [torch.cat] accepts no empty list of tensors, so an input of
    no step raises: [None]. *)
Definition forward (steps : list input) (hidden : vec * cell)
    : option (list vec * (vec * cell)) :=
  let '(output, hidden) := forward_loop [] hidden steps in
  match output with
  | [] => None
  | _ :: _ => Some (output, hidden)
  end.

End forward.

End LSTMAttention.

(** ** [stanfordnlp/utils/resources.py] *)

Module Resources.


Definition mwt_languages : list string := [
   "ar_padt"; "ca_ancora"; "cs_cac"; "cs_fictree"; "cs_pdt"; "de_gsd";
   "el_gdt"; "es_ancora"; "fa_seraji"; "fi_ftb"; "fr_gsd"; "fr_sequoia";
   "gl_ctg"; "gl_treegal"; "he_htb"; "hy_armtdp"; "it_isdt"; "it_postwita";
   "kk_ktb"; "pl_sz"; "pt_bosque"; "tr_imst"].


Definition processor_to_ending : list (string * string) :=
  [("tokenize", "tokenizer"); ("mwt", "mwt_expander"); ("pos", "tagger");
   ("lemma", "lemmatizer"); ("depparse", "parser")].

(** [build_default_config]: the dictionary is kept in insertion order. *)
Definition build_default_config (lang models_path : string)
    : result (list (string * string)) :=
  let default_config : list (string * string) := [] in
  let default_config :=
    if bool_decide (lang ∈ mwt_languages)
    then od_set default_config "processors" "tokenize,mwt,pos,lemma,depparse"
    else od_set default_config "processors" "tokenize,pos,lemma,depparse" in
  let lang_dir := models_path +:+ "/" +:+ lang +:+ "_models" in
  processors ← of_option KeyError (od_get default_config "processors");
  ComposedVocab.foldM
    (λ default_config processor,
       ending ← of_option KeyError (od_get processor_to_ending processor);
       let model_file_ending := ending +:+ ".pt" in
       let default_config :=
         od_set default_config (processor +:+ ".model_path")
                (lang_dir +:+ "/" +:+ lang +:+ "_" +:+ model_file_ending) in
       if bool_decide (processor ∈ ["pos"; "depparse"])
       then
         ending ← of_option KeyError (od_get processor_to_ending processor);
         let pretrain_file_ending := ending +:+ ".pretrain.pt" in
         Ok (od_set default_config (processor +:+ ".pretrain_path")
                    (lang_dir +:+ "/" +:+ lang +:+ "_" +:+ pretrain_file_ending))
       else Ok default_config)
    default_config (split "," processors).

(** [str.isspace] of a character below 256: the characters that
    [lstrip] and [rstrip] remove. *)
Definition is_space (c : Ascii.ascii) : bool :=
  let n := Ascii.nat_of_ascii c in
  ((9 <=? n) && (n <=? 13)) || ((28 <=? n) && (n <=? 32))
  || (n =? 133) || (n =? 160).

Fixpoint lstrip (s : string) : string :=
  match s with
  | EmptyString => EmptyString
  | String c s' => if is_space c then lstrip s' else s
  end.

Fixpoint rstrip (s : string) : string :=
  match s with
  | EmptyString => EmptyString
  | String c s' =>
      match rstrip s' with
      | EmptyString => if is_space c then EmptyString else String c EmptyString
      | String _ _ as r => String c r
      end
  end.

(** [load_config].  [config_file] is what [open] finds at the path:
    nothing, or the lines of the file as iterating over it yields them,
    each with its line end.  Unpacking the pieces of a line into
    [config_key, config_value] needs exactly two of them. *)
Definition load_config (config_file : option (list string))
    : result (list (string * string)) :=
  lines ← of_option FileNotFoundError config_file;
  ComposedVocab.foldM
    (λ loaded_config config_line,
       match split ":" config_line with
       | [config_key; config_value] =>
           Ok (od_set loaded_config config_key (lstrip (rstrip config_value)))
       | _ => Raise ValueError
       end)
    [] lines.


End Resources.

(** ** [LemmaProcessor.process]: putting the predictions back *)

Module LemmaProcessor.

(** [[x for x, y in zip(words, skip) if not y]] *)
Definition unskipped {A} (words : list A) (skip : list bool) : list A :=
  (filter (λ p : A * bool, p.2 = false) (zip words skip)).*1.

(** The loop that expands the predictions of the model to the size of
    all words: [preds1] and the counter [i]. *)
Definition expand_step (preds : list string) (st : list string * nat) (s : bool)
    : result (list string * nat) :=
  let '(preds1, i) := st in
  if s then Ok (preds1 ++ [EmptyString], i)
  else p ← py_index preds (Z.of_nat i); Ok (preds1 ++ [p], i + 1).

Definition expand (skip : list bool) (preds : list string) : result (list string) :=
  fst <$> ComposedVocab.foldM (expand_step preds) ([], 0) skip.

(** The order of Python on pairs of a number and a string. *)
Definition pair_lt (a b : nat * string) : bool :=
  if decide (a.1 = b.1) then String.ltb a.2 b.2 else a.1 <? b.1.

(** [max(l)] of a non-empty list: the first of the greatest items. *)
Definition max_pair (first : nat * string) (rest : list (nat * string)) : nat * string :=
  foldl (λ m a, if pair_lt m a then a else m) first rest.

(** [[max([(len(x), x), (0, '_')])[1] for x in preds]] *)
Definition fill_empty (preds : list string) : list string :=
  (λ x, (max_pair (String.length x, x) [(0, "_")]).2) <$> preds.

End LemmaProcessor.

(** ** A concrete byte format

    One format that meets [PickleLaws], to show that the interface can be
    met: a number in unary, a string character by character, a list and a
    dict behind their length. *)

Module Codec.

Fixpoint dump_nat (n : nat) : list Byte.byte :=
  match n with
  | O => [Byte.x00]
  | S n' => Byte.x01 :: dump_nat n'
  end.

Fixpoint load_nat (bs : list Byte.byte) : result (nat * list Byte.byte) :=
  match bs with
  | Byte.x00 :: rest => Ok (0, rest)
  | Byte.x01 :: bs' => '(n, rest) ← load_nat bs'; Ok (S n, rest)
  | _ => Raise UnpicklingError
  end.

Fixpoint dump_string (s : string) : list Byte.byte :=
  match s with
  | EmptyString => [Byte.x00]
  | String c s' => Byte.x01 :: Ascii.byte_of_ascii c :: dump_string s'
  end.

Fixpoint load_string (bs : list Byte.byte) : result (string * list Byte.byte) :=
  match bs with
  | Byte.x00 :: rest => Ok (EmptyString, rest)
  | Byte.x01 :: c :: bs' =>
      '(s, rest) ← load_string bs'; Ok (String (Ascii.ascii_of_byte c) s, rest)
  | _ => Raise UnpicklingError
  end.

Definition pickle_nat : Pickle nat := Build_Pickle nat dump_nat load_nat.
Definition pickle_string : Pickle string := Build_Pickle string dump_string load_string.

Section combinators.
Context {A B : Type} (PA : Pickle A) (PB : Pickle B).

Definition dump_pair (ab : A * B) : list Byte.byte :=
  pickle_dump ab.1 ++ pickle_dump ab.2.

Definition load_pair (bs : list Byte.byte) : result ((A * B) * list Byte.byte) :=
  '(a, rest) ← pickle_load bs;
  '(b, rest) ← pickle_load rest;
  Ok ((a, b), rest).

Fixpoint dump_items (l : list A) : list Byte.byte :=
  match l with
  | [] => []
  | a :: l' => pickle_dump a ++ dump_items l'
  end.

Fixpoint load_items (n : nat) (bs : list Byte.byte) : result (list A * list Byte.byte) :=
  match n with
  | O => Ok ([], bs)
  | S n' =>
      '(a, rest) ← pickle_load bs;
      '(l, rest) ← load_items n' rest;
      Ok (a :: l, rest)
  end.

Definition dump_list (l : list A) : list Byte.byte :=
  dump_nat (length l) ++ dump_items l.

Definition load_list (bs : list Byte.byte) : result (list A * list Byte.byte) :=
  '(n, rest) ← load_nat bs; load_items n rest.

Definition pickle_pair : Pickle (A * B) := Build_Pickle (A * B) dump_pair load_pair.
Definition pickle_list : Pickle (list A) := Build_Pickle (list A) dump_list load_list.

End combinators.

Definition pickle_id2unit : Pickle (list string) := pickle_list pickle_string.

Definition pickle_unit2id : Pickle (gmap string nat) :=
  Build_Pickle (gmap string nat)
    (λ m, dump_list (pickle_pair pickle_string pickle_nat) (map_to_list m))
    (λ bs, '(l, rest) ← load_list (pickle_pair pickle_string pickle_nat) bs;
           Ok (list_to_map l, rest)).






End Codec.

(** ** Concrete vocabularies and runs used by the examples below *)

Definition vocab_abc : Vocab.t :=
  Vocab.mk "abc.vocab" ["<PAD>"; "<UNK>"; "a"; "b"; "c"]
           (enumerate_dict ["<PAD>"; "<UNK>"; "a"; "b"; "c"]).

(** A vocabulary built over the prefix of this file, which reserves
    [PAD] only. *)
Definition vocab_no_unk : Vocab.t :=
  Vocab.mk "pad.vocab" ["<PAD>"; "a"] (enumerate_dict ["<PAD>"; "a"]).

(** A composed vocabulary over a corpus of one sentence, one unit per
    word, before [build_vocab]. *)
Definition corpus (sep : string) (keyed : bool) (units : list string)
  : ComposedVocab.t :=
  ComposedVocab.mk "composed.vocab" [(λ u, [u]) <$> units] "en" 0 sep keyed [] [].

(** Three words for the lemmatizer's loader, in one chunk; their sources
    have the lengths 6, 3 and 5. *)
Definition demo_chars : gmap string nat :=
  enumerate_dict ["<PAD>"; "<UNK>"; "<SOS>"; "<EOS>"; "c"; "a"; "t"; "s"; "r"; "n"; "u"].

Definition demo_tags : gmap string nat :=
  enumerate_dict ["<PAD>"; "<UNK>"; "NOUN"; "VERB"].

Definition demo_raw : list LemmaLoader.raw :=
  [LemmaLoader.mk_raw "cats" "NOUN" "cat";
   LemmaLoader.mk_raw "a" "DET" "a";
   LemmaLoader.mk_raw "ran" "VERB" "run"].

Definition demo_lemma_loader : result (list (list LemmaLoader.example)) :=
  LemmaLoader.init "<SOS>" "<EOS>" 1 (λ _ _, Ok 0)
                   demo_raw demo_chars demo_tags None 3.

Definition demo_mwt_loader : result (list (list MwtLoader.example)) :=
  MwtLoader.init "<SOS>" "<EOS>" 1 false
                 [MwtLoader.mk_raw "ab" "a b"; MwtLoader.mk_raw "c" "c"; MwtLoader.mk_raw "abc" "ab c"]
                 vocab_abc None 2.

(** A decoder for two examples, with 3 as the end-of-sequence token: the
    first example gets 3, 8, 3, 8, ... and the second 7, 9, 7, 9, ...; its
    state is the number of the turn. *)
Definition demo_decode (t : nat) : (nat → Z) * nat :=
  ((λ i, match i with
         | O => if Nat.even t then 3%Z else 8%Z
         | _ => if Nat.even t then 7%Z else 9%Z
         end), S t).

(** Two beams under a step model that always makes the first beam's
    best hypothesis end and never the second's. *)
Definition demo_search : Seq2SeqModel.search unit unit :=
  Seq2SeqModel.predict_search unit 2 unit bool tt
    (λ bm is_eos, (is_eos, bm))
    (λ st _, ((λ b, bool_decide (b = 0)), st))
    (λ st _ _, st)
    2 tt.

(** One beam that signals DONE at its first turn, with room for five. *)
Definition demo_search_one : Seq2SeqModel.search unit unit :=
  Seq2SeqModel.predict_search unit 5 unit unit tt
    (λ bm _, (true, bm)) (λ st _, ((λ _, tt), st)) (λ st _ _, st) 1 tt.

(** * Properties *)

(** ** Results *)

Lemma mapM_length {A B} (f : A → result B) (l : list A) (r : list B) :
  mapM f l = Ok r → length r = length l.
Proof.
  revert r. induction l as [|x l IH]; intros r; simpl.
  - intros [= <-]. reflexivity.
  - destruct (f x) as [y|e]; simpl; [|discriminate].
    destruct (mapM f l) as [ys|e]; simpl; [|discriminate].
    intros [= <-]. simpl. f_equal. apply IH. reflexivity.
Qed.

Lemma mapM_Ok {A B} (f : A → result B) (g : A → B) (l : list A) :
  (∀ x, x ∈ l → f x = Ok (g x)) → mapM f l = Ok (g <$> l).
Proof.
  induction l as [|x l IH]; intros Hf; simpl; [reflexivity|].
  rewrite Hf by left. simpl. rewrite IH; [reflexivity|].
  intros y Hy. apply Hf. by right.
Qed.

Lemma mapM_lookup {A B} (f : A → result B) (l : list A) (r : list B) i x :
  mapM f l = Ok r → l !! i = Some x → ∃ y, r !! i = Some y ∧ f x = Ok y.
Proof.
  revert r i. induction l as [|a l IH]; intros r i; simpl; [by destruct i|].
  destruct (f a) as [y|e] eqn:Hfa; simpl; [|discriminate].
  destruct (mapM f l) as [ys|e]; simpl; [|discriminate].
  intros [= <-]. destruct i as [|i]; simpl.
  - intros [= <-]. eauto.
  - intros Hi. apply (IH ys i); [reflexivity|exact Hi].
Qed.

(** ** [Vocab.unit2id] and [Vocab.id2unit] *)

Lemma enumerate_from_notin (l : list string) i (m : gmap string nat) w :
  w ∉ l → enumerate_from i l m !! w = m !! w.
Proof.
  revert i m. induction l as [|x l IH]; intros i m Hw; simpl; [reflexivity|].
  apply not_elem_of_cons in Hw as [Hne Hw].
  rewrite IH by exact Hw. by rewrite lookup_insert_ne.
Qed.

Lemma enumerate_from_nodup (l : list string) i (m : gmap string nat) j w :
  NoDup l → l !! j = Some w → enumerate_from i l m !! w = Some (i + j).
Proof.
  revert i m j. induction l as [|x l IH]; intros i m j Hnd Hj; [by destruct j|].
  apply NoDup_cons in Hnd as [Hx Hnd]. destruct j as [|j]; simpl in *.
  - injection Hj as ->. rewrite enumerate_from_notin by exact Hx.
    rewrite lookup_insert_eq. f_equal. lia.
  - rewrite (IH (S i) _ j Hnd Hj). f_equal. lia.
Qed.

Lemma enumerate_dict_absent (l : list string) w :
  w ∉ l → enumerate_dict l !! w = None.
Proof. intros Hw. unfold enumerate_dict. by rewrite enumerate_from_notin. Qed.

Lemma enumerate_dict_present (l : list string) j w :
  NoDup l → l !! j = Some w → enumerate_dict l !! w = Some j.
Proof. intros Hnd Hj. unfold enumerate_dict. by rewrite (enumerate_from_nodup l 0 ∅ j w). Qed.

(** Without the reserved unit the lookup of an absent unit raises. *)
Lemma unit2id_without_UNK (V : Vocab.t) (u : string) :
  Vocab._unit2id V !! u = None → Vocab._unit2id V !! UNK = None →
  Vocab.unit2id V u = Raise KeyError.
Proof. intros Hu Hunk. unfold Vocab.unit2id, Vocab.normalize_unit. by rewrite Hu, Hunk. Qed.

(** C1: on a built vocabulary [unit2id] raises for no unit, and for a
    unit that is absent it returns the id of the reserved UNK unit. *)
Theorem unit2id_absent_is_UNK (V : Vocab.t) :
  Vocab.built V →
  (∀ u, is_Ok (Vocab.unit2id V u)) ∧
  (∀ u, u ∉ Vocab._id2unit V →
        ∃ unk, Vocab._id2unit V !! unk = Some UNK ∧ Vocab.unit2id V u = Ok unk).
Proof.
  intros [Hnd Hrev _ Hunk].
  apply list_elem_of_lookup in Hunk as [unk Hunk].
  assert (Hid : Vocab._unit2id V !! UNK = Some unk).
  { rewrite Hrev. by apply enumerate_dict_present. }
  split.
  - intros u. unfold Vocab.unit2id, Vocab.normalize_unit, is_Ok.
    destruct (Vocab._unit2id V !! u) as [i|]; [by exists i|].
    rewrite Hid. by exists unk.
  - intros u Hu. exists unk. split; [exact Hunk|].
    unfold Vocab.unit2id, Vocab.normalize_unit.
    rewrite Hrev, enumerate_dict_absent by exact Hu.
    rewrite <- Hrev, Hid. reflexivity.
Qed.

Lemma vocab_abc_built : Vocab.built vocab_abc.
Proof.
  split; simpl.
  - refine (bool_decide_unpack _ _); vm_compute; exact I.
  - reflexivity.
  - reflexivity.
  - refine (bool_decide_unpack _ _); vm_compute; exact I.
Defined.

Lemma unit2id_absent_is_UNK_witness :
  (∀ u, is_Ok (Vocab.unit2id vocab_abc u)) ∧
  (∀ u, u ∉ Vocab._id2unit vocab_abc →
        ∃ unk, Vocab._id2unit vocab_abc !! unk = Some UNK
               ∧ Vocab.unit2id vocab_abc u = Ok unk).
Proof. apply (unit2id_absent_is_UNK vocab_abc). exact vocab_abc_built. Defined.

Example unit2id_no_unk_raises : Vocab.unit2id vocab_no_unk "z" = Raise KeyError.
Proof. vm_compute. reflexivity. Qed.

Lemma py_index_spec {A} (l : list A) (i : Z) :
  let n := Z.of_nat (length l) in
  (py_index l i = Raise IndexError ↔ ¬ (- n ≤ i < n)%Z) ∧
  ((0 ≤ i < n)%Z → ∃ x, py_index l i = Ok x ∧ l !! Z.to_nat i = Some x) ∧
  ((- n ≤ i < 0)%Z → ∃ x, py_index l i = Ok x ∧ l !! Z.to_nat (n + i) = Some x).
Proof.
  intros n. unfold py_index. fold n.
  destruct (Z.leb_spec 0 i) as [Hi|Hi].
  - destruct (l !! Z.to_nat i) as [x|] eqn:Hx; simpl.
    + apply lookup_lt_Some in Hx. split_and!.
      * split; [discriminate|lia].
      * intros _. by exists x.
      * lia.
    + apply lookup_ge_None in Hx. split_and!.
      * split; [lia|reflexivity].
      * lia.
      * lia.
  - destruct (Z.leb_spec (- n) i) as [Hn|Hn].
    + destruct (l !! Z.to_nat (n + i)) as [x|] eqn:Hx; simpl.
      * apply lookup_lt_Some in Hx. split_and!.
        -- split; [discriminate|lia].
        -- lia.
        -- intros _. by exists x.
      * apply lookup_ge_None in Hx. lia.
    + split_and!; [split; [lia|reflexivity]|lia|lia].
Qed.

(** C7, as amended: [id2unit] raises [IndexError] exactly when the id
    is outside [[-size, size)]; inside [[0, size)] it returns the unit at
    that id, and an id in [[-size, 0)] counts from the end. *)
Theorem id2unit_range (V : Vocab.t) (i : Z) :
  let n := Z.of_nat (Vocab.size V) in
  (Vocab.id2unit V i = Raise IndexError ↔ ¬ (- n ≤ i < n)%Z) ∧
  ((0 ≤ i < n)%Z →
     ∃ u, Vocab.id2unit V i = Ok u ∧ Vocab._id2unit V !! Z.to_nat i = Some u) ∧
  ((- n ≤ i < 0)%Z →
     ∃ u, Vocab.id2unit V i = Ok u ∧ Vocab._id2unit V !! Z.to_nat (n + i) = Some u).
Proof. apply py_index_spec. Qed.

Lemma id2unit_range_witness :
  (Vocab.id2unit vocab_abc 5 = Raise IndexError ↔
     ¬ (- Z.of_nat (Vocab.size vocab_abc) ≤ 5 < Z.of_nat (Vocab.size vocab_abc))%Z) ∧
  (∃ u, Vocab.id2unit vocab_abc 2 = Ok u ∧ Vocab._id2unit vocab_abc !! 2 = Some u) ∧
  (∃ u, Vocab.id2unit vocab_abc (-5) = Ok u ∧ Vocab._id2unit vocab_abc !! 0 = Some u).
Proof.
  split_and!.
  - apply (id2unit_range vocab_abc 5).
  - apply (proj1 (proj2 (id2unit_range vocab_abc 2))).
    vm_compute. split; [discriminate|reflexivity].
  - apply (proj2 (proj2 (id2unit_range vocab_abc (-5)))).
    vm_compute. split; [discriminate|reflexivity].
Defined.

(** C7, as stated, fails: the id -1 is outside [[0, size)] and
    [id2unit] returns the last unit. *)
Lemma id2unit_negative_id :
  ¬ (0 ≤ -1 < Z.of_nat (Vocab.size vocab_abc))%Z ∧
  Vocab.id2unit vocab_abc (-1) = Ok "c".
Proof. split; [lia|reflexivity]. Qed.

(** ** Insertion-ordered dictionaries *)

Section odict_facts.
Context {K : Type} `{EqDecision K} {V : Type}.
Implicit Types (d : list (K * V)) (k : K) (v : V).

Lemma od_get_set_eq d k v : od_get (od_set d k v) k = Some v.
Proof.
  induction d as [|[k' v'] d IH]; csimpl.
  - by rewrite decide_True.
  - destruct (decide (k = k')) as [->|Hne]; csimpl.
    + by rewrite decide_True.
    + by rewrite decide_False.
Qed.

Lemma od_get_set_ne d k k' v : k ≠ k' → od_get (od_set d k v) k' = od_get d k'.
Proof.
  intros Hne. induction d as [|[k0 v0] d IH]; csimpl.
  - by rewrite decide_False.
  - destruct (decide (k = k0)) as [->|Hne0]; csimpl.
    + by rewrite !decide_False.
    + destruct (decide (k' = k0)); [reflexivity|exact IH].
Qed.

Lemma od_get_None d k : od_get d k = None ↔ k ∉ d.*1.
Proof.
  induction d as [|[k' v'] d IH]; csimpl.
  - split; [intros _; apply not_elem_of_nil|reflexivity].
  - rewrite not_elem_of_cons. destruct (decide (k = k')) as [->|Hne].
    + split; [discriminate|intros [? _]; congruence].
    + rewrite IH. tauto.
Qed.

Lemma od_get_is_Some d k : is_Some (od_get d k) ↔ k ∈ d.*1.
Proof.
  destruct (od_get d k) as [v|] eqn:Hk.
  - split; [intros _|by eauto].
    destruct (decide (k ∈ d.*1)) as [|Hn]; [assumption|].
    apply od_get_None in Hn. congruence.
  - apply od_get_None in Hk. split; [by intros [? [=]]|tauto].
Qed.

Lemma od_set_keys_present d k v : k ∈ d.*1 → (od_set d k v).*1 = d.*1.
Proof.
  induction d as [|[k' v'] d IH]; csimpl.
  - by intros ?%elem_of_nil.
  - destruct (decide (k = k')) as [->|Hne]; csimpl; [reflexivity|].
    intros [?|Hin]%elem_of_cons; [congruence|]. by rewrite IH.
Qed.

Lemma od_set_keys_absent d k v : k ∉ d.*1 → (od_set d k v).*1 = d.*1 ++ [k].
Proof.
  induction d as [|[k' v'] d IH]; csimpl; [reflexivity|].
  intros [Hne Hin]%not_elem_of_cons.
  rewrite decide_False by exact Hne. csimpl. by rewrite IH.
Qed.

End odict_facts.

(** ** [ComposedVocab]: building *)

Section composed_build.
Import ComposedVocab.
Implicit Types (d : list (key * list string)) (k : key).

Lemma add_key_keys d k :
  (add_key d k).*1 = if decide (k ∈ d.*1) then d.*1 else d.*1 ++ [k].
Proof.
  unfold add_key, od_mem. destruct (decide (k ∈ d.*1)) as [Hin|Hin].
  - rewrite bool_decide_eq_true_2; [reflexivity|by apply od_get_is_Some].
  - rewrite bool_decide_eq_false_2; [by apply od_set_keys_absent|].
    by rewrite od_get_is_Some.
Qed.

Lemma add_key_mem d k : k ∈ (add_key d k).*1.
Proof. rewrite add_key_keys. case_decide; [assumption|]. apply elem_of_app. right. by left. Qed.

Lemma add_value_keys d k v :
  k ∈ d.*1 → ∃ d', add_value d k v = Ok d' ∧ d'.*1 = d.*1.
Proof.
  intros Hin. unfold add_value.
  destruct (proj2 (od_get_is_Some d k) Hin) as [vals ->]. simpl.
  case_decide; eexists; (split; [reflexivity|]); [reflexivity|].
  by apply od_set_keys_present.
Qed.

(** The keys after reading one unit in positional mode: the positions
    known before, extended to the length of the unit. *)
Lemma positional_parts_keys (n s m : nat) (l : list string) d :
  s ≤ m → d.*1 = Idx <$> seq 0 m →
  ∃ d',
    foldM (λ id2unit '(i, p),
             let id2unit := add_key id2unit (Idx i) in
             if decide (i < n) then add_value id2unit (Idx i) p
             else Ok id2unit)
          d (imap (λ j p, (s + j, p)) l) = Ok d'
    ∧ d'.*1 = Idx <$> seq 0 (m `max` (s + length l)).
Proof.
  revert s m d. induction l as [|p l IH]; intros s m d Hs Hd; simpl.
  - exists d. split; [reflexivity|]. rewrite Hd. do 2 f_equal. lia.
  - replace (s + 0) with s by lia.
    assert (Hk : (add_key d (Idx s)).*1 = Idx <$> seq 0 (m `max` S s)).
    { rewrite add_key_keys, Hd. case_decide as Hin.
      - apply list_elem_of_fmap in Hin as (j & [= ->] & Hj%elem_of_seq).
        do 2 f_equal. lia.
      - destruct (decide (s = m)) as [->|Hne].
        + replace (m `max` S m) with (S m) by lia.
          rewrite seq_S, fmap_app. reflexivity.
        + exfalso. apply Hin. apply list_elem_of_fmap. exists s.
          split; [reflexivity|]. apply elem_of_seq. lia. }
    assert (Hstep : ∃ d1,
      (if decide (s < n) then add_value (add_key d (Idx s)) (Idx s) p
       else Ok (add_key d (Idx s))) = Ok d1 ∧ d1.*1 = Idx <$> seq 0 (m `max` S s)).
    { case_decide.
      - destruct (add_value_keys (add_key d (Idx s)) (Idx s) p (add_key_mem _ _))
          as (d1 & -> & Hd1). exists d1. split; [reflexivity|congruence].
      - eauto. }
    destruct Hstep as (d1 & -> & Hd1). simpl.
    destruct (IH (S s) (m `max` S s) d1 ltac:(lia) Hd1) as (d' & Hfold & Hd').
    exists d'. split.
    + rewrite <- Hfold. f_equal. apply imap_ext. intros j x _. simpl. f_equal. lia.
    + rewrite Hd'. do 2 f_equal. lia.
Qed.

Lemma build_positional_parts_keys (m : nat) (parts : list string) d :
  d.*1 = Idx <$> seq 0 m →
  ∃ d', build_positional_parts d parts = Ok d'
        ∧ d'.*1 = Idx <$> seq 0 (m `max` length parts).
Proof.
  intros Hd. unfold build_positional_parts.
  destruct (positional_parts_keys (length parts) 0 m parts d ltac:(lia) Hd)
    as (d' & Hfold & Hd').
  exists d'. split; [|exact Hd'].
  rewrite <- Hfold. f_equal.
Qed.

Lemma build_positional_keys (m : nat) (allparts : list (list string)) d :
  d.*1 = Idx <$> seq 0 m →
  ∃ d', foldM build_positional_parts d allparts = Ok d'
        ∧ d'.*1 = Idx <$> seq 0 (m `max` max_list (length <$> allparts)).
Proof.
  revert m d. induction allparts as [|parts allparts IH]; intros m d Hd; simpl.
  - exists d. split; [reflexivity|]. rewrite Hd. do 2 f_equal. lia.
  - destruct (build_positional_parts_keys m parts d Hd) as (d1 & -> & Hd1). simpl.
    destruct (IH _ d1 Hd1) as (d' & -> & Hd'). exists d'.
    split; [reflexivity|]. rewrite Hd'. do 2 f_equal. symmetry. apply Nat.max_assoc.
Qed.

End composed_build.

(** ** [ComposedVocab]: encoding *)

Section composed_encode.
Import ComposedVocab.

Lemma unit2id_keys_of_build (self V : t) :
  build_vocab self = Ok V →
  sep V = sep self ∧ keyed V = keyed self ∧ known_keys V = (_id2unit V).*1.
Proof.
  unfold build_vocab. destruct (allunits self) as [units|e]; csimpl; [|discriminate].
  match goal with |- context [mbind _ ?r] => destruct r as [d|e] end;
    csimpl; [|discriminate].
  intros [= <-]. unfold known_keys. simpl. split_and!; [reflexivity..|].
  rewrite <- list_fmap_compose. apply list_fmap_ext. by intros i [k units'] _.
Qed.

Lemma unit2parts_positional (self : t) (unit : string) :
  keyed self = false → unit2parts self unit = Ok (PList (split_unit self unit)).
Proof. intros Hk. unfold unit2parts. by rewrite Hk. Qed.

(** Positional encoding over a table whose keys are the positions
    [0 .. n-1]. *)
Lemma unit2id_positional (V : t) (unit : string) (n : nat) :
  keyed V = false → known_keys V = Idx <$> seq 0 n →
  unit2id V unit =
    Ok (EPos ((λ i, match split_unit V unit !! i with
                    | Some p => sub_id V (Idx i) p
                    | None => 0
                    end) <$> seq 0 n)).
Proof.
  intros Hk Hkeys. unfold unit2id.
  rewrite unit2parts_positional by exact Hk. csimpl. rewrite Hk.
  assert (Hlen : length (_unit2id V) = n).
  { rewrite <- (length_fmap fst). fold (known_keys V).
    by rewrite Hkeys, length_fmap, length_seq. }
  rewrite Hlen.
  erewrite mapM_Ok; [reflexivity|].
  intros i Hi%elem_of_seq. case_decide as Hlt.
  - destruct (lookup_lt_is_Some_2 _ _ Hlt) as [p Hp]. rewrite Hp.
    assert (Hin : Idx i ∈ (_unit2id V).*1).
    { fold (known_keys V). rewrite Hkeys. apply list_elem_of_fmap.
      exists i. split; [reflexivity|]. apply elem_of_seq. lia. }
    apply od_get_is_Some in Hin as [tbl Htbl].
    unfold sub_id. rewrite Htbl. reflexivity.
  - rewrite lookup_ge_None_2 by lia. reflexivity.
Qed.

Lemma build_positional_fields (self V : t) :
  keyed self = false → build_vocab self = Ok V →
  ∃ units,
    allunits self = Ok units ∧ units ≠ [] ∧
    (_id2unit V).*1 =
      Idx <$> seq 0 (max_list ((λ u, length (split_unit self u)) <$> units)).
Proof.
  intros Hk. unfold build_vocab.
  destruct (allunits self) as [units|e]; csimpl; [|discriminate].
  rewrite Hk.
  rewrite (mapM_Ok _ (split_unit self)); last first.
  { intros u _. by rewrite unit2parts_positional. }
  csimpl. destruct units as [|u units]; [discriminate|]. csimpl.
  destruct (build_positional_keys 0 (split_unit self <$> (u :: units)) [] eq_refl)
    as (d & Hd & Hkeys).
  csimpl in Hd. rewrite Hd. csimpl. intros [= <-]. simpl.
  exists (u :: units). split_and!; [reflexivity|discriminate|].
  rewrite Hkeys. rewrite <- list_fmap_compose. reflexivity.
Qed.

End composed_encode.

Section composed_properties.
Import ComposedVocab.

(** C3: in positional mode the encoding of any unit has one sub-id per
    field fixed at build time (as many as the longest unit of the corpus
    has parts); a field the unit has a part for gets the sub-id of that
    part, 0 when the part was never seen there, and every field beyond the
    unit's own parts gets 0.  Built over "ab" and "abc" with the empty
    separator, "a" encodes to [[1; 0; 0]], 1 being the sub-id of "a". *)
Theorem positional_encode_fixed_length :
  (∀ (self V : t) (unit : string),
     keyed self = false → build_vocab self = Ok V →
     ∃ ids units,
       unit2id V unit = Ok (EPos ids) ∧
       length ids = length (_id2unit V) ∧
       length (_unit2id V) = length (_id2unit V) ∧
       allunits self = Ok units ∧
       length ids = max_list ((λ u, length (split_unit self u)) <$> units) ∧
       (∀ i p, i < length ids → split_unit V unit !! i = Some p →
               ids !! i = Some (sub_id V (Idx i) p)) ∧
       (∀ i, length (split_unit V unit) ≤ i < length ids → ids !! i = Some 0)) ∧
  (∃ V, build_vocab (corpus "" false ["ab"; "abc"]) = Ok V ∧
        sub_id V (Idx 0) "a" = 1 ∧
        unit2id V "a" = Ok (EPos [1; 0; 0])).
Proof.
  split.
  - intros self V unit Hk Hbuild.
    destruct (unit2id_keys_of_build self V Hbuild) as (Hsep & Hkeyed & Hkeys).
    destruct (build_positional_fields self V Hk Hbuild) as (units & Hunits & _ & Hfields).
    set (n := max_list ((λ u, length (split_unit self u)) <$> units)) in *.
    assert (Hn : length (_id2unit V) = n).
    { rewrite <- (length_fmap fst), Hfields, length_fmap, length_seq. reflexivity. }
    eexists _, units. split.
    { apply (unit2id_positional V unit n); [congruence|]. by rewrite Hkeys. }
    rewrite length_fmap, length_seq. split_and!.
    + by rewrite Hn.
    + rewrite <- (length_fmap fst (_unit2id V)). fold (known_keys V).
      by rewrite Hkeys, length_fmap.
    + exact Hunits.
    + reflexivity.
    + intros i p Hi Hp. rewrite list_lookup_fmap, lookup_seq_lt by exact Hi.
      simpl. by rewrite Hp.
    + intros i [Hge Hlt]. rewrite list_lookup_fmap, lookup_seq_lt by exact Hlt.
      simpl. by rewrite lookup_ge_None_2.
  - eexists. split; [vm_compute; reflexivity|]. split; vm_compute; reflexivity.
Qed.

Lemma positional_encode_fixed_length_witness :
  ∃ V, build_vocab (corpus "" false ["ab"; "abc"]) = Ok V ∧
  ∃ ids units,
    unit2id V "a" = Ok (EPos ids) ∧
    length ids = length (_id2unit V) ∧
    length (_unit2id V) = length (_id2unit V) ∧
    allunits (corpus "" false ["ab"; "abc"]) = Ok units ∧
    length ids = max_list ((λ u, length (split_unit (corpus "" false ["ab"; "abc"]) u)) <$> units) ∧
    (∀ i p, i < length ids → split_unit V "a" !! i = Some p →
            ids !! i = Some (sub_id V (Idx i) p)) ∧
    (∀ i, length (split_unit V "a") ≤ i < length ids → ids !! i = Some 0).
Proof.
  destruct (build_vocab (corpus "" false ["ab"; "abc"])) as [V|e] eqn:Hb;
    [|vm_compute in Hb; discriminate].
  exists V. split; [reflexivity|].
  apply (proj1 positional_encode_fixed_length (corpus "" false ["ab"; "abc"]) V "a");
    [reflexivity|exact Hb].
Defined.

(** The positional path falls back to 0 for a part never seen at its
    position. *)
Example positional_unknown_part :
  (V ← build_vocab (corpus "" false ["ab"; "abc"]); unit2id V "xb")
  = Ok (EPos [0; 1; 0]).
Proof. vm_compute. reflexivity. Qed.

Lemma mapM_Raise {A B} (f : A → result B) (l : list A) (e : exn) (x : A) :
  (∀ y e', y ∈ l → f y = Raise e' → e' = e) →
  x ∈ l → f x = Raise e → mapM f l = Raise e.
Proof.
  induction l as [|a l IH]; intros Hall Hin Hx; [by apply elem_of_nil in Hin|].
  simpl. destruct (f a) as [b|e'] eqn:Hfa; csimpl.
  - apply elem_of_cons in Hin as [->|Hin]; [congruence|].
    rewrite IH; [reflexivity| |exact Hin|exact Hx].
    intros y e' Hy. apply Hall. by right.
  - f_equal. apply (Hall a); [by left|exact Hfa].
Qed.

(** The keyed path has no such fallback: a value absent from the table
    of a known key raises. *)
Lemma keyed_unknown_value_KeyError (V : t) (unit : string)
    (d : list (key * list string)) k vs tbl x :
  keyed V = true → unit2parts V unit = Ok (PDict d) →
  od_get d k = Some vs → od_get (_unit2id V) k = Some tbl →
  x ∈ vs → tbl !! x = None →
  unit2id V unit = Raise KeyError.
Proof.
  intros Hk Hparts Hvs Htbl Hx Hnone. unfold unit2id. rewrite Hparts. csimpl.
  rewrite Hk.
  rewrite (mapM_Raise _ _ KeyError k); [reflexivity| | |].
  - intros k' e' _. destruct (od_get d k') as [vs'|]; [|discriminate].
    destruct (od_get (_unit2id V) k') as [tbl'|]; csimpl; [|by intros [= <-]].
    destruct (mapM _ vs') as [r|e''] eqn:Hm; [discriminate|]. intros [= <-].
    clear -Hm. induction vs' as [|v vs' IH]; [discriminate|]. simpl in Hm.
    destruct (tbl' !! v); csimpl in Hm; [|by injection Hm].
    destruct (mapM _ vs'); csimpl in Hm; [discriminate|]. injection Hm as <-.
    by apply IH.
  - apply od_get_is_Some. eauto.
  - rewrite Hvs, Htbl. csimpl.
    apply (mapM_Raise _ _ KeyError x); [|exact Hx|by rewrite Hnone].
    intros y e' _. destruct (tbl !! y); [discriminate|by intros [= <-]].
Qed.

(** C2: the code at the failing input.  Built in keyed mode over
    "Case=Nom|Number=Sing" and "_", the vocabulary knows the field
    "Case" with the one value "Nom"; the unit "Case=Gen" carries there a
    value never seen, and encoding it raises [KeyError] where the
    specification has sub-id 0. *)
Theorem keyed_unknown_value_raises :
  ∃ V, build_vocab (corpus "|" true ["Case=Nom|Number=Sing"; "_"]) = Ok V ∧
       _id2unit V = [(Name "Case", ["<PAD>"; "Nom"]);
                     (Name "Number", ["<PAD>"; "Sing"])] ∧
       unit2parts V "Case=Gen" = Ok (PDict [(Name "Case", ["Gen"])]) ∧
       unit2id V "Case=Gen" = Raise KeyError.
Proof.
  eexists. split; [vm_compute; reflexivity|].
  split_and!; vm_compute; reflexivity.
Qed.

Lemma split_placeholder (sep : string) :
  sep ≠ "_" → sep ≠ EmptyString → split sep "_" = ["_"].
Proof.
  intros Hne Hne'. destruct sep as [|a [|b sep]]; [done| |].
  - unfold split. simpl. case_bool_decide as Ha; [by subst|reflexivity].
  - unfold split. simpl. case_bool_decide; reflexivity.
Qed.

Lemma split_unit_placeholder (V : t) : sep V ≠ "_" → split_unit V "_" = ["_"].
Proof.
  intros Hne. unfold split_unit. case_decide; [reflexivity|].
  by apply split_placeholder.
Qed.

(** C4, as amended: in keyed mode the encoding of a unit that reads as
    an attribute list, and whose values at the known field keys all have
    a sub-id, has one entry per known field key, in the order of the
    table: the sub-ids of the values the unit carries at that key, or
    [[0]] when the unit has no such key.  The placeholder "_" reads as the
    empty attribute set and encodes to [[0]] for every known field (the
    separator not being "_" itself). *)
Theorem keyed_encode_entries (V : t) :
  keyed V = true →
  (∀ unit d,
     unit2parts V unit = Ok (PDict d) →
     (∀ k vs x, k ∈ known_keys V → od_get d k = Some vs → x ∈ vs →
                is_Some (tbl ← od_get (_unit2id V) k; tbl !! x)) →
     unit2id V unit =
       Ok (EKeyed ((λ k, match od_get d k with
                         | Some vs => sub_id V k <$> vs
                         | None => [0]
                         end) <$> known_keys V))) ∧
  (sep V ≠ "_" →
     unit2parts V "_" = Ok (PDict []) ∧
     unit2id V "_" = Ok (EKeyed ((λ _, [0]) <$> known_keys V))).
Proof.
  intros Hk.
  assert (Hgen : ∀ unit d,
     unit2parts V unit = Ok (PDict d) →
     (∀ k vs x, k ∈ known_keys V → od_get d k = Some vs → x ∈ vs →
                is_Some (tbl ← od_get (_unit2id V) k; tbl !! x)) →
     unit2id V unit =
       Ok (EKeyed ((λ k, match od_get d k with
                         | Some vs => sub_id V k <$> vs
                         | None => [0]
                         end) <$> known_keys V))).
  { intros unit d Hparts Hknown. unfold unit2id. rewrite Hparts. csimpl.
    rewrite Hk. fold (known_keys V).
    rewrite (mapM_Ok _ (λ k, match od_get d k with
                             | Some vs => sub_id V k <$> vs
                             | None => [0]
                             end)); [reflexivity|].
    intros k Hin. destruct (od_get d k) as [vs|] eqn:Hvs; [|reflexivity].
    destruct (proj2 (od_get_is_Some (_unit2id V) k) Hin) as [tbl Htbl].
    rewrite Htbl. csimpl. apply mapM_Ok. intros x Hx.
    destruct (Hknown k vs x Hin Hvs Hx) as [i Hi].
    unfold sub_id. rewrite Htbl in Hi |- *. csimpl in *. by rewrite Hi. }
  split; [exact Hgen|].
  intros Hsep.
  assert (Hparts : unit2parts V "_" = Ok (PDict [])).
  { unfold unit2parts. rewrite Hk, split_unit_placeholder by exact Hsep.
    by rewrite decide_True. }
  split; [exact Hparts|].
  rewrite (Hgen "_" [] Hparts); [reflexivity|].
  intros k vs x _ [=].
Qed.

Lemma keyed_encode_entries_witness :
  ∃ V, build_vocab (corpus "|" true ["Case=Nom|Number=Sing"; "_"]) = Ok V ∧
       unit2id V "Number=Sing|Case=Nom" = Ok (EKeyed [[1]; [1]]) ∧
       unit2id V "Case=Nom" = Ok (EKeyed [[1]; [0]]) ∧
       unit2id V "_" = Ok (EKeyed [[0]; [0]]).
Proof.
  destruct (build_vocab (corpus "|" true ["Case=Nom|Number=Sing"; "_"]))
    as [V|e] eqn:Hb; [|vm_compute in Hb; discriminate].
  exists V. split; [reflexivity|].
  assert (HV : V = match build_vocab (corpus "|" true ["Case=Nom|Number=Sing"; "_"])
                   with Ok V => V | Raise _ => V end) by (by rewrite Hb).
  destruct (keyed_encode_entries V) as [Hgen Hplace].
  { rewrite HV. vm_compute. reflexivity. }
  split_and!.
  - rewrite (Hgen "Number=Sing|Case=Nom"
               [(Name "Number", ["Sing"]); (Name "Case", ["Nom"])]).
    + rewrite HV. vm_compute. reflexivity.
    + rewrite HV. vm_compute. reflexivity.
    + rewrite HV. intros k vs x Hk Hvs Hx. vm_compute in Hk.
      apply elem_of_cons in Hk as [->|Hk].
      * vm_compute in Hvs. injection Hvs as <-.
        apply list_elem_of_singleton in Hx as ->. vm_compute. eauto.
      * apply list_elem_of_singleton in Hk as ->.
        vm_compute in Hvs. injection Hvs as <-.
        apply list_elem_of_singleton in Hx as ->. vm_compute. eauto.
  - rewrite (Hgen "Case=Nom" [(Name "Case", ["Nom"])]).
    + rewrite HV. vm_compute. reflexivity.
    + rewrite HV. vm_compute. reflexivity.
    + rewrite HV. intros k vs x Hk Hvs Hx. vm_compute in Hk.
      apply elem_of_cons in Hk as [->|Hk].
      * vm_compute in Hvs. injection Hvs as <-.
        apply list_elem_of_singleton in Hx as ->. vm_compute. eauto.
      * apply list_elem_of_singleton in Hk as ->.
        vm_compute in Hvs. discriminate.
  - destruct Hplace as [_ ->].
    + rewrite HV. vm_compute. discriminate.
    + rewrite HV. vm_compute. reflexivity.
Defined.

(** C4, as stated, fails: the unit "Case" is no attribute list (its one
    part has no "="), so [unit2parts] raises and there is no encoding;
    and the unit "Case=Gen" carries a value without a sub-id, for which
    the table lookup raises. *)
Lemma keyed_encode_not_every_unit :
  (V ← build_vocab (corpus "|" true ["Case=Nom|Number=Sing"; "_"]);
   unit2id V "Case") = Raise ValueError ∧
  (V ← build_vocab (corpus "|" true ["Case=Nom|Number=Sing"; "_"]);
   unit2id V "Case=Gen") = Raise KeyError.
Proof. split; vm_compute; reflexivity. Qed.

End composed_properties.

(** ** Persistence *)

Section roundtrip.
Context {I U : Type} `{PickleLaws I, PickleLaws U}.

Lemma vocab_load_save (filename : string) (id2unit : I) (unit2id : U) (fs : files) :
  vocab_load filename (vocab_save filename id2unit unit2id fs) = Ok (id2unit, unit2id).
Proof.
  unfold vocab_load, vocab_save. rewrite lookup_insert_eq. csimpl.
  rewrite pickle_load_dump. csimpl.
  rewrite <- (app_nil_r (pickle_dump unit2id)), pickle_load_dump. reflexivity.
Qed.

Lemma vocab_save_again (filename : string) (id2unit : I) (unit2id : U) (fs : files) :
  vocab_save filename id2unit unit2id (vocab_save filename id2unit unit2id fs)
  = vocab_save filename id2unit unit2id fs.
Proof. unfold vocab_save. apply insert_insert_eq. Qed.

End roundtrip.

(** C5: a vocabulary saved to its file and loaded from it has the same
    [_id2unit] and [_unit2id] (hence the same size), and saving the
    loaded vocabulary again writes the same bytes: the file, and with it
    the whole file system, is as the first save left it. *)
Theorem save_load_roundtrip
    `{PickleLaws (list string), PickleLaws (gmap string nat)}
    (V W : Vocab.t) (fs : files) :
  Vocab.filename W = Vocab.filename V →
  ∃ V',
    Vocab.load W (Vocab.save V fs) = Ok V' ∧
    Vocab._id2unit V' = Vocab._id2unit V ∧
    Vocab._unit2id V' = Vocab._unit2id V ∧
    Vocab.size V' = Vocab.size V ∧
    Vocab.save V' (Vocab.save V fs) !! Vocab.filename V
      = Vocab.save V fs !! Vocab.filename V ∧
    Vocab.save V' (Vocab.save V fs) = Vocab.save V fs.
Proof.
  intros Hname.
  exists (Vocab.mk (Vocab.filename W) (Vocab._id2unit V) (Vocab._unit2id V)).
  unfold Vocab.load, Vocab.save, Vocab.size, Vocab.len. simpl.
  rewrite Hname, vocab_load_save, vocab_save_again. done.
Qed.

(** The same for a composed vocabulary, which inherits [save] and
    [load]. *)
Lemma composed_save_load_roundtrip
    `{PickleLaws (list (ComposedVocab.key * list string)),
      PickleLaws (list (ComposedVocab.key * gmap string nat))}
    (V : ComposedVocab.t) (fs : files) :
  ComposedVocab.load V (ComposedVocab.save V fs) = Ok V ∧
  ComposedVocab.save V (ComposedVocab.save V fs) = ComposedVocab.save V fs.
Proof.
  unfold ComposedVocab.load, ComposedVocab.save.
  rewrite vocab_load_save, vocab_save_again. split; [|reflexivity].
  by destruct V.
Qed.

Section codec_laws.
Import Codec.

Lemma load_dump_nat (n : nat) rest : load_nat (dump_nat n ++ rest) = Ok (n, rest).
Proof. induction n as [|n IH]; simpl; [reflexivity|]. by rewrite IH. Qed.

Lemma load_dump_string (s : string) rest :
  load_string (dump_string s ++ rest) = Ok (s, rest).
Proof.
  induction s as [|c s IH]; simpl; [reflexivity|].
  rewrite IH. csimpl. by rewrite Ascii.ascii_of_byte_of_ascii.
Qed.

#[local] Instance pickle_nat_laws : @PickleLaws nat pickle_nat.
Proof. intros n rest. apply load_dump_nat. Qed.

#[local] Instance pickle_string_laws : @PickleLaws string pickle_string.
Proof. intros s rest. apply load_dump_string. Qed.

Lemma pickle_pair_laws {A B} (PA : Pickle A) (PB : Pickle B) :
  @PickleLaws A PA → @PickleLaws B PB → @PickleLaws (A * B) (pickle_pair PA PB).
Proof.
  intros HA HB [a b] rest. simpl. unfold dump_pair, load_pair. simpl.
  rewrite <- app_assoc, (HA a). csimpl. rewrite (HB b). reflexivity.
Qed.

Lemma load_dump_items {A} (PA : Pickle A) (l : list A) rest :
  @PickleLaws A PA → load_items PA (length l) (dump_items PA l ++ rest) = Ok (l, rest).
Proof.
  intros HA. induction l as [|a l IH]; simpl; [reflexivity|].
  rewrite <- app_assoc, (HA a). csimpl. rewrite IH. reflexivity.
Qed.

Lemma pickle_list_laws {A} (PA : Pickle A) :
  @PickleLaws A PA → @PickleLaws (list A) (pickle_list PA).
Proof.
  intros HA l rest. simpl. unfold dump_list, load_list.
  rewrite <- app_assoc, load_dump_nat. csimpl. by apply load_dump_items.
Qed.

Lemma pickle_id2unit_laws : @PickleLaws (list string) pickle_id2unit.
Proof. apply pickle_list_laws, pickle_string_laws. Qed.

Lemma pickle_unit2id_laws : @PickleLaws (gmap string nat) pickle_unit2id.
Proof.
  intros m rest.
  pose proof (pickle_list_laws _
                (pickle_pair_laws _ _ pickle_string_laws pickle_nat_laws)
                (map_to_list m) rest) as Hl.
  change (load_list (pickle_pair pickle_string pickle_nat)
            (dump_list (pickle_pair pickle_string pickle_nat) (map_to_list m) ++ rest)
          = Ok (map_to_list m, rest)) in Hl.
  change ((load_list (pickle_pair pickle_string pickle_nat)
             (dump_list (pickle_pair pickle_string pickle_nat) (map_to_list m) ++ rest)
           ≫= λ '(l, rest), Ok (list_to_map l, rest)) = Ok (m, rest)).
  rewrite Hl. csimpl. by rewrite list_to_map_to_list.
Qed.

End codec_laws.

Lemma save_load_roundtrip_witness :
  ∃ V',
    @Vocab.load Codec.pickle_id2unit Codec.pickle_unit2id vocab_abc
      (@Vocab.save Codec.pickle_id2unit Codec.pickle_unit2id vocab_abc ∅) = Ok V' ∧
    Vocab._id2unit V' = Vocab._id2unit vocab_abc ∧
    Vocab._unit2id V' = Vocab._unit2id vocab_abc ∧
    Vocab.size V' = Vocab.size vocab_abc ∧
    @Vocab.save Codec.pickle_id2unit Codec.pickle_unit2id V'
      (@Vocab.save Codec.pickle_id2unit Codec.pickle_unit2id vocab_abc ∅)
      !! Vocab.filename vocab_abc
    = @Vocab.save Codec.pickle_id2unit Codec.pickle_unit2id vocab_abc ∅
      !! Vocab.filename vocab_abc ∧
    @Vocab.save Codec.pickle_id2unit Codec.pickle_unit2id V'
      (@Vocab.save Codec.pickle_id2unit Codec.pickle_unit2id vocab_abc ∅)
    = @Vocab.save Codec.pickle_id2unit Codec.pickle_unit2id vocab_abc ∅.
Proof.
  apply (@save_load_roundtrip Codec.pickle_id2unit pickle_id2unit_laws
           Codec.pickle_unit2id pickle_unit2id_laws vocab_abc vocab_abc ∅).
  reflexivity.
Defined.

(** ** Sorting a chunk *)

Section sorting.
Context {A : Type}.
Implicit Types (x y : nat * (nat * A)) (l : list (nat * (nat * A))) (a : A).

Lemma insert_desc_perm x l : insert_desc x l ≡ₚ x :: l.
Proof.
  induction l as [|y l IH]; simpl; [reflexivity|].
  destruct (x.1 <? y.1); [|reflexivity].
  rewrite IH. apply Permutation_swap.
Qed.

Lemma sort_desc_perm l : sort_desc l ≡ₚ l.
Proof.
  induction l as [|x l IH]; simpl; [reflexivity|].
  rewrite insert_desc_perm. by rewrite IH.
Qed.

Lemma insert_desc_sorted x l :
  StronglySorted before l → Forall (λ z, x.2.1 < z.2.1) l →
  StronglySorted before (insert_desc x l).
Proof.
  induction l as [|y l IH]; intros Hs Hx; simpl.
  - repeat constructor.
  - apply StronglySorted_inv in Hs as [Hs Hy].
    apply Forall_cons in Hx as [Hxy Hx].
    destruct (Nat.ltb_spec x.1 y.1) as [Hlt|Hge].
    + constructor; [by apply IH|].
      rewrite insert_desc_perm. constructor; [by left|exact Hy].
    + constructor; [by constructor|].
      constructor; [unfold before; lia|].
      rewrite Forall_forall in Hy, Hx |- *. intros z Hz.
      specialize (Hy z Hz). specialize (Hx z Hz). unfold before in *. lia.
Qed.

Lemma sort_desc_sorted l :
  StronglySorted (λ x y, x.2.1 < y.2.1) l → StronglySorted before (sort_desc l).
Proof.
  induction l as [|x l IH]; intros Hs; simpl; [constructor|].
  apply StronglySorted_inv in Hs as [Hs Hx].
  apply insert_desc_sorted; [by apply IH|].
  by rewrite sort_desc_perm.
Qed.

Lemma StronglySorted_lookup (R : relation (nat * (nat * A))) l j1 j2 x y :
  StronglySorted R l → j1 < j2 → l !! j1 = Some x → l !! j2 = Some y → R x y.
Proof.
  intros Hs. revert j1 j2. induction Hs as [|a l Hs IH Ha]; intros j1 j2 Hlt H1 H2.
  - by destruct j1.
  - destruct j2 as [|j2]; [lia|]. destruct j1 as [|j1]; simpl in *.
    + injection H1 as <-. rewrite Forall_forall in Ha. apply Ha.
      by eapply list_elem_of_lookup_2.
    + apply (IH j1 j2); [lia|assumption..].
Qed.

Lemma tagged_from (len : A → nat) (batch : list A) (s : nat) :
  zip (len <$> batch) (zip (seq s (length batch)) batch)
  = imap (λ i a, (len a, (s + i, a))) batch.
Proof.
  revert s. induction batch as [|a batch IH]; intros s; csimpl; [reflexivity|].
  rewrite IH. f_equal; [do 2 f_equal; lia|].
  apply imap_ext. intros i y _. simpl. do 2 f_equal. lia.
Qed.

Lemma tagged_imap (len : A → nat) (batch : list A) :
  tagged len batch = imap (λ i a, (len a, (i, a))) batch.
Proof. unfold tagged. rewrite length_fmap. apply (tagged_from len batch 0). Qed.

Lemma tagged_ordered (len : A → nat) (batch : list A) (s : nat) :
  StronglySorted (λ x y, x.2.1 < y.2.1) (imap (λ i a, (len a, (s + i, a))) batch).
Proof.
  revert s. induction batch as [|a batch IH]; intros s; simpl; constructor.
  - erewrite imap_ext; [apply (IH (S s))|]. intros i y _. simpl. do 2 f_equal. lia.
  - apply Forall_forall. intros z Hz. apply list_elem_of_lookup in Hz as [i Hz].
    rewrite list_lookup_imap in Hz.
    destruct (batch !! i); simplify_eq/=. lia.
Qed.

Lemma tagged_rows (len : A → nat) (batch : list A) :
  Forall (λ t, batch !! t.2.1 = Some t.2.2 ∧ t.1 = len t.2.2) (tagged len batch).
Proof.
  rewrite tagged_imap. apply Forall_forall. intros t Ht.
  apply list_elem_of_lookup in Ht as [i Ht]. rewrite list_lookup_imap in Ht.
  destruct (batch !! i) as [a|] eqn:Hx; simplify_eq/=. done.
Qed.

Lemma tagged_indices (len : A → nat) (batch : list A) :
  (tagged len batch).*2.*1 = seq 0 (length batch).
Proof.
  unfold tagged. rewrite length_fmap, snd_zip, fst_zip; [reflexivity|..].
  - by rewrite length_seq.
  - by rewrite length_zip, length_seq, length_fmap, Nat.min_id.
Qed.

(** What [sort_all] returns for a chunk sorted by the length [len] of
    its rows. *)
Lemma sort_all_spec (len : A → nat) (batch sorted : list A) (oidx : list nat) :
  sort_all batch (len <$> batch) = (sorted, oidx) →
  oidx ≡ₚ seq 0 (length batch) ∧
  sorted ≡ₚ batch ∧
  length sorted = length batch ∧ length oidx = length batch ∧
  (∀ j i, oidx !! j = Some i → ∃ a, sorted !! j = Some a ∧ batch !! i = Some a) ∧
  (∀ j1 j2 i1 i2 a1 a2,
     j1 < j2 → oidx !! j1 = Some i1 → oidx !! j2 = Some i2 →
     batch !! i1 = Some a1 → batch !! i2 = Some a2 →
     len a2 ≤ len a1 ∧ (len a1 = len a2 → i1 < i2)).
Proof.
  unfold sort_all. fold (tagged len batch). intros [= <- <-].
  pose proof (sort_desc_perm (tagged len batch)) as Hperm.
  assert (Hrows : Forall (λ t, batch !! t.2.1 = Some t.2.2 ∧ t.1 = len t.2.2)
                         (sort_desc (tagged len batch))).
  { rewrite Hperm. apply tagged_rows. }
  assert (Hsorted : StronglySorted before (sort_desc (tagged len batch))).
  { apply sort_desc_sorted. rewrite tagged_imap. apply (tagged_ordered len batch 0). }
  assert (Hoidx : (sort_desc (tagged len batch)).*2.*1 ≡ₚ seq 0 (length batch)).
  { rewrite Hperm. by rewrite tagged_indices. }
  assert (Hlen : length (sort_desc (tagged len batch)) = length batch).
  { rewrite Hperm, tagged_imap. apply length_imap. }
  rewrite Forall_lookup in Hrows.
  split_and!.
  - exact Hoidx.
  - rewrite Hperm. unfold tagged.
    rewrite length_fmap, snd_zip, snd_zip; [reflexivity|..].
    + by rewrite length_seq.
    + by rewrite length_zip, length_seq, length_fmap, Nat.min_id.
  - by rewrite !length_fmap.
  - by rewrite !length_fmap.
  - intros j i Hj. rewrite !list_lookup_fmap in Hj. rewrite !list_lookup_fmap.
    destruct (sort_desc (tagged len batch) !! j) as [[l [i' a]]|] eqn:Ht;
      simplify_eq/=.
    exists a. split; [reflexivity|]. by destruct (Hrows j _ Ht).
  - intros j1 j2 i1 i2 a1 a2 Hlt H1 H2 Hx1 Hx2.
    rewrite !list_lookup_fmap in H1, H2.
    destruct (sort_desc (tagged len batch) !! j1) as [[l1 [i1' y1]]|] eqn:Ht1;
      simplify_eq/=.
    destruct (sort_desc (tagged len batch) !! j2) as [[l2 [i2' y2]]|] eqn:Ht2;
      simplify_eq/=.
    pose proof (StronglySorted_lookup _ _ _ _ _ _ Hsorted Hlt Ht1 Ht2) as Hb.
    destruct (Hrows _ _ Ht1) as [Hy1 Hl1]. destruct (Hrows _ _ Ht2) as [Hy2 Hl2].
    simpl in *. simplify_eq. unfold before in Hb. simpl in Hb. lia.
Qed.

End sorting.

(** The example of the specification: lengths 3, 1, 2. *)
Example sort_all_3_1_2 :
  sort_all ["three"; "one"; "two"] [3; 1; 2] = (["three"; "two"; "one"], [0; 2; 1])
  ∧ unsort ["three"; "two"; "one"] [0; 2; 1] = [Some "three"; Some "one"; Some "two"].
Proof. split; reflexivity. Qed.

(** [orig_idx[j]] is the place row [j] had in the chunk, not the place
    row [j] of the chunk went to: lengths 2, 2, 5. *)
Example orig_idx_direction :
  sort_all ["a"; "b"; "c"] [2; 2; 5] = (["c"; "a"; "b"], [2; 0; 1])
  ∧ unsort ["c"; "a"; "b"] [2; 0; 1] = [Some "a"; Some "b"; Some "c"]
  ∧ (λ i, ["c"; "a"; "b"] !! i) <$> [2; 0; 1] = [Some "b"; Some "c"; Some "a"].
Proof. split_and!; reflexivity. Qed.

(** Rows of one length keep their order. *)
Example sort_all_ties :
  sort_all ["a"; "b"; "c"; "d"] [2; 2; 5; 2] = (["c"; "a"; "b"; "d"], [2; 0; 1; 3]).
Proof. reflexivity. Qed.

Lemma index_of_elem (i : nat) (l : list nat) :
  i ∈ l → ∃ j, index_of i l = Some j ∧ l !! j = Some i.
Proof.
  induction l as [|k l IH]; intros Hin; [by apply elem_of_nil in Hin|].
  simpl. case_decide as Hk.
  - subst. by exists 0.
  - apply elem_of_cons in Hin as [?|Hin]; [done|].
    destruct (IH Hin) as (j & -> & Hj). by exists (S j).
Qed.

(** Putting the sorted rows back by [orig_idx] gives the chunk. *)
Lemma unsort_spec {A} (batch sorted : list A) (oidx : list nat) :
  oidx ≡ₚ seq 0 (length batch) →
  (∀ j i, oidx !! j = Some i → ∃ a, sorted !! j = Some a ∧ batch !! i = Some a) →
  unsort sorted oidx = Some <$> batch.
Proof.
  intros Hperm Hrows. unfold unsort.
  rewrite Hperm, length_seq. apply list_eq. intros i.
  rewrite !list_lookup_fmap.
  destruct (decide (i < length batch)) as [Hlt|Hge].
  - rewrite lookup_seq_lt by exact Hlt. simpl.
    assert (Hin : i ∈ oidx) by (rewrite Hperm; apply elem_of_seq; lia).
    destruct (index_of_elem i oidx Hin) as (j & -> & Hj). simpl.
    destruct (Hrows j i Hj) as (a & -> & ->). reflexivity.
  - rewrite lookup_seq_ge, lookup_ge_None_2 by lia. reflexivity.
Qed.

Lemma unsort_fmap {A B} (f : A → B) (batch sorted : list A) (oidx : list nat) :
  oidx ≡ₚ seq 0 (length batch) →
  (∀ j i, oidx !! j = Some i → ∃ a, sorted !! j = Some a ∧ batch !! i = Some a) →
  unsort (f <$> sorted) oidx = Some <$> (f <$> batch).
Proof.
  intros Hperm Hrows. apply unsort_spec; [by rewrite length_fmap|].
  intros j i Hj. destruct (Hrows j i Hj) as (a & Hs & Hb).
  exists (f a). by rewrite !list_lookup_fmap, Hs, Hb.
Qed.

Lemma unsort_fmap2 {A B C} (f : A → B) (g : B → C) (batch sorted : list A)
    (oidx : list nat) :
  oidx ≡ₚ seq 0 (length batch) →
  (∀ j i, oidx !! j = Some i → ∃ a, sorted !! j = Some a ∧ batch !! i = Some a) →
  unsort (g <$> (f <$> sorted)) oidx = Some <$> (g <$> (f <$> batch)).
Proof.
  intros Hperm Hrows.
  rewrite <- (list_fmap_compose f g sorted), <- (list_fmap_compose f g batch).
  by apply unsort_fmap.
Qed.

(** ** Chunks *)

Lemma range_step_lt (n : nat) (step : Z) (starts : list nat) :
  range_step n step = Ok starts → Forall (λ i, i < n ∧ (0 < step)%Z) starts.
Proof.
  unfold range_step. case_decide; [discriminate|].
  case_decide; intros [= <-]; [constructor|].
  apply Forall_fmap, Forall_forall. intros q Hq%elem_of_seq. simpl.
  split; [|lia].
  set (k := Z.to_nat step) in *. assert (0 < k) by lia.
  pose proof (Nat.Div0.mul_div_le (n + k - 1) k). nia.
Qed.

(** Every chunk has an example, and only examples of the data. *)
Lemma chunk_spec {A} (data : list A) (batch_size : Z) (chunks : list (list A)) :
  chunk data batch_size = Ok chunks →
  Forall (λ c, c ≠ [] ∧ c ⊆ data) chunks.
Proof.
  unfold chunk. destruct (range_step (length data) batch_size) as [starts|e] eqn:Hr;
    csimpl; [|discriminate].
  intros [= <-]. apply range_step_lt in Hr.
  apply Forall_fmap. eapply Forall_impl; [exact Hr|].
  intros i [Hi Hpos]. simpl. split.
  - intros Hnil. apply (f_equal length) in Hnil.
    rewrite length_take, length_drop in Hnil. simpl in Hnil. lia.
  - etrans; [apply subseteq_take|apply subseteq_drop].
Qed.

Lemma shuffle_data_spec {A} (data : list A) indices (data' : list A) :
  shuffle_data data indices = Ok data' → data' ⊆ data.
Proof.
  destruct indices as [indices|]; simpl; [|by intros [= <-]].
  intros Hm a Ha. apply list_elem_of_lookup in Ha as [j Hj].
  assert (Hlen := mapM_length _ _ _ Hm).
  destruct (lookup_lt_is_Some_2 indices j) as [i Hi].
  { rewrite <- Hlen. by eapply lookup_lt_Some. }
  destruct (mapM_lookup _ _ _ _ _ Hm Hi) as (a' & Ha' & Hidx).
  assert (a' = a) as -> by congruence.
  unfold py_index in Hidx. repeat case_match; try discriminate;
    match type of Hidx with
    | of_option _ (data !! ?k) = _ =>
        destruct (data !! k) eqn:Hk; simplify_eq/=;
        by eapply list_elem_of_lookup_2
    end.
Qed.

(** ** The loader of the lemmatizer *)

Lemma max_list_fmap_ext {A} (f g : A → nat) (l : list A) :
  Forall (λ a, f a = g a) l → max_list (f <$> l) = max_list (g <$> l).
Proof. intros Hl. f_equal. by apply Forall_fmap_ext. Qed.

Section lemma_loader.
Import LemmaLoader.
Context (SOS EOS : string) (UNK_ID : nat) (edit_type_id : string → string → result nat).

Lemma preprocess_targets_agree data vocab pos_vocab processed :
  preprocess SOS EOS UNK_ID edit_type_id data vocab pos_vocab = Ok processed →
  Forall targets_agree processed.
Proof.
  intros Hm. apply Forall_lookup. intros j x Hx.
  destruct (lookup_lt_is_Some_2 data j) as [d Hd].
  { rewrite <- (mapM_length _ _ _ Hm). by eapply lookup_lt_Some. }
  destruct (mapM_lookup _ _ _ _ _ Hm Hd) as (x' & Hx' & Hone).
  assert (x' = x) as -> by congruence.
  unfold preprocess_one in Hone.
  destruct (edit_type_id _ _); csimpl in Hone; [|discriminate].
  injection Hone as <-. unfold targets_agree, map_to_ids. simpl.
  rewrite !length_fmap, length_app. simpl. lia.
Qed.

Lemma init_chunks data vocab pos_vocab indices batch_size chunks :
  init SOS EOS UNK_ID edit_type_id data vocab pos_vocab indices batch_size = Ok chunks →
  Forall (λ c, c ≠ [] ∧ Forall targets_agree c) chunks.
Proof.
  unfold init.
  destruct (preprocess _ _ _ _ data vocab pos_vocab) as [processed|e] eqn:Hp;
    csimpl; [|discriminate].
  destruct (shuffle_data processed indices) as [shuffled|e] eqn:Hs;
    csimpl; [|discriminate].
  intros Hc%chunk_spec. eapply Forall_impl; [exact Hc|].
  intros c [Hne Hsub]. split; [exact Hne|].
  apply preprocess_targets_agree in Hp. apply shuffle_data_spec in Hs.
  rewrite Forall_forall in Hp |- *. intros x Hx. apply Hp, Hs, Hsub, Hx.
Qed.

Lemma getitem_chunk (data : list (list example)) (key : Z) (c : list example) :
  (0 ≤ key)%Z → data !! Z.to_nat key = Some c → c ≠ [] → Forall targets_agree c →
  getitem data key = Ok (batch_of c).
Proof.
  intros Hkey Hc Hne Hagree. unfold getitem, batch_of.
  assert (Hlt := lookup_lt_Some _ _ _ Hc).
  rewrite bool_decide_eq_false_2, bool_decide_eq_false_2 by lia.
  rewrite Hc. cbn [orb of_option mbind result_bind]. rewrite decide_False by exact Hne.
  destruct (sort_all c ((λ x, length (ex_src x)) <$> c)) as [sorted oidx] eqn:Hsort.
  destruct (sort_all_spec (λ x, length (ex_src x)) _ _ _ Hsort) as (_ & Hperm & _).
  rewrite decide_True; [reflexivity|]. simpl.
  rewrite <- !list_fmap_compose.
  apply (max_list_fmap_ext (length ∘ ex_tgt_in) (length ∘ ex_tgt_out)).
  by rewrite Hperm.
Qed.

(** Whatever the chunks hold, [getitem] raises nothing but what the
    source names. *)
Lemma getitem_cases (data : list (list example)) (key : Z) :
  (¬ (0 ≤ key < Z.of_nat (length data))%Z ∧ getitem data key = Raise IndexError) ∨
  (∃ c, data !! Z.to_nat key = Some c ∧
        ((c = [] ∧ getitem data key = Raise (AssertionError EmptyString)) ∨
         (c ≠ [] ∧ Forall targets_agree c ∧ getitem data key = Ok (batch_of c)) ∨
         (c ≠ [] ∧ ¬ Forall targets_agree c))).
Proof.
  destruct (decide (0 ≤ key < Z.of_nat (length data))%Z) as [Hin|Hout].
  - right. destruct (lookup_lt_is_Some_2 data (Z.to_nat key)) as [c Hc]; [lia|].
    exists c. split; [exact Hc|].
    destruct (decide (c = [])) as [->|Hne].
    + left. split; [reflexivity|]. unfold getitem.
      rewrite bool_decide_eq_false_2, bool_decide_eq_false_2 by lia. simpl.
      rewrite Hc. reflexivity.
    + right. destruct (decide (Forall targets_agree c)) as [Ha|Hn].
      * left. split_and!; [done..|]. apply getitem_chunk; [lia|done..].
      * right. done.
  - left. split; [exact Hout|]. unfold getitem.
    destruct (decide (key < 0)%Z).
    + by rewrite bool_decide_eq_true_2.
    + rewrite (bool_decide_eq_true_2 (key >= _)%Z) by lia.
      by rewrite orb_true_r.
Qed.

End lemma_loader.

Section lemma_batches.
Import LemmaLoader.

Lemma batch_of_spec (chunk : list example) :
  sorted_by_length chunk (batch_of chunk).
Proof.
  unfold sorted_by_length, batch_of.
  destruct (sort_all chunk ((λ x, length (ex_src x)) <$> chunk))
    as [sorted oidx] eqn:Hsort.
  destruct (sort_all_spec (λ x, length (ex_src x)) _ _ _ Hsort)
    as (Hperm & _ & _ & _ & Hrows & Horder).
  cbn [b_src b_tgt_in b_tgt_out b_pos b_edits b_orig_idx get_long_tensor cells size1].
  split_and!.
  - exact Hperm.
  - intros j i Hj. destruct (Hrows j i Hj) as (x & Hs & Hc).
    exists x. rewrite !list_lookup_fmap, Hs. done.
  - exact Horder.
  - by apply unsort_fmap2.
  - by apply unsort_fmap2.
  - by apply unsort_fmap2.
  - by apply unsort_fmap.
  - by apply unsort_fmap.
Qed.

Lemma batch_of_widths (chunk : list example) :
  Forall targets_agree chunk →
  size1 (b_tgt_in (batch_of chunk)) = size1 (b_tgt_out (batch_of chunk)).
Proof.
  intros Hagree. unfold batch_of.
  destruct (sort_all chunk ((λ x, length (ex_src x)) <$> chunk))
    as [sorted oidx] eqn:Hsort.
  destruct (sort_all_spec (λ x, length (ex_src x)) _ _ _ Hsort) as (_ & Hperm & _).
  simpl. rewrite <- !list_fmap_compose.
  apply (max_list_fmap_ext (length ∘ ex_tgt_in) (length ∘ ex_tgt_out)).
  by rewrite Hperm.
Qed.

End lemma_batches.

(** ** The loader of the multi-word-token expander *)

Section mwt_loader.
Import MwtLoader.
Context (SOS EOS : string) (UNK_ID : nat).

Lemma map_to_ids_length tokens vocab ids :
  map_to_ids UNK_ID tokens vocab = Ok ids → length ids = length tokens.
Proof. apply mapM_length. Qed.

(** [t in vocab] guards [vocab[t]]: the mapping of tokens never raises. *)
Lemma map_to_ids_total tokens vocab : is_Ok (map_to_ids UNK_ID tokens vocab).
Proof.
  unfold map_to_ids.
  induction tokens as [|t tokens [ids IH]]; [by exists []|]. simpl.
  assert (Ht : is_Ok (match t with
                      | TStr s => if Vocab.contains vocab s then Vocab.unit2id vocab s
                                  else Ok UNK_ID
                      | TInt _ => Ok UNK_ID
                      end)).
  { destruct t as [s|i]; [|by eexists].
    unfold Vocab.contains, Vocab.unit2id, Vocab.normalize_unit.
    case_bool_decide as Hs; [|by eexists].
    destruct Hs as [i ->]. by eexists. }
  destruct Ht as [i ->]. csimpl. rewrite IH. by eexists.
Qed.

Lemma mwt_preprocess_targets_agree eval data vocab processed :
  preprocess SOS EOS UNK_ID eval data vocab = Ok processed →
  Forall targets_agree processed.
Proof.
  intros Hm. apply Forall_lookup. intros j x Hx.
  destruct (lookup_lt_is_Some_2 data j) as [d Hd].
  { rewrite <- (mapM_length _ _ _ Hm). by eapply lookup_lt_Some. }
  destruct (mapM_lookup _ _ _ _ _ Hm Hd) as (x' & Hx' & Hone).
  assert (x' = x) as -> by congruence.
  unfold preprocess_one in Hone.
  destruct (map_to_ids _ _ vocab) as [src|e] eqn:Hsrc;
    cbn [mbind result_bind] in Hone; [|discriminate].
  match type of Hone with
  | context [map_to_ids _ ([TStr SOS] ++ ?tgt) vocab] =>
      destruct (map_to_ids UNK_ID ([TStr SOS] ++ tgt) vocab) as [tgt_in|e] eqn:Hin;
      cbn [mbind result_bind] in Hone; [|discriminate];
      destruct (map_to_ids UNK_ID (tgt ++ [TStr EOS]) vocab) as [tgt_out|e] eqn:Hout;
      cbn [mbind result_bind] in Hone; [|discriminate]
  end.
  injection Hone as <-. unfold targets_agree. simpl.
  apply map_to_ids_length in Hin, Hout. rewrite Hin, Hout, !length_app. simpl. lia.
Qed.

Lemma mwt_init_chunks eval data vocab indices batch_size chunks :
  init SOS EOS UNK_ID eval data vocab indices batch_size = Ok chunks →
  Forall (λ c, c ≠ [] ∧ Forall targets_agree c) chunks.
Proof.
  unfold init.
  destruct (preprocess _ _ _ eval data vocab) as [processed|e] eqn:Hp;
    csimpl; [|discriminate].
  destruct (shuffle_data processed indices) as [shuffled|e] eqn:Hs;
    csimpl; [|discriminate].
  intros Hc%chunk_spec. eapply Forall_impl; [exact Hc|].
  intros c [Hne Hsub]. split; [exact Hne|].
  apply mwt_preprocess_targets_agree in Hp. apply shuffle_data_spec in Hs.
  rewrite Forall_forall in Hp |- *. intros x Hx. apply Hp, Hs, Hsub, Hx.
Qed.

Lemma mwt_getitem_chunk (data : list (list example)) (key : Z) (c : list example) :
  (0 ≤ key)%Z → data !! Z.to_nat key = Some c → c ≠ [] → Forall targets_agree c →
  getitem data key = Ok (batch_of c).
Proof.
  intros Hkey Hc Hne Hagree. unfold getitem, batch_of.
  assert (Hlt := lookup_lt_Some _ _ _ Hc).
  rewrite bool_decide_eq_false_2, bool_decide_eq_false_2 by lia.
  rewrite Hc. cbn [orb of_option mbind result_bind]. rewrite decide_False by exact Hne.
  destruct (sort_all c ((λ x, length (ex_src x)) <$> c)) as [sorted oidx] eqn:Hsort.
  destruct (sort_all_spec (λ x, length (ex_src x)) _ _ _ Hsort) as (_ & Hperm & _).
  rewrite decide_True; [reflexivity|]. simpl.
  rewrite <- !list_fmap_compose.
  apply (max_list_fmap_ext (length ∘ ex_tgt_in) (length ∘ ex_tgt_out)).
  by rewrite Hperm.
Qed.

Lemma mwt_getitem_cases (data : list (list example)) (key : Z) :
  (¬ (0 ≤ key < Z.of_nat (length data))%Z ∧ getitem data key = Raise IndexError) ∨
  (∃ c, data !! Z.to_nat key = Some c ∧
        ((c = [] ∧ getitem data key = Raise (AssertionError EmptyString)) ∨
         (c ≠ [] ∧ Forall targets_agree c ∧ getitem data key = Ok (batch_of c)) ∨
         (c ≠ [] ∧ ¬ Forall targets_agree c))).
Proof.
  destruct (decide (0 ≤ key < Z.of_nat (length data))%Z) as [Hin|Hout].
  - right. destruct (lookup_lt_is_Some_2 data (Z.to_nat key)) as [c Hc]; [lia|].
    exists c. split; [exact Hc|].
    destruct (decide (c = [])) as [->|Hne].
    + left. split; [reflexivity|]. unfold getitem.
      rewrite bool_decide_eq_false_2, bool_decide_eq_false_2 by lia. simpl.
      rewrite Hc. reflexivity.
    + right. destruct (decide (Forall targets_agree c)) as [Ha|Hn].
      * left. split_and!; [done..|]. apply mwt_getitem_chunk; [lia|done..].
      * right. done.
  - left. split; [exact Hout|]. unfold getitem.
    destruct (decide (key < 0)%Z).
    + by rewrite bool_decide_eq_true_2.
    + rewrite (bool_decide_eq_true_2 (key >= _)%Z) by lia.
      by rewrite orb_true_r.
Qed.

Lemma mwt_batch_of_spec (chunk : list example) :
  sorted_by_length chunk (batch_of chunk).
Proof.
  unfold sorted_by_length, batch_of.
  destruct (sort_all chunk ((λ x, length (ex_src x)) <$> chunk))
    as [sorted oidx] eqn:Hsort.
  destruct (sort_all_spec (λ x, length (ex_src x)) _ _ _ Hsort)
    as (Hperm & _ & _ & _ & Hrows & Horder).
  cbn [b_src b_tgt_in b_tgt_out b_orig_idx get_long_tensor cells size1].
  split_and!.
  - exact Hperm.
  - intros j i Hj. destruct (Hrows j i Hj) as (x & Hs & Hc).
    exists x. rewrite !list_lookup_fmap, Hs. done.
  - exact Horder.
  - by apply unsort_fmap2.
  - by apply unsort_fmap2.
  - by apply unsort_fmap2.
Qed.

Lemma mwt_batch_of_widths (chunk : list example) :
  Forall targets_agree chunk →
  size1 (b_tgt_in (batch_of chunk)) = size1 (b_tgt_out (batch_of chunk)).
Proof.
  intros Hagree. unfold batch_of.
  destruct (sort_all chunk ((λ x, length (ex_src x)) <$> chunk))
    as [sorted oidx] eqn:Hsort.
  destruct (sort_all_spec (λ x, length (ex_src x)) _ _ _ Hsort) as (_ & Hperm & _).
  simpl. rewrite <- !list_fmap_compose.
  apply (max_list_fmap_ext (length ∘ ex_tgt_in) (length ∘ ex_tgt_out)).
  by rewrite Hperm.
Qed.

End mwt_loader.

(** ** Batches *)

(** C8: in the data a loader makes (preprocess, shuffle, chunk) every
    example has target input and target output of one length, so for no
    key does [getitem] raise the shape assertion, and for every key in
    range it returns a batch whose two target tensors have the same
    width.  Both loaders. *)
Theorem target_widths_agree :
  (∀ SOS EOS UNK_ID edit_type_id raw vocab pos_vocab indices batch_size data,
     LemmaLoader.init SOS EOS UNK_ID edit_type_id raw vocab pos_vocab
                      indices batch_size = Ok data →
     Forall (Forall LemmaLoader.targets_agree) data ∧
     ∀ key,
       LemmaLoader.getitem data key ≠ Raise (AssertionError msg_shape) ∧
       ((0 ≤ key < Z.of_nat (length data))%Z →
        ∃ b, LemmaLoader.getitem data key = Ok b ∧
             size1 (LemmaLoader.b_tgt_in b) = size1 (LemmaLoader.b_tgt_out b))) ∧
  (∀ SOS EOS UNK_ID eval raw vocab indices batch_size data,
     MwtLoader.init SOS EOS UNK_ID eval raw vocab indices batch_size = Ok data →
     Forall (Forall MwtLoader.targets_agree) data ∧
     ∀ key,
       MwtLoader.getitem data key ≠ Raise (AssertionError msg_shape) ∧
       ((0 ≤ key < Z.of_nat (length data))%Z →
        ∃ b, MwtLoader.getitem data key = Ok b ∧
             size1 (MwtLoader.b_tgt_in b) = size1 (MwtLoader.b_tgt_out b))).
Proof.
  split.
  - intros SOS EOS UNK_ID edit_type_id raw vocab pos_vocab indices batch_size data
           Hinit.
    apply init_chunks in Hinit. split.
    { eapply Forall_impl; [exact Hinit|]. by intros c [_ ?]. }
    intros key. rewrite Forall_lookup in Hinit.
    destruct (getitem_cases data key)
      as [[Hout Hr]|(c & Hc & [[-> Hr]|[(Hne & Ha & Hr)|[Hne Hn]]])].
    + rewrite Hr. split; [discriminate|lia].
    + rewrite Hr. split; [discriminate|]. by destruct (Hinit _ _ Hc) as [? _].
    + rewrite Hr. split; [discriminate|]. intros _. eexists. split; [reflexivity|].
      by apply batch_of_widths.
    + by destruct (Hinit _ _ Hc) as [_ ?].
  - intros SOS EOS UNK_ID eval raw vocab indices batch_size data Hinit.
    apply mwt_init_chunks in Hinit. split.
    { eapply Forall_impl; [exact Hinit|]. by intros c [_ ?]. }
    intros key. rewrite Forall_lookup in Hinit.
    destruct (mwt_getitem_cases data key)
      as [[Hout Hr]|(c & Hc & [[-> Hr]|[(Hne & Ha & Hr)|[Hne Hn]]])].
    + rewrite Hr. split; [discriminate|lia].
    + rewrite Hr. split; [discriminate|]. by destruct (Hinit _ _ Hc) as [? _].
    + rewrite Hr. split; [discriminate|]. intros _. eexists. split; [reflexivity|].
      by apply mwt_batch_of_widths.
    + by destruct (Hinit _ _ Hc) as [_ ?].
Qed.

Lemma target_widths_agree_witness :
  ∃ data, demo_lemma_loader = Ok data ∧ length data = 1 ∧
    Forall (Forall LemmaLoader.targets_agree) data ∧
    ∀ key,
      LemmaLoader.getitem data key ≠ Raise (AssertionError msg_shape) ∧
      ((0 ≤ key < Z.of_nat (length data))%Z →
       ∃ b, LemmaLoader.getitem data key = Ok b ∧
            size1 (LemmaLoader.b_tgt_in b) = size1 (LemmaLoader.b_tgt_out b)).
Proof.
  destruct demo_lemma_loader as [data|e] eqn:Hd; [|vm_compute in Hd; discriminate].
  exists data. split; [reflexivity|]. split.
  { assert (Hlen : (match demo_lemma_loader with
                    | Ok data => length data
                    | Raise _ => 0
                    end) = 1) by (vm_compute; reflexivity).
    by rewrite Hd in Hlen. }
  exact (proj1 target_widths_agree _ _ _ _ _ _ _ _ _ _ Hd).
Defined.

(** C6: for every key in range the loader returns a batch of the chunk
    at that key in which the examples are ordered by non-increasing
    source length, examples of one length keeping the order of the chunk;
    [orig_idx] is a permutation of the positions of the chunk and gives,
    for every row of the batch, the position the example had in the
    chunk, so that [unsort] by [orig_idx] restores the order of the chunk
    in every field.  Both loaders, with [sort_all] as the specification
    has it. *)
Theorem batch_sorted_with_orig_idx :
  (∀ SOS EOS UNK_ID edit_type_id raw vocab pos_vocab indices batch_size data key,
     LemmaLoader.init SOS EOS UNK_ID edit_type_id raw vocab pos_vocab
                      indices batch_size = Ok data →
     (0 ≤ key < Z.of_nat (length data))%Z →
     ∃ chunk b,
       data !! Z.to_nat key = Some chunk ∧
       LemmaLoader.getitem data key = Ok b ∧
       LemmaLoader.sorted_by_length chunk b) ∧
  (∀ SOS EOS UNK_ID eval raw vocab indices batch_size data key,
     MwtLoader.init SOS EOS UNK_ID eval raw vocab indices batch_size = Ok data →
     (0 ≤ key < Z.of_nat (length data))%Z →
     ∃ chunk b,
       data !! Z.to_nat key = Some chunk ∧
       MwtLoader.getitem data key = Ok b ∧
       MwtLoader.sorted_by_length chunk b).
Proof.
  split.
  - intros SOS EOS UNK_ID edit_type_id raw vocab pos_vocab indices batch_size data
           key Hinit Hkey.
    apply init_chunks in Hinit. rewrite Forall_lookup in Hinit.
    destruct (lookup_lt_is_Some_2 data (Z.to_nat key)) as [c Hc]; [lia|].
    destruct (Hinit _ _ Hc) as [Hne Ha].
    exists c, (LemmaLoader.batch_of c). split_and!.
    + exact Hc.
    + apply getitem_chunk; [lia|done..].
    + apply batch_of_spec.
  - intros SOS EOS UNK_ID eval raw vocab indices batch_size data key Hinit Hkey.
    apply mwt_init_chunks in Hinit. rewrite Forall_lookup in Hinit.
    destruct (lookup_lt_is_Some_2 data (Z.to_nat key)) as [c Hc]; [lia|].
    destruct (Hinit _ _ Hc) as [Hne Ha].
    exists c, (MwtLoader.batch_of c). split_and!.
    + exact Hc.
    + apply mwt_getitem_chunk; [lia|done..].
    + apply mwt_batch_of_spec.
Qed.

Lemma batch_sorted_with_orig_idx_witness :
  ∃ data, demo_lemma_loader = Ok data ∧
  ∃ chunk b,
    data !! Z.to_nat 0 = Some chunk ∧
    LemmaLoader.getitem data 0 = Ok b ∧
    LemmaLoader.sorted_by_length chunk b.
Proof.
  destruct demo_lemma_loader as [data|e] eqn:Hd; [|vm_compute in Hd; discriminate].
  exists data. split; [reflexivity|].
  apply (proj1 batch_sorted_with_orig_idx _ _ _ _ _ _ _ _ _ data 0%Z Hd).
  assert (Hlen : (match demo_lemma_loader with
                  | Ok data => length data
                  | Raise _ => 0
                  end) = 1) by (vm_compute; reflexivity).
  rewrite Hd in Hlen. rewrite Hlen. lia.
Defined.

(** The batch of the three words: the sources of lengths 6, 3 and 5 come
    out as 6, 5, 3, and [orig_idx] names the places they had. *)
Example demo_lemma_batch :
  (data ← demo_lemma_loader; b ← LemmaLoader.getitem data 0;
   Ok (LemmaLoader.b_orig_idx b, length <$> cells (LemmaLoader.b_src b),
       LemmaLoader.b_pos b,
       unsort (LemmaLoader.b_pos b) (LemmaLoader.b_orig_idx b)))
  = Ok ([0; 2; 1], [6; 6; 6], [2; 3; 1], [Some 2; Some 1; Some 3]).
Proof. vm_compute. reflexivity. Qed.

Example demo_mwt_batch :
  (data ← demo_mwt_loader; b ← MwtLoader.getitem data 0;
   Ok (MwtLoader.b_orig_idx b, cells (MwtLoader.b_src b),
       size1 (MwtLoader.b_tgt_in b), size1 (MwtLoader.b_tgt_out b)))
  = Ok ([0; 1], [[1; 2; 3; 1]; [1; 4; 1; 0]], 4, 4).
Proof. vm_compute. reflexivity. Qed.

(** ** [predict_greedy] *)

Section greedy_facts.
Import Seq2SeqModel.
Context {state : Type} (EOS_ID : Z) (max_dec_len : nat)
        (decode_greedy : state → (nat → Z) * state).

#[local] Abbreviation greedy_example := (greedy_example state EOS_ID).
#[local] Abbreviation greedy_step := (greedy_step state EOS_ID decode_greedy).
#[local] Abbreviation greedy_loop := (greedy_loop state EOS_ID max_dec_len decode_greedy).
#[local] Abbreviation greedy_after := (greedy_after state EOS_ID decode_greedy).
#[local] Abbreviation eos_before := (eos_before state EOS_ID decode_greedy).
#[local] Abbreviation eos_at := (eos_at state EOS_ID decode_greedy).
#[local] Abbreviation preds_at := (preds_at state decode_greedy).

(** The loop over the examples of one turn, none of them flagged. *)
Lemma greedy_examples (preds : nat → Z) (s : greedy state) (n m : nat) :
  done s = replicate n false → m ≤ n →
  foldl (greedy_example preds) s (seq 0 m) =
    mk_greedy (done s)
      (total_done s + length (filter (λ i, preds i = EOS_ID) (seq 0 m)))
      (max_len s)
      (imap (λ i sq, if decide (i < m)
                     then sq ++ filter (λ token, token ≠ EOS_ID) [preds i]
                     else sq) (output_seqs s))
      (dec s).
Proof.
  intros Hdone. induction m as [|m IH]; intros Hm.
  - simpl. destruct s as [d t l o st]. simpl. f_equal; [lia|].
    apply list_eq. intros i. rewrite list_lookup_imap.
    destruct (o !! i); reflexivity.
  - rewrite seq_S, foldl_app, IH by lia. simpl.
    unfold Seq2SeqModel.greedy_example at 1. simpl.
    rewrite Hdone, lookup_replicate_2 by lia. simpl.
    rewrite filter_app, length_app, filter_cons, filter_nil.
    case_bool_decide as Htok; simpl.
    + rewrite decide_True by exact Htok. simpl. f_equal; [lia|].
      apply imap_ext. intros i sq _. simpl.
      destruct (decide (i = m)) as [->|Hne].
      * rewrite decide_False, decide_True by lia.
        rewrite filter_cons, decide_False, filter_nil by tauto.
        by rewrite app_nil_r.
      * repeat case_decide; try lia; reflexivity.
    + rewrite decide_False by exact Htok. simpl. f_equal; [lia|].
      apply list_eq. intros i. rewrite list_lookup_alter, !list_lookup_imap.
      destruct (decide (i = m)) as [->|Hne].
      * rewrite decide_True by done.
        destruct (output_seqs s !! m) as [sq|]; simpl; [|reflexivity].
        rewrite decide_False, decide_True by lia.
        rewrite filter_cons, decide_True, filter_nil by exact Htok. reflexivity.
      * rewrite decide_False by done.
        destruct (output_seqs s !! i) as [sq|]; simpl; [|reflexivity].
        repeat case_decide; try lia; reflexivity.
Qed.

Lemma greedy_step_after (n : nat) (dec0 : state) (k : nat) :
  greedy_step n (greedy_after n dec0 k) = greedy_after n dec0 (S k).
Proof.
  unfold Seq2SeqModel.greedy_step, Seq2SeqModel.greedy_after at 1. simpl.
  destruct (decode_greedy (Seq2SeqModel.dec_at state decode_greedy dec0 k))
    as [preds dec'] eqn:Hdec.
  rewrite (greedy_examples preds _ n n) by (simpl; done). simpl.
  assert (Hpreds : ∀ i, preds_at dec0 k i = preds i).
  { intros i. unfold Seq2SeqModel.preds_at. by rewrite Hdec. }
  unfold Seq2SeqModel.greedy_after. f_equal.
  - unfold Seq2SeqModel.eos_before. rewrite seq_S, sum_list_with_app. simpl.
    rewrite Nat.add_0_r. f_equal. unfold Seq2SeqModel.eos_at. f_equal.
    apply list_filter_iff. intros i. by rewrite Hpreds.
  - lia.
  - apply list_eq. intros i. rewrite list_lookup_imap, !list_lookup_fmap.
    destruct (seq 0 n !! i) as [j|] eqn:Hj; [|reflexivity].
    apply lookup_seq in Hj as [-> Hi].
    cbn [fmap option_fmap option_map Nat.add]. rewrite decide_True by exact Hi.
    rewrite seq_S, fmap_app, filter_app. simpl. by rewrite Hpreds.
  - simpl. by rewrite Hdec.
Qed.

Lemma greedy_init_after (n : nat) (dec0 : state) :
  greedy_init state n dec0 = greedy_after n dec0 0.
Proof.
  unfold Seq2SeqModel.greedy_init, Seq2SeqModel.greedy_after. f_equal.
  simpl. generalize 0. induction n as [|n IH]; intros s; simpl; [reflexivity|].
  f_equal. apply IH.
Qed.

Lemma greedy_loop_after (n : nat) (dec0 : state) (fuel k : nat) :
  fuel + k = max_dec_len →
  (∀ t, t < k → eos_before n dec0 t < n) →
  ∃ k', greedy_loop fuel n (greedy_after n dec0 k) = greedy_after n dec0 k' ∧
        k' ≤ max_dec_len ∧
        (n ≤ eos_before n dec0 k' ∨ k' = max_dec_len) ∧
        (∀ t, t < k' → eos_before n dec0 t < n).
Proof.
  revert k. induction fuel as [|fuel IH]; intros k Hfuel Hbefore.
  - exists k. simpl. split_and!; [reflexivity|lia|right; lia|exact Hbefore].
  - simpl. unfold greedy_continues. simpl.
    rewrite (bool_decide_eq_true_2 (k < max_dec_len)) by lia.
    rewrite andb_true_r. case_bool_decide as Hdone.
    + rewrite greedy_step_after. apply IH; [lia|].
      intros t Ht. destruct (decide (t = k)) as [->|]; [exact Hdone|].
      apply Hbefore. lia.
    + exists k. split_and!; [reflexivity|lia|left; lia|exact Hbefore].
Qed.

(** More fuel than [max_dec_len] turns changes nothing: the loop has
    ended by its own condition. *)
Lemma greedy_example_max_len (preds : nat → Z) (s : greedy state) (i : nat) :
  max_len (greedy_example preds s i) = max_len s.
Proof. unfold Seq2SeqModel.greedy_example. by repeat case_match. Qed.

Lemma greedy_step_max_len (n : nat) (s : greedy state) :
  max_len (greedy_step n s) = S (max_len s).
Proof.
  unfold Seq2SeqModel.greedy_step. destruct (decode_greedy (dec s)) as [preds dec'].
  set (s1 := mk_greedy _ _ _ _ _). replace (S (max_len s)) with (max_len s1)
    by (simpl; lia).
  generalize (seq 0 n) s1. intros l. induction l as [|i l IH]; intros s2; simpl;
    [reflexivity|].
  by rewrite IH, greedy_example_max_len.
Qed.

Lemma greedy_loop_fuel (fuel n : nat) (s : greedy state) :
  max_dec_len - max_len s ≤ fuel →
  greedy_loop fuel n s = greedy_loop (max_dec_len - max_len s) n s.
Proof.
  revert s. induction fuel as [|fuel IH]; intros s Hfuel.
  - by replace (max_dec_len - max_len s) with 0 by lia.
  - simpl. destruct (greedy_continues state max_dec_len n s) eqn:Hc.
    + assert (Hlt : max_len s < max_dec_len).
      { unfold greedy_continues in Hc.
        by apply andb_true_iff in Hc as [_ Hlt%bool_decide_eq_true]. }
      rewrite IH by (rewrite greedy_step_max_len; lia).
      rewrite greedy_step_max_len.
      replace (max_dec_len - max_len s) with (S (max_dec_len - S (max_len s))) by lia.
      simpl. by rewrite Hc.
    + destruct (max_dec_len - max_len s) as [|r]; [reflexivity|].
      simpl. by rewrite Hc.
Qed.

End greedy_facts.

(** C10: [predict_greedy] ends after some [k] turns with no [done] flag
    set; every example's output is all the tokens predicted for it over
    the [k] turns but the end-of-sequence ones, those after its first
    end-of-sequence token included; [total_done] counts every
    end-of-sequence token predicted, repeats on one example included; and
    the loop ends at the first [k] at which that count reaches the batch
    size, or at [max_dec_len].  With the decoder [demo_decode] the first
    example gets the token 8 after its end-of-sequence token, and its
    second end-of-sequence token ends the loop for the second example
    too. *)
Theorem greedy_done_never_set :
  (∀ (state : Type) (EOS_ID : Z) (max_dec_len : nat)
     (decode_greedy : state → (nat → Z) * state) (batch_size : nat) (dec0 : state),
     ∃ k,
       Seq2SeqModel.greedy_run state EOS_ID max_dec_len decode_greedy batch_size dec0
       = Seq2SeqModel.greedy_after state EOS_ID decode_greedy batch_size dec0 k ∧
       Seq2SeqModel.predict_greedy state EOS_ID max_dec_len decode_greedy batch_size dec0
       = (λ i, filter (λ token, token ≠ EOS_ID)
                      ((λ t, Seq2SeqModel.preds_at state decode_greedy dec0 t i)
                         <$> seq 0 k)) <$> seq 0 batch_size ∧
       k ≤ max_dec_len ∧
       (batch_size ≤ Seq2SeqModel.eos_before state EOS_ID decode_greedy batch_size dec0 k
        ∨ k = max_dec_len) ∧
       (∀ t, t < k →
             Seq2SeqModel.eos_before state EOS_ID decode_greedy batch_size dec0 t
             < batch_size)) ∧
  Seq2SeqModel.greedy_run nat 3 10 demo_decode 2 0
  = Seq2SeqModel.mk_greedy [false; false] 2 3 [[8%Z]; [7%Z; 9%Z; 7%Z]] 3.
Proof.
  split; [|vm_compute; reflexivity].
  intros state EOS_ID max_dec_len decode_greedy n dec0.
  destruct (greedy_loop_after EOS_ID max_dec_len decode_greedy n dec0 max_dec_len 0)
    as (k & Hrun & Hk & Hstop & Hbefore); [lia|lia|].
  exists k. unfold Seq2SeqModel.predict_greedy, Seq2SeqModel.greedy_run.
  rewrite (greedy_init_after EOS_ID decode_greedy), Hrun. done.
Qed.

(** ** [predict] *)

Lemma filter_all_length {A} (P : A → Prop) `{∀ x, Decision (P x)} (l : list A) :
  length (filter P l) = length l ↔ Forall P l.
Proof.
  induction l as [|x l IH]; [by split; [constructor|]|].
  rewrite filter_cons. pose proof (length_filter P l). case_decide; simpl.
  - rewrite Forall_cons. split; [intros [=]; split; [done|by apply IH]|].
    intros [_ Hl]. f_equal. by apply IH.
  - split; [lia|]. by intros [? _]%Forall_cons.
Qed.

Section search_facts.
Import Seq2SeqModel.
Context {state beam logp : Type} (max_dec_len : nat) (new_beam : beam)
        (advance : beam → logp → bool * beam)
        (decode_beam : state → list beam → (nat → logp) * state)
        (update_state : state → nat → beam → state).

#[local] Abbreviation advance_beam := (advance_beam state beam logp advance update_state).
#[local] Abbreviation search_step :=
  (search_step state beam logp advance decode_beam update_state).
#[local] Abbreviation search_loop :=
  (search_loop state beam logp advance decode_beam update_state).

(** One turn calls [advance] on the beams [0 .. m-1], each once, in
    order. *)
Lemma advance_beams (i : nat) (log_probs : nat → logp) (s : search state beam)
    (done : list nat) (m : nat) :
  m ≤ length (beams s) →
  ∃ ds s' done',
    foldl (advance_beam i log_probs) (s, done) (seq 0 m) = (s', done') ∧
    length ds = m ∧
    calls s' = calls s ++ imap (mk_call i) ds ∧
    length (beams s') = length (beams s) ∧
    length done' = length done + length (filter (λ d, d = true) ds).
Proof.
  induction m as [|m IH]; intros Hm.
  - exists [], s, done. simpl. rewrite app_nil_r. split_and!; (reflexivity || lia).
  - destruct IH as (ds & s1 & done1 & Hfold & Hlen & Hcalls & Hbeams & Hdone); [lia|].
    rewrite seq_S, foldl_app, Hfold. simpl.
    destruct (lookup_lt_is_Some_2 (beams s1) m) as [bm Hbm]; [lia|].
    unfold Seq2SeqModel.advance_beam. rewrite Hbm.
    destruct (advance bm (log_probs m)) as [is_done bm'].
    eexists (ds ++ [is_done]), _, _. split; [reflexivity|]. simpl.
    rewrite length_app, length_insert, imap_app, filter_app, length_app, Hcalls, Hlen.
    simpl. rewrite Nat.add_0_r, app_assoc. split_and!; [lia|reflexivity|lia|].
    rewrite filter_cons, filter_nil.
    destruct is_done; [rewrite decide_True by done|rewrite decide_False by done];
      rewrite ?length_app; simpl; lia.
Qed.

Lemma search_step_spec (n : nat) (s : search state beam) (i : nat) :
  length (beams s) = n →
  ∃ ds s',
    search_step n s i = (s', bool_decide (Forall (λ d, d = true) ds)) ∧
    length ds = n ∧
    calls s' = calls s ++ imap (mk_call i) ds ∧
    length (beams s') = n.
Proof.
  intros Hn. unfold Seq2SeqModel.search_step.
  destruct (decode_beam (hidden s) (beams s)) as [log_probs hidden'].
  destruct (advance_beams i log_probs (mk_search (beams s) hidden' (calls s)) [] n)
    as (ds & s' & done' & Hfold & Hlen & Hcalls & Hbeams & Hdone); [simpl; lia|].
  rewrite Hfold. exists ds, s'. split_and!; [|done..|simpl in *; lia].
  f_equal. apply bool_decide_ext. simpl in Hdone. rewrite Hdone, <- Hlen.
  apply filter_all_length.
Qed.

Lemma search_loop_spec (n : nat) (s : search state beam) (t0 r : nat) :
  length (beams s) = n →
  ∃ results,
    calls (search_loop n s (seq t0 r))
      = calls s ++ concat (imap (λ t ds, imap (mk_call (t0 + t)) ds) results) ∧
    Forall (λ ds, length ds = n) results ∧
    length results ≤ r ∧
    (∀ t ds, results !! t = Some ds → S t < length results →
             ¬ Forall (λ d, d = true) ds) ∧
    (length results < r →
       ∃ ds, last results = Some ds ∧ Forall (λ d, d = true) ds).
Proof.
  revert s t0. induction r as [|r IH]; intros s t0 Hn.
  - exists []. simpl. rewrite app_nil_r. split_and!.
    + reflexivity.
    + constructor.
    + lia.
    + intros t ds Ht. by rewrite lookup_nil in Ht.
    + lia.
  - simpl. destruct (search_step_spec n s t0 Hn) as (ds & s1 & -> & Hlen & Hcalls & Hn1).
    case_bool_decide as Hall.
    + exists [ds]. simpl. rewrite app_nil_r, Nat.add_0_r.
      split_and!; [done|by constructor|lia| |by eauto].
      intros t ds' _ Ht. simpl in Ht. lia.
    + destruct (IH s1 (S t0) Hn1) as (results & Hc & Hlens & Hr & Hmid & Hlast).
      exists (ds :: results). split_and!.
      * rewrite Hc, Hcalls, <- app_assoc. f_equal. simpl. rewrite Nat.add_0_r.
        do 2 f_equal. apply imap_ext. intros t ds' _. simpl. do 2 f_equal. lia.
      * by constructor.
      * simpl. lia.
      * intros [|t] ds' Ht Hlt; simpl in *; [by simplify_eq|].
        apply (Hmid t ds' Ht). lia.
      * simpl. intros Hlt. destruct Hlast as (ds' & Hl & Hall'); [lia|].
        exists ds'. split; [|done]. destruct results; [done|]. exact Hl.
Qed.

End search_facts.

Lemma elem_of_concat {A} (x : A) (ls : list (list A)) :
  x ∈ concat ls ↔ ∃ l, x ∈ l ∧ l ∈ ls.
Proof.
  rewrite list_elem_of_In, in_concat. split.
  - intros (l & Hl & Hx). exists l. by rewrite !list_elem_of_In.
  - intros (l & Hx & Hl). exists l. by rewrite <- !list_elem_of_In.
Qed.

Lemma elem_of_calls_of (results : list (list bool)) (c : Seq2SeqModel.advance_call) :
  c ∈ Seq2SeqModel.calls_of results ↔
  ∃ ds, results !! Seq2SeqModel.call_step c = Some ds
        ∧ ds !! Seq2SeqModel.call_beam c = Some (Seq2SeqModel.call_is_done c).
Proof.
  unfold Seq2SeqModel.calls_of. rewrite elem_of_concat. split.
  - intros (l & Hc & Hl). apply list_elem_of_lookup in Hl as [t Hl].
    rewrite list_lookup_imap in Hl.
    destruct (results !! t) as [ds|] eqn:Ht; simplify_eq/=.
    apply list_elem_of_lookup in Hc as [b Hc]. rewrite list_lookup_imap in Hc.
    destruct (ds !! b) as [d|] eqn:Hb; simplify_eq/=. eauto.
  - intros (ds & Ht & Hb). exists (imap (Seq2SeqModel.mk_call (Seq2SeqModel.call_step c)) ds).
    split.
    + apply list_elem_of_lookup. exists (Seq2SeqModel.call_beam c).
      rewrite list_lookup_imap, Hb. by destruct c.
    + apply list_elem_of_lookup. exists (Seq2SeqModel.call_step c).
      by rewrite list_lookup_imap, Ht.
Qed.

(** C9, as amended: at every turn it runs, [predict] calls [advance]
    once on every beam of the batch, whether the beam has signalled DONE
    before or not; the loop ends after the first turn at which all beams
    signal DONE, or after [max_dec_len] turns.  So once every beam of the
    batch has signalled DONE at one and the same turn, no beam is
    advanced at a later turn. *)
Theorem predict_advances_every_beam
    (state beam logp : Type) (max_dec_len : nat) (new_beam : beam)
    (advance : beam → logp → bool * beam)
    (decode_beam : state → list beam → (nat → logp) * state)
    (update_state : state → nat → beam → state)
    (batch_size : nat) (hidden0 : state) :
  let tr := Seq2SeqModel.calls
              (Seq2SeqModel.predict_search state max_dec_len beam logp new_beam
                 advance decode_beam update_state batch_size hidden0) in
  (∃ results,
     tr = Seq2SeqModel.calls_of results ∧
     Forall (λ ds, length ds = batch_size) results ∧
     length results ≤ max_dec_len ∧
     (∀ t ds, results !! t = Some ds → S t < length results →
              ¬ Forall (λ d, d = true) ds) ∧
     (length results < max_dec_len →
        ∃ ds, last results = Some ds ∧ Forall (λ d, d = true) ds)) ∧
  (∀ t, 0 < batch_size →
        (∀ b, b < batch_size → Seq2SeqModel.mk_call t b true ∈ tr) →
        ∀ c, c ∈ tr → Seq2SeqModel.call_step c ≤ t).
Proof.
  intros tr.
  destruct (search_loop_spec advance decode_beam update_state batch_size
              (Seq2SeqModel.mk_search (replicate batch_size new_beam) hidden0 [])
              0 max_dec_len)
    as (results & Hc & Hlens & Hr & Hmid & Hlast).
  { simpl. apply length_replicate. }
  assert (Htr : tr = Seq2SeqModel.calls_of results).
  { subst tr. unfold Seq2SeqModel.predict_search. rewrite Hc. reflexivity. }
  split; [by exists results|].
  intros t Hpos Hall c Hin. rewrite Htr in Hin, Hall.
  apply elem_of_calls_of in Hin as (ds' & Hstep & _).
  apply lookup_lt_Some in Hstep.
  pose proof (Hall 0 Hpos) as (ds & Ht & _)%elem_of_calls_of. simpl in Ht.
  destruct (decide (S t < length results)) as [Hlt|]; [|lia].
  exfalso. apply (Hmid t ds Ht Hlt).
  rewrite Forall_lookup in Hlens. specialize (Hlens _ _ Ht).
  apply Forall_lookup. intros b d Hb.
  assert (Hbn : b < batch_size) by (rewrite <- Hlens; by eapply lookup_lt_Some).
  pose proof (Hall b Hbn) as (ds2 & Ht2 & Hb2)%elem_of_calls_of. simpl in *.
  congruence.
Qed.

(** C9, as stated, fails: with two beams of which the first signals
    DONE at every turn and the second never, [predict] advances the first
    beam again at the second turn. *)
Lemma predict_advances_done_beam :
  Seq2SeqModel.calls demo_search
  = [Seq2SeqModel.mk_call 0 0 true; Seq2SeqModel.mk_call 0 1 false;
     Seq2SeqModel.mk_call 1 0 true; Seq2SeqModel.mk_call 1 1 false] ∧
  ¬ Seq2SeqModel.never_advanced_after_done (Seq2SeqModel.calls demo_search).
Proof.
  assert (Hcalls : Seq2SeqModel.calls demo_search
    = [Seq2SeqModel.mk_call 0 0 true; Seq2SeqModel.mk_call 0 1 false;
       Seq2SeqModel.mk_call 1 0 true; Seq2SeqModel.mk_call 1 1 false])
    by (vm_compute; reflexivity).
  split; [exact Hcalls|]. rewrite Hcalls. intros Hnever.
  apply (Hnever (Seq2SeqModel.mk_call 0 0 true) (Seq2SeqModel.mk_call 1 0 true)).
  - by left.
  - do 2 right. by left.
  - reflexivity.
  - reflexivity.
  - simpl. lia.
Qed.

Lemma predict_advances_every_beam_witness :
  Seq2SeqModel.calls demo_search_one = [Seq2SeqModel.mk_call 0 0 true] ∧
  Forall (λ c, Seq2SeqModel.call_step c ≤ 0) (Seq2SeqModel.calls demo_search_one).
Proof.
  assert (Hcalls : Seq2SeqModel.calls demo_search_one = [Seq2SeqModel.mk_call 0 0 true])
    by (vm_compute; reflexivity).
  split; [exact Hcalls|]. apply Forall_forall.
  apply (proj2 (predict_advances_every_beam unit unit unit 5 tt
                  (λ bm _, (true, bm)) (λ st _, ((λ _, tt), st)) (λ st _ _, st) 1 tt) 0).
  - lia.
  - intros b Hb. assert (b = 0) as -> by lia.
    change (Seq2SeqModel.mk_call 0 0 true ∈ Seq2SeqModel.calls demo_search_one).
    rewrite Hcalls. by left.
Defined.

(** * Further properties of the code *)

(** ** [Vocab]: mapping lists, and units against ids *)

Lemma enumerate_from_lookup_Some (l : list string) (s : nat) (m : gmap string nat)
    (u : string) (i : nat) :
  enumerate_from s l m !! u = Some i →
  ((u ∉ l) ∧ m !! u = Some i) ∨ (s ≤ i ∧ l !! (i - s) = Some u).
Proof.
  revert s m. induction l as [|w l IH]; intros s m Hu; simpl in *.
  - left. split; [apply not_elem_of_nil|exact Hu].
  - destruct (IH _ _ Hu) as [[Hnotin Hm]|[Hle Hl]].
    + destruct (decide (w = u)) as [->|Hne].
      * rewrite lookup_insert_eq in Hm. injection Hm as <-.
        right. split; [lia|]. by rewrite Nat.sub_diag.
      * rewrite lookup_insert_ne in Hm by exact Hne.
        left. split; [|exact Hm]. apply not_elem_of_cons. split; [congruence|done].
    + right. split; [lia|]. replace (i - s) with (S (i - S s)) by lia. exact Hl.
Qed.

Lemma enumerate_from_elem (l : list string) (s : nat) (m : gmap string nat)
    (u : string) :
  u ∈ l → is_Some (enumerate_from s l m !! u).
Proof.
  revert s m. induction l as [|w l IH]; intros s m Hu; [by apply elem_of_nil in Hu|].
  simpl. destruct (decide (u ∈ l)) as [Hin|Hnotin]; [by apply IH|].
  apply elem_of_cons in Hu as [->|?]; [|done].
  rewrite enumerate_from_notin by exact Hnotin. rewrite lookup_insert_eq. eauto.
Qed.

Lemma mapM_is_Ok {A B} (f : A → result B) (l : list A) :
  (∀ x, x ∈ l → is_Ok (f x)) → is_Ok (mapM f l).
Proof.
  induction l as [|x l IH]; intros Hf; [by exists []|]. simpl.
  destruct (Hf x) as [y ->]; [by left|]. csimpl.
  destruct IH as [ys ->]; [intros z Hz; apply Hf; by right|]. by eexists.
Qed.

(** X1: [Vocab.map] raises, with [KeyError], exactly when some unit of
    the list is absent and the mapping holds no '<UNK>' either; when it
    returns, it returns one id per unit, the unit's own id where it has
    one and the id of '<UNK>' where it has none. *)
Theorem vocab_map_raises_iff (V : Vocab.t) (units : list string) :
  (Vocab.map V units = Raise KeyError ↔
     (Vocab._unit2id V !! UNK = None ∧
      ∃ u, u ∈ units ∧ Vocab._unit2id V !! u = None)) ∧
  (∀ e, Vocab.map V units = Raise e → e = KeyError) ∧
  (∀ ids, Vocab.map V units = Ok ids →
     length ids = length units ∧
     ∀ j u, units !! j = Some u →
       ids !! j = match Vocab._unit2id V !! u with
                  | Some i => Some i
                  | None => Vocab._unit2id V !! UNK
                  end).
Proof.
  assert (Hone : ∀ u, Vocab.unit2id V u =
            match Vocab._unit2id V !! u with
            | Some i => Ok i
            | None => of_option KeyError (Vocab._unit2id V !! UNK)
            end) by reflexivity.
  split_and!.
  - split.
    + intros Hr. destruct (Vocab._unit2id V !! UNK) as [unk|] eqn:Hunk.
      * destruct (mapM_is_Ok (Vocab.unit2id V) units) as [ids Hids].
        { intros u _. rewrite Hone, ?Hunk. destruct (Vocab._unit2id V !! u); by eexists. }
        unfold Vocab.map in Hr. congruence.
      * split; [reflexivity|].
        destruct (decide (Forall (λ u, is_Some (Vocab._unit2id V !! u)) units))
          as [Hall|Hex].
        -- destruct (mapM_is_Ok (Vocab.unit2id V) units) as [ids Hids].
           { intros u Hu. rewrite Forall_forall in Hall.
             destruct (Hall u Hu) as [i Hi]. rewrite Hone, Hi. by eexists. }
           unfold Vocab.map in Hr. congruence.
        -- apply not_Forall_Exists in Hex; [|apply _].
           apply Exists_exists in Hex as (u & Hu & Hnone).
           exists u. split; [exact Hu|]. by apply eq_None_not_Some.
    + intros [Hunk (u & Hu & Hnone)]. unfold Vocab.map.
      apply (mapM_Raise _ _ KeyError u); [|exact Hu|by rewrite Hone, Hnone, ?Hunk].
      intros y e' _. rewrite Hone.
      destruct (Vocab._unit2id V !! y); [discriminate|].
      destruct (Vocab._unit2id V !! UNK); [discriminate|]. by intros [= <-].
  - intros e. unfold Vocab.map. induction units as [|u units IH]; [discriminate|].
    simpl. rewrite Hone.
    destruct (Vocab._unit2id V !! u); csimpl.
    + destruct (mapM _ units); csimpl; [discriminate|]. intros [= <-]. by apply IH.
    + destruct (Vocab._unit2id V !! UNK); csimpl; [|by intros [= <-]].
      destruct (mapM _ units); csimpl; [discriminate|]. intros [= <-]. by apply IH.
  - intros ids Hids. split; [by eapply mapM_length|].
    intros j u Hj. destruct (mapM_lookup _ _ _ _ _ Hids Hj) as (i & Hi & Hu).
    rewrite Hi. rewrite Hone in Hu.
    destruct (Vocab._unit2id V !! u); [by injection Hu as ->|].
    destruct (Vocab._unit2id V !! UNK); [by injection Hu as ->|discriminate].
Qed.

(** X2: when [_unit2id] is the enumeration of [_id2unit], a unit of the
    vocabulary goes to an id that [id2unit] takes back to the unit, also
    through [__getitem__] and through [map] and [unmap]; and when
    [_id2unit] has no unit twice, an id in range goes to a unit that
    [unit2id] takes back to the id. *)
Theorem vocab_unit_id_roundtrip (V : Vocab.t) :
  Vocab._unit2id V = enumerate_dict (Vocab._id2unit V) →
  (∀ u, u ∈ Vocab._id2unit V →
     ∃ i, Vocab.unit2id V u = Ok i ∧ Vocab.id2unit V (Z.of_nat i) = Ok u ∧
          Vocab.getitem V (Vocab.KStr u) = Ok (Vocab.IId i) ∧
          Vocab.getitem V (Vocab.KInt (Z.of_nat i)) = Ok (Vocab.IUnit u)) ∧
  (∀ units, Forall (λ u, u ∈ Vocab._id2unit V) units →
     ∃ ids, Vocab.map V units = Ok ids ∧
            Vocab.unmap V (Z.of_nat <$> ids) = Ok units) ∧
  (NoDup (Vocab._id2unit V) →
   ∀ i, i < Vocab.size V →
     ∃ u, Vocab.id2unit V (Z.of_nat i) = Ok u ∧ Vocab.unit2id V u = Ok i).
Proof.
  intros Hrev.
  assert (Hunit : ∀ u, u ∈ Vocab._id2unit V →
     ∃ i, Vocab.unit2id V u = Ok i ∧ Vocab.id2unit V (Z.of_nat i) = Ok u).
  { intros u Hu.
    destruct (enumerate_from_elem (Vocab._id2unit V) 0 ∅ u Hu) as [i Hi].
    exists i. unfold Vocab.unit2id, Vocab.normalize_unit.
    rewrite Hrev. unfold enumerate_dict. rewrite Hi. split; [reflexivity|].
    apply enumerate_from_lookup_Some in Hi as [[Hn _]|[_ Hl]]; [done|].
    rewrite Nat.sub_0_r in Hl. unfold Vocab.id2unit, py_index.
    rewrite (proj2 (Z.leb_le 0 (Z.of_nat i))) by lia.
    by rewrite Nat2Z.id, Hl. }
  split_and!.
  - intros u Hu. destruct (Hunit u Hu) as (i & Hi & Hback).
    exists i. split_and!; [done..| |]; simpl; [by rewrite Hi|by rewrite Hback].
  - intros units Hall. induction Hall as [|u units Hu Hall (ids & Hids & Hback)].
    + by exists [].
    + destruct (Hunit u Hu) as (i & Hi & Hiback). exists (i :: ids).
      unfold Vocab.map, Vocab.unmap in *. simpl.
      rewrite Hi. csimpl. rewrite Hids. csimpl. rewrite Hiback. csimpl.
      by rewrite Hback.
  - intros Hnd i Hi.
    destruct (lookup_lt_is_Some_2 (Vocab._id2unit V) i Hi) as [u Hu].
    exists u. split.
    + unfold Vocab.id2unit, py_index.
      rewrite (proj2 (Z.leb_le 0 (Z.of_nat i))) by lia.
      by rewrite Nat2Z.id, Hu.
    + unfold Vocab.unit2id, Vocab.normalize_unit.
      by rewrite Hrev, (enumerate_dict_present _ i u Hnd Hu).
Qed.

Lemma vocab_unit_id_roundtrip_witness :
  (∀ u, u ∈ Vocab._id2unit vocab_abc →
     ∃ i, Vocab.unit2id vocab_abc u = Ok i ∧
          Vocab.id2unit vocab_abc (Z.of_nat i) = Ok u ∧
          Vocab.getitem vocab_abc (Vocab.KStr u) = Ok (Vocab.IId i) ∧
          Vocab.getitem vocab_abc (Vocab.KInt (Z.of_nat i)) = Ok (Vocab.IUnit u)) ∧
  (∀ units, Forall (λ u, u ∈ Vocab._id2unit vocab_abc) units →
     ∃ ids, Vocab.map vocab_abc units = Ok ids ∧
            Vocab.unmap vocab_abc (Z.of_nat <$> ids) = Ok units) ∧
  (NoDup (Vocab._id2unit vocab_abc) →
   ∀ i, i < Vocab.size vocab_abc →
     ∃ u, Vocab.id2unit vocab_abc (Z.of_nat i) = Ok u ∧ Vocab.unit2id vocab_abc u = Ok i).
Proof. apply (vocab_unit_id_roundtrip vocab_abc). reflexivity. Defined.

(** ** [ComposedVocab]: what [build_vocab] leaves *)

Lemma foldM_invariant {A S} (P : S → Prop) (body : S → A → result S)
    (l : list A) (s s' : S) :
  (∀ s x s', x ∈ l → P s → body s x = Ok s' → P s') →
  P s → ComposedVocab.foldM body s l = Ok s' → P s'.
Proof.
  revert s. induction l as [|x l IH]; intros s Hbody Hs; simpl.
  - by intros [= <-].
  - destruct (body s x) as [s1|e] eqn:Hx; csimpl; [|discriminate].
    apply IH; [|by eapply Hbody; [left|..]].
    intros s2 y s3 Hy. apply Hbody. by right.
Qed.

Section composed_invariants.
Import ComposedVocab.
Implicit Types (d : list (key * list string)) (k : key).

Lemma od_get_elem {V} (d : list (key * V)) k (v : V) :
  od_get d k = Some v → (k, v) ∈ d.
Proof.
  induction d as [|[k' v'] d IH]; simpl; [discriminate|].
  case_decide as Hk; [intros [= <-]; subst; by left|].
  intros Hd. right. by apply IH.
Qed.

Lemma od_get_NoDup {V} (d : list (key * V)) k (v : V) :
  NoDup d.*1 → (k, v) ∈ d → od_get d k = Some v.
Proof.
  induction d as [|[k' v'] d IH]; csimpl; [by intros _ ?%elem_of_nil|].
  intros [Hk' Hnd]%NoDup_cons [[= -> ->]|Hin]%elem_of_cons.
  - by rewrite decide_True.
  - rewrite decide_False; [by apply IH|].
    intros ->. apply Hk'. apply list_elem_of_fmap. by exists (k', v).
Qed.

Lemma od_set_elem {V} (d : list (key * V)) k (v : V) (x : key * V) :
  x ∈ od_set d k v → x = (k, v) ∨ x ∈ d.
Proof.
  induction d as [|[k' v'] d IH]; simpl.
  - intros ->%list_elem_of_singleton. by left.
  - case_decide.
    + intros [->|Hx]%elem_of_cons; [by left|]. right. by right.
    + intros [->|Hx]%elem_of_cons; [right; by left|].
      destruct (IH Hx) as [->|Hd]; [by left|]. right. by right.
Qed.

Lemma add_key_ok d k : fields_ok d → fields_ok (add_key d k).
Proof.
  intros [Hnd Hall]. split.
  - rewrite add_key_keys. case_decide as Hin; [exact Hnd|].
    apply NoDup_app. split_and!; [exact Hnd| |apply NoDup_singleton].
    intros x Hx ->%list_elem_of_singleton. done.
  - unfold add_key. destruct (od_mem d k); [exact Hall|].
    apply Forall_forall. intros x [->|Hx]%od_set_elem.
    + simpl. split; [apply NoDup_singleton|reflexivity].
    + rewrite Forall_forall in Hall. by apply Hall.
Qed.

Lemma add_value_ok d d' k v : fields_ok d → add_value d k v = Ok d' → fields_ok d'.
Proof.
  intros [Hnd Hall]. unfold add_value.
  destruct (od_get d k) as [vals|] eqn:Hk; csimpl; [|discriminate].
  case_decide as Hv; intros [= <-]; [by split|].
  assert (Hin : (k, vals) ∈ d) by (by apply od_get_elem).
  rewrite Forall_forall in Hall. destruct (Hall _ Hin) as [Hvals Hpad]. simpl in *.
  split.
  - rewrite od_set_keys_present; [exact Hnd|]. apply od_get_is_Some. eauto.
  - apply Forall_forall. intros x [->|Hx]%od_set_elem; [|by apply Hall].
    simpl. split.
    + apply NoDup_app. split_and!; [exact Hvals| |apply NoDup_singleton].
      intros y Hy ->%list_elem_of_singleton. done.
    + apply lookup_app_l_Some. exact Hpad.
Qed.

Lemma build_keyed_unit_ok (self : t) d d' (u : string) :
  fields_ok d → build_keyed_unit self d u = Ok d' → fields_ok d'.
Proof.
  intros Hd. unfold build_keyed_unit.
  destruct (unit2parts self u) as [[l|pd]|e]; csimpl; try discriminate.
  apply foldM_invariant; [|exact Hd].
  intros d1 [k vs] d2 _ Hd1.
  apply foldM_invariant; [|by apply add_key_ok].
  intros d3 v d4 _ Hd3. by apply add_value_ok.
Qed.

Lemma build_positional_parts_ok d d' (parts : list string) :
  fields_ok d → build_positional_parts d parts = Ok d' → fields_ok d'.
Proof.
  intros Hd. unfold build_positional_parts.
  apply foldM_invariant; [|exact Hd].
  intros d1 [i x] d2 _ Hd1. case_decide.
  - apply add_value_ok. by apply add_key_ok.
  - intros [= <-]. by apply add_key_ok.
Qed.

Lemma build_vocab_fields_ok (self V : t) :
  build_vocab self = Ok V →
  fields_ok (_id2unit V) ∧
  _unit2id V = (λ '(k, units), (k, enumerate_dict units)) <$> _id2unit V ∧
  sep V = sep self ∧ keyed V = keyed self.
Proof.
  unfold build_vocab. destruct (allunits self) as [units|e]; csimpl; [|discriminate].
  match goal with |- context [mbind _ ?r] => destruct r as [d|e] eqn:Hd end;
    csimpl; [|discriminate].
  intros [= <-]. simpl. split_and!; try reflexivity.
  assert (H0 : fields_ok []) by (split; constructor).
  destruct (keyed self).
  - revert Hd. apply foldM_invariant; [|exact H0].
    intros d1 u d2 _. apply build_keyed_unit_ok.
  - destruct (mapM _ units) as [allparts|e]; csimpl in Hd; [|discriminate].
    destruct (py_max _); csimpl in Hd; [|discriminate].
    revert Hd. apply foldM_invariant; [|exact H0].
    intros d1 u d2 _. apply build_positional_parts_ok.
Qed.

End composed_invariants.

(** X3: in both modes [build_vocab] leaves the field keys distinct and
    the two tables field by field in step: every field's list starts with
    PAD and holds no sub-unit twice, PAD has sub-id 0, and the sub-id of a
    sub-unit is its place in the list. *)
Theorem build_vocab_fields (self V : ComposedVocab.t) :
  ComposedVocab.build_vocab self = Ok V →
  NoDup (ComposedVocab.known_keys V) ∧
  Forall2 ComposedVocab.field_ok (ComposedVocab._id2unit V) (ComposedVocab._unit2id V).
Proof.
  intros Hb. destruct (build_vocab_fields_ok self V Hb) as ([Hnd Hall] & Hu & _ & _).
  unfold ComposedVocab.known_keys. rewrite Hu. split.
  - rewrite <- list_fmap_compose.
    erewrite list_fmap_ext; [exact Hnd|]. by intros i [k units] _.
  - apply Forall2_fmap_r, Forall_Forall2_diag.
    eapply Forall_impl; [exact Hall|]. intros [k units] [Hunits Hpad]. simpl in *.
    unfold ComposedVocab.field_ok. simpl. split_and!; [done..| |].
    + by apply enumerate_dict_present.
    + intros x i. split.
      * intros Hx. apply enumerate_from_lookup_Some in Hx as [[_ Hx]|[_ Hx]];
          [by rewrite lookup_empty in Hx|by rewrite Nat.sub_0_r in Hx].
      * by apply enumerate_dict_present.
Qed.

Lemma build_vocab_fields_witness :
  ∃ V, ComposedVocab.build_vocab (corpus "|" true ["Case=Nom|Number=Sing"; "_"]) = Ok V ∧
       NoDup (ComposedVocab.known_keys V) ∧
       Forall2 ComposedVocab.field_ok (ComposedVocab._id2unit V)
               (ComposedVocab._unit2id V).
Proof.
  destruct (ComposedVocab.build_vocab (corpus "|" true ["Case=Nom|Number=Sing"; "_"]))
    as [V|e] eqn:Hb; [|vm_compute in Hb; discriminate].
  exists V. split; [reflexivity|].
  exact (build_vocab_fields (corpus "|" true ["Case=Nom|Number=Sing"; "_"]) V Hb).
Defined.

(** ** [ComposedVocab]: the units of the corpus, unknown keys, no unit *)

Section composed_corpus.
Import ComposedVocab.
Implicit Types (d : list (key * list string)) (k : key).

Lemma add_key_holds d k k' v : holds d k v → holds (add_key d k') k v.
Proof.
  intros (units & Hk & Hv). unfold add_key, od_mem. case_bool_decide as Hmem; [by exists units|].
  exists units. split; [|exact Hv]. rewrite od_get_set_ne; [exact Hk|].
  intros ->. apply Hmem. eauto.
Qed.

Lemma add_value_holds d d' k k' v v' :
  add_value d k' v' = Ok d' → holds d k v → holds d' k v.
Proof.
  unfold add_value. destruct (od_get d k') as [vals|] eqn:Hk'; csimpl; [|discriminate].
  case_decide; intros [= <-]; [done|]. intros (units & Hk & Hv).
  destruct (decide (k' = k)) as [->|Hne].
  - exists (vals ++ [v']). rewrite od_get_set_eq. split; [reflexivity|].
    apply elem_of_app. left. congruence.
  - exists units. by rewrite od_get_set_ne.
Qed.

Lemma add_value_adds d d' k v : add_value d k v = Ok d' → holds d' k v.
Proof.
  unfold add_value. destruct (od_get d k) as [vals|] eqn:Hk; csimpl; [|discriminate].
  case_decide; intros [= <-]; [by exists vals|].
  exists (vals ++ [v]). rewrite od_get_set_eq. split; [reflexivity|].
  apply elem_of_app. right. by left.
Qed.

Lemma add_values_hold d d' k (vs : list string) :
  foldM (λ id2unit v, add_value id2unit k v) d vs = Ok d' →
  (∀ v, v ∈ vs → holds d' k v) ∧ (∀ k0 v0, holds d k0 v0 → holds d' k0 v0).
Proof.
  revert d. induction vs as [|v vs IH]; intros d; simpl.
  - intros [= <-]. split; [by intros v ?%elem_of_nil|done].
  - destruct (add_value d k v) as [d1|e] eqn:Hv; csimpl; [|discriminate].
    intros Hrest. destruct (IH _ Hrest) as [Hvs Hmono]. split.
    + intros v0 [->|Hin]%elem_of_cons; [|by apply Hvs].
      apply Hmono. by eapply add_value_adds.
    + intros k0 v0 H0. apply Hmono. by eapply add_value_holds.
Qed.

Lemma build_keyed_parts_hold d d' (pd : list (key * list string)) :
  foldM (λ id2unit '(k, vs),
           foldM (λ id2unit v, add_value id2unit k v) (add_key id2unit k) vs)
        d pd = Ok d' →
  (∀ k vs v, (k, vs) ∈ pd → v ∈ vs → holds d' k v) ∧
  (∀ k0 v0, holds d k0 v0 → holds d' k0 v0).
Proof.
  revert d. induction pd as [|[k vs] pd IH]; intros d; simpl.
  - intros [= <-]. split; [by intros k vs v ?%elem_of_nil|done].
  - destruct (foldM _ (add_key d k) vs) as [d1|e] eqn:Hvs; csimpl; [|discriminate].
    intros Hrest. destruct (IH _ Hrest) as [Hpd Hmono].
    destruct (add_values_hold _ _ _ _ Hvs) as [Hnew Hmono1]. split.
    + intros k0 vs0 v0 [[= -> ->]|Hin]%elem_of_cons Hv0; [|by eapply Hpd].
      by apply Hmono, Hnew.
    + intros k0 v0 H0. by apply Hmono, Hmono1, add_key_holds.
Qed.

Lemma build_keyed_units_hold (self : t) d d' (units : list string) :
  foldM (build_keyed_unit self) d units = Ok d' →
  (∀ u, u ∈ units →
     ∃ pd, unit2parts self u = Ok (PDict pd) ∧
           ∀ k vs v, (k, vs) ∈ pd → v ∈ vs → holds d' k v) ∧
  (∀ k0 v0, holds d k0 v0 → holds d' k0 v0).
Proof.
  revert d. induction units as [|u units IH]; intros d; simpl.
  - intros [= <-]. split; [by intros u ?%elem_of_nil|done].
  - destruct (build_keyed_unit self d u) as [d1|e] eqn:Hu; csimpl; [|discriminate].
    intros Hrest. destruct (IH _ Hrest) as [Hunits Hmono].
    unfold build_keyed_unit in Hu.
    destruct (unit2parts self u) as [[l|pd]|e] eqn:Hparts; csimpl in Hu;
      try discriminate.
    destruct (build_keyed_parts_hold _ _ _ Hu) as [Hpd Hmono1]. split.
    + intros u0 [->|Hin]%elem_of_cons; [|by apply Hunits].
      exists pd. split; [exact Hparts|]. intros k vs v Hk Hv. by eapply Hmono, Hpd.
    + intros k0 v0 H0. by apply Hmono, Hmono1.
Qed.

Lemma od_get_fmap {A B} (f : A → B) (d : list (key * A)) k :
  od_get ((λ '(k, a), (k, f a)) <$> d) k = f <$> od_get d k.
Proof.
  induction d as [|[k' a] d IH]; csimpl; [reflexivity|].
  case_decide; [reflexivity|exact IH].
Qed.

Lemma unit2parts_ext (self V : t) (u : string) :
  sep V = sep self → keyed V = keyed self → unit2parts V u = unit2parts self u.
Proof. intros Hs Hk. unfold unit2parts, split_unit. by rewrite Hs, Hk. Qed.

(** The keyed encoding of a unit whose values all have a sub-id. *)
Lemma keyed_unit2id_known (V : t) (unit : string) (pd : list (key * list string)) :
  keyed V = true → unit2parts V unit = Ok (PDict pd) →
  (∀ k vs x, k ∈ known_keys V → od_get pd k = Some vs → x ∈ vs →
             is_Some (tbl ← od_get (_unit2id V) k; tbl !! x)) →
  unit2id V unit =
    Ok (EKeyed ((λ k, match od_get pd k with
                      | Some vs => sub_id V k <$> vs
                      | None => [0]
                      end) <$> known_keys V)).
Proof.
  intros Hk Hparts Hknown. unfold unit2id. rewrite Hparts. csimpl.
  rewrite Hk. fold (known_keys V).
  rewrite (mapM_Ok _ (λ k, match od_get pd k with
                           | Some vs => sub_id V k <$> vs
                           | None => [0]
                           end)); [reflexivity|].
  intros k Hin. destruct (od_get pd k) as [vs|] eqn:Hvs; [|reflexivity].
  destruct (proj2 (od_get_is_Some (_unit2id V) k) Hin) as [tbl Htbl].
  rewrite Htbl. csimpl. apply mapM_Ok. intros x Hx.
  destruct (Hknown k vs x Hin Hvs Hx) as [i Hi].
  unfold sub_id. rewrite Htbl in Hi |- *. csimpl in *. by rewrite Hi.
Qed.

Lemma mapM_ext_in {A B} (f g : A → result B) (l : list A) :
  (∀ x, x ∈ l → f x = g x) → mapM f l = mapM g l.
Proof.
  induction l as [|x l IH]; intros Hfg; [reflexivity|]. simpl.
  rewrite Hfg by left. rewrite IH; [reflexivity|].
  intros y Hy. apply Hfg. by right.
Qed.

End composed_corpus.

(** X4: a vocabulary built in keyed mode encodes every unit of its own
    corpus: [unit2id] raises for none of them, and gives for every field
    key the sub-ids of the values the unit carries there, or [[0]]. *)
Theorem keyed_corpus_units_encode (self V : ComposedVocab.t) :
  ComposedVocab.keyed self = true →
  ComposedVocab.build_vocab self = Ok V →
  ∃ units,
    ComposedVocab.allunits self = Ok units ∧
    ∀ u, u ∈ units →
      ∃ pd, ComposedVocab.unit2parts V u = Ok (ComposedVocab.PDict pd) ∧
            ComposedVocab.unit2id V u =
              Ok (ComposedVocab.EKeyed
                    ((λ k, match od_get pd k with
                           | Some vs => ComposedVocab.sub_id V k <$> vs
                           | None => [0]
                           end) <$> ComposedVocab.known_keys V)).
Proof.
  intros Hk Hb.
  destruct (build_vocab_fields_ok self V Hb) as (_ & Hu & Hsep & Hkeyed).
  revert Hb. unfold ComposedVocab.build_vocab.
  destruct (ComposedVocab.allunits self) as [units|e]; csimpl; [|discriminate].
  rewrite Hk.
  destruct (ComposedVocab.foldM _ [] units) as [d|e] eqn:Hd; csimpl; [|discriminate].
  intros [= HV]. exists units. split; [reflexivity|].
  intros u Hin. destruct (build_keyed_units_hold self [] d units Hd) as [Hunits _].
  destruct (Hunits u Hin) as (pd & Hparts & Hpd).
  exists pd. rewrite (unit2parts_ext self V u Hsep Hkeyed). split; [exact Hparts|].
  apply keyed_unit2id_known; [congruence|by rewrite (unit2parts_ext self V u)|].
  intros k vs x _ Hvs Hx.
  destruct (Hpd k vs x (od_get_elem _ _ _ Hvs) Hx) as (l & Hl & Hxl).
  rewrite Hu, od_get_fmap. rewrite <- HV. simpl. rewrite Hl. simpl.
  by apply enumerate_from_elem.
Qed.

Lemma keyed_corpus_units_encode_witness :
  ∃ V, ComposedVocab.build_vocab
         (corpus "|" true ["Case=Nom|Number=Sing"; "_"; "Number=Plur,Sing"]) = Ok V ∧
  ∃ units,
    ComposedVocab.allunits
      (corpus "|" true ["Case=Nom|Number=Sing"; "_"; "Number=Plur,Sing"]) = Ok units ∧
    ∀ u, u ∈ units →
      ∃ pd, ComposedVocab.unit2parts V u = Ok (ComposedVocab.PDict pd) ∧
            ComposedVocab.unit2id V u =
              Ok (ComposedVocab.EKeyed
                    ((λ k, match od_get pd k with
                           | Some vs => ComposedVocab.sub_id V k <$> vs
                           | None => [0]
                           end) <$> ComposedVocab.known_keys V)).
Proof.
  destruct (ComposedVocab.build_vocab
              (corpus "|" true ["Case=Nom|Number=Sing"; "_"; "Number=Plur,Sing"]))
    as [V|e] eqn:Hb; [|vm_compute in Hb; discriminate].
  exists V. split; [reflexivity|].
  exact (keyed_corpus_units_encode
           (corpus "|" true ["Case=Nom|Number=Sing"; "_"; "Number=Plur,Sing"]) V
           eq_refl Hb).
Defined.

(** X5: in keyed mode an attribute whose key was not seen at build time
    is passed over: two units that carry the same values at the known
    field keys have the same encoding, and raise or not alike.  So
    "Case=Nom|Tense=Past" encodes as "Case=Nom" does where "Tense" is
    unknown. *)
Theorem keyed_unknown_keys_ignored (V : ComposedVocab.t) (u1 u2 : string)
    (d1 d2 : list (ComposedVocab.key * list string)) :
  ComposedVocab.keyed V = true →
  ComposedVocab.unit2parts V u1 = Ok (ComposedVocab.PDict d1) →
  ComposedVocab.unit2parts V u2 = Ok (ComposedVocab.PDict d2) →
  (∀ k, k ∈ ComposedVocab.known_keys V → od_get d1 k = od_get d2 k) →
  ComposedVocab.unit2id V u1 = ComposedVocab.unit2id V u2.
Proof.
  intros Hk H1 H2 Hsame. unfold ComposedVocab.unit2id. rewrite H1, H2. csimpl.
  rewrite Hk. f_equal. apply mapM_ext_in. intros k Hin.
  by rewrite (Hsame k Hin).
Qed.

Lemma keyed_unknown_keys_ignored_witness :
  ∃ V, ComposedVocab.build_vocab (corpus "|" true ["Case=Nom|Number=Sing"; "_"]) = Ok V ∧
       ComposedVocab.unit2id V "Case=Nom|Tense=Past" = ComposedVocab.unit2id V "Case=Nom" ∧
       ComposedVocab.unit2id V "Case=Nom" = Ok (ComposedVocab.EKeyed [[1]; [0]]).
Proof.
  destruct (ComposedVocab.build_vocab (corpus "|" true ["Case=Nom|Number=Sing"; "_"]))
    as [V|e] eqn:Hb; [|vm_compute in Hb; discriminate].
  exists V. split; [reflexivity|].
  assert (HV : V = match ComposedVocab.build_vocab
                           (corpus "|" true ["Case=Nom|Number=Sing"; "_"])
                   with Ok V => V | Raise _ => V end) by (by rewrite Hb).
  split.
  - apply (keyed_unknown_keys_ignored V _ _
             [(ComposedVocab.Name "Case", ["Nom"]); (ComposedVocab.Name "Tense", ["Past"])]
             [(ComposedVocab.Name "Case", ["Nom"])]).
    + rewrite HV. vm_compute. reflexivity.
    + rewrite HV. vm_compute. reflexivity.
    + rewrite HV. vm_compute. reflexivity.
    + rewrite HV. intros k Hin. vm_compute in Hin.
      apply elem_of_cons in Hin as [->|Hin]; [reflexivity|].
      apply list_elem_of_singleton in Hin as ->. reflexivity.
  - rewrite HV. vm_compute. reflexivity.
Defined.

(** X6: on a corpus without a unit [build_vocab] raises [ValueError] in
    positional mode (the longest unit of none), while in keyed mode it
    builds a vocabulary without fields, in which every unit that reads as
    an attribute list encodes to the empty list. *)
Theorem build_vocab_no_unit (self : ComposedVocab.t) :
  ComposedVocab.allunits self = Ok [] →
  if ComposedVocab.keyed self then
    ∃ V, ComposedVocab.build_vocab self = Ok V ∧
         ComposedVocab._id2unit V = [] ∧ ComposedVocab._unit2id V = [] ∧
         ∀ u pd, ComposedVocab.unit2parts V u = Ok (ComposedVocab.PDict pd) →
                 ComposedVocab.unit2id V u = Ok (ComposedVocab.EKeyed [])
  else ComposedVocab.build_vocab self = Raise ValueError.
Proof.
  intros Hunits. unfold ComposedVocab.build_vocab. rewrite Hunits. csimpl.
  destruct (ComposedVocab.keyed self) eqn:Hk; csimpl; [|reflexivity].
  eexists. split; [reflexivity|]. simpl. split_and!; [reflexivity..|].
  intros u pd Hparts. unfold ComposedVocab.unit2id. rewrite Hparts. reflexivity.
Qed.

Lemma build_vocab_no_unit_witness :
  (∃ V, ComposedVocab.build_vocab (corpus "|" true []) = Ok V ∧
        ComposedVocab._id2unit V = [] ∧ ComposedVocab._unit2id V = [] ∧
        ∀ u pd, ComposedVocab.unit2parts V u = Ok (ComposedVocab.PDict pd) →
                ComposedVocab.unit2id V u = Ok (ComposedVocab.EKeyed [])) ∧
  ComposedVocab.build_vocab (corpus "" false []) = Raise ValueError.
Proof.
  split.
  - exact (build_vocab_no_unit (corpus "|" true []) eq_refl).
  - exact (build_vocab_no_unit (corpus "" false []) eq_refl).
Defined.

(** ** [unit2parts]: nothing of the unit is lost *)

Lemma sapp_cons (x : Ascii.ascii) (a b : string) :
  String x a +:+ b = String x (a +:+ b).
Proof. reflexivity. Qed.

Lemma sapp_assoc (a b c : string) : (a +:+ b) +:+ c = a +:+ (b +:+ c).
Proof.
  induction a as [|x a IH]; [reflexivity|].
  change (String x ((a +:+ b) +:+ c) = String x (a +:+ (b +:+ c))). by f_equal.
Qed.

Lemma sapp_nil_r (a : string) : a +:+ EmptyString = a.
Proof.
  induction a as [|x a IH]; [reflexivity|].
  change (String x (a +:+ EmptyString) = String x a). by f_equal.
Qed.

Lemma starts_with_sdrop (p s : string) :
  starts_with p s = true → s = p +:+ sdrop (String.length p) s.
Proof.
  revert s. induction p as [|a p IH]; intros s; [reflexivity|].
  destruct s as [|b s]; simpl; [discriminate|].
  intros [->%bool_decide_eq_true Hp]%andb_true_iff.
  rewrite sapp_cons. f_equal. by apply IH.
Qed.

Lemma split_go_nonempty (sep : string) (skip : nat) (cur s : string) :
  split_go sep skip cur s ≠ [].
Proof.
  revert skip cur. induction s as [|c s IH]; intros skip cur; simpl; [discriminate|].
  destruct skip; [|apply IH]. destruct (starts_with sep (String c s)); [discriminate|apply IH].
Qed.

Lemma join_cons (sep x : string) (l : list string) :
  l ≠ [] → join sep (x :: l) = x +:+ sep +:+ join sep l.
Proof. by destruct l. Qed.

Lemma split_go_join (sep : string) (skip : nat) (cur s : string) :
  sep ≠ EmptyString →
  join sep (split_go sep skip cur s) = cur +:+ sdrop skip s.
Proof.
  intros Hsep. revert skip cur. induction s as [|c s IH]; intros skip cur.
  - simpl. destruct skip; by rewrite sapp_nil_r.
  - destruct skip as [|k]; [|apply IH]. cbn [split_go sdrop].
    destruct (starts_with sep (String c s)) eqn:Hstart.
    + rewrite join_cons by apply split_go_nonempty. rewrite IH.
      f_equal. destruct sep as [|a sep]; [done|]. simpl in Hstart.
      apply andb_true_iff in Hstart as [->%bool_decide_eq_true Hp].
      cbn [String.length Nat.sub]. rewrite Nat.sub_0_r, sapp_cons. f_equal.
      change (EmptyString +:+ sdrop (String.length sep) s)
        with (sdrop (String.length sep) s).
      symmetry. by apply starts_with_sdrop.
    + rewrite IH, sapp_assoc. by destruct s.
Qed.

Lemma join_chars (unit : string) : join EmptyString (chars unit) = unit.
Proof.
  induction unit as [|c unit IH]; [reflexivity|].
  cbn [chars]. destruct unit as [|c' unit]; [reflexivity|].
  rewrite join_cons by discriminate. rewrite IH. reflexivity.
Qed.

Lemma length_chars (unit : string) : length (chars unit) = String.length unit.
Proof. induction unit as [|c unit IH]; simpl; [reflexivity|]. by rewrite IH. Qed.

(** X7: in positional mode [unit2parts] raises for no unit and loses
    nothing of it: joining the parts with the separator gives the unit
    back.  With the empty separator there is one part per character; with
    any other there is at least one part, the empty unit having the one
    empty part. *)
Theorem positional_parts_lossless (self : ComposedVocab.t) (unit : string) :
  ComposedVocab.keyed self = false →
  ∃ parts,
    ComposedVocab.unit2parts self unit = Ok (ComposedVocab.PList parts) ∧
    join (ComposedVocab.sep self) parts = unit ∧
    (ComposedVocab.sep self = EmptyString → length parts = String.length unit) ∧
    (ComposedVocab.sep self ≠ EmptyString → parts ≠ []).
Proof.
  intros Hk. exists (ComposedVocab.split_unit self unit).
  split; [by apply unit2parts_positional|].
  unfold ComposedVocab.split_unit.
  destruct (decide (ComposedVocab.sep self = EmptyString)) as [->|Hsep].
  - split_and!; [apply join_chars|intros _; apply length_chars|done].
  - split_and!; [|done|intros _; apply split_go_nonempty].
    unfold split. by rewrite split_go_join.
Qed.

Lemma positional_parts_lossless_witness :
  ∃ parts,
    ComposedVocab.unit2parts (corpus "--" false []) "a--b----c-" = Ok (ComposedVocab.PList parts) ∧
    join "--" parts = "a--b----c-" ∧
    (ComposedVocab.sep (corpus "--" false []) = EmptyString →
       length parts = String.length "a--b----c-") ∧
    (ComposedVocab.sep (corpus "--" false []) ≠ EmptyString → parts ≠ []).
Proof. exact (positional_parts_lossless (corpus "--" false []) "a--b----c-" eq_refl). Defined.

Example split_unit_dashes :
  ComposedVocab.split_unit (corpus "--" false []) "a--b----c-" = ["a"; "b"; ""; "c-"].
Proof. reflexivity. Qed.

(** ** [ComposedVocab.__init__]: build once, load ever after *)


Section composed_codec_laws.
Import Codec.




End composed_codec_laws.


(** ** [DataLoader.__init__]: chunks and shuffle *)

Lemma concat_chunks {A} (data : list A) (k m : nat) :
  concat ((λ i, take k (drop i data)) <$> ((λ q, q * k) <$> seq 0 m))
  = take (m * k) data.
Proof.
  induction m as [|m IH]; [reflexivity|].
  rewrite seq_S, !fmap_app, concat_app, IH. simpl.
  rewrite app_nil_r, take_take_drop. f_equal. lia.
Qed.

Lemma ceil_div_bounds (n k : nat) :
  0 < k → n ≤ (n + k - 1) / k * k ∧ ∀ q, q < (n + k - 1) / k → q * k < n.
Proof.
  intros Hk.
  pose proof (Nat.div_mod_eq (n + k - 1) k) as Hdm.
  pose proof (Nat.mod_upper_bound (n + k - 1) k ltac:(lia)) as Hmod.
  split; [nia|]. intros q Hq. nia.
Qed.

(** X9: chunking with a positive batch size loses no example and keeps
    the order: the chunks concatenated are the data; there are
    ceil(n / batch_size) of them, none empty, none longer than the batch
    size, and all but the last of exactly the batch size.  A batch size of
    zero raises [ValueError]; a negative one raises nothing and gives no
    chunk at all. *)
Theorem chunk_partition {A} (data : list A) (batch_size : Z) :
  (batch_size = 0%Z → chunk data batch_size = Raise ValueError) ∧
  ((batch_size < 0)%Z → chunk data batch_size = Ok []) ∧
  ((0 < batch_size)%Z →
     ∃ chunks,
       chunk data batch_size = Ok chunks ∧
       concat chunks = data ∧
       length chunks = (length data + Z.to_nat batch_size - 1) / Z.to_nat batch_size ∧
       Forall (λ c, 0 < length c ≤ Z.to_nat batch_size) chunks ∧
       ∀ j c, chunks !! j = Some c → S j < length chunks →
              length c = Z.to_nat batch_size).
Proof.
  unfold chunk, range_step. split_and!.
  - intros ->. reflexivity.
  - intros Hneg. rewrite decide_False, decide_True by lia. reflexivity.
  - intros Hpos. rewrite decide_False, decide_False by lia. csimpl.
    set (k := Z.to_nat batch_size). assert (Hk : 0 < k) by lia.
    set (m := (length data + k - 1) / k).
    destruct (ceil_div_bounds (length data) k Hk) as [Hcover Hstart]. fold m in Hcover, Hstart.
    eexists. split; [reflexivity|]. split_and!.
    + rewrite concat_chunks. apply take_ge. lia.
    + by rewrite !length_fmap, length_seq.
    + apply Forall_fmap, Forall_fmap, Forall_forall. intros q Hq%elem_of_seq. simpl.
      rewrite length_take, length_drop. specialize (Hstart q). lia.
    + intros j c Hj Hlast. rewrite !length_fmap, length_seq in Hlast.
      rewrite !list_lookup_fmap, lookup_seq_lt in Hj by lia. simpl in Hj.
      injection Hj as <-. rewrite length_take, length_drop.
      specialize (Hstart (S j)). lia.
Qed.

Lemma chunk_partition_witness :
  ∃ chunks,
    chunk [1; 2; 3; 4; 5] 2 = Ok chunks ∧
    concat chunks = [1; 2; 3; 4; 5] ∧
    length chunks = (length [1; 2; 3; 4; 5] + Z.to_nat 2 - 1) / Z.to_nat 2 ∧
    Forall (λ c, 0 < length c ≤ Z.to_nat 2) chunks ∧
    ∀ j c, chunks !! j = Some c → S j < length chunks → length c = Z.to_nat 2.
Proof. apply (proj2 (proj2 (chunk_partition [1; 2; 3; 4; 5] 2))). reflexivity. Defined.

Example chunk_five_by_two : chunk [1; 2; 3; 4; 5] 2 = Ok [[1; 2]; [3; 4]; [5]].
Proof. reflexivity. Qed.

Lemma mapM_fmap {A B C} (f : B → result C) (g : A → B) (l : list A) :
  mapM f (g <$> l) = mapM (f ∘ g) l.
Proof. induction l as [|x l IH]; csimpl; [reflexivity|]. by rewrite IH. Qed.

Lemma mapM_lookups {A} (data : list A) (perm : list nat) :
  Forall (λ i, i < length data) perm →
  ∃ data', mapM (py_index data ∘ Z.of_nat) perm = Ok data' ∧
           Some <$> data' = (λ i, data !! i) <$> perm.
Proof.
  induction 1 as [|i perm Hi _ (data' & Hm & Hl)]; [by exists []|].
  destruct (lookup_lt_is_Some_2 data i Hi) as [x Hx].
  assert (Hidx : (py_index data ∘ Z.of_nat) i = Ok x).
  { unfold compose, py_index.
    rewrite (proj2 (Z.leb_le 0 (Z.of_nat i))) by lia. by rewrite Nat2Z.id, Hx. }
  exists (x :: data'). cbn [mapM]. rewrite Hidx. cbn [mbind result_bind mret result_ret].
  rewrite Hm. cbn [mbind result_bind]. split; [reflexivity|].
  rewrite !fmap_cons, Hl, Hx. reflexivity.
Qed.

Lemma fmap_lookup_seq {A} (data : list A) :
  (λ i, data !! i) <$> seq 0 (length data) = Some <$> data.
Proof.
  apply list_eq. intros i. rewrite !list_lookup_fmap.
  destruct (decide (i < length data)) as [Hi|Hi].
  - rewrite lookup_seq_lt by done. simpl.
    by destruct (lookup_lt_is_Some_2 data i Hi) as [x ->].
  - rewrite lookup_seq_ge, lookup_ge_None_2 by lia. reflexivity.
Qed.

Lemma omap_Some {A} (l : list A) : omap id (Some <$> l) = l.
Proof. induction l as [|x l IH]; csimpl; [reflexivity|]. by rewrite IH. Qed.

(** X10: the shuffle of [__init__] keeps the examples: when [indices] is
    a rearrangement of [range(len(data))], indexing the data by it raises
    nothing and gives a rearrangement of the data, every example once. *)
Theorem shuffle_keeps_examples {A} (data : list A) (perm : list nat) :
  perm ≡ₚ seq 0 (length data) →
  ∃ data', shuffle_data data (Some (Z.of_nat <$> perm)) = Ok data' ∧
           data' ≡ₚ data ∧
           ∀ j i, perm !! j = Some i → data' !! j = data !! i.
Proof.
  intros Hperm. simpl. rewrite mapM_fmap.
  destruct (mapM_lookups data perm) as (data' & -> & Hl).
  { rewrite Hperm. apply Forall_forall. intros i Hi%elem_of_seq. lia. }
  exists data'. split; [reflexivity|]. split.
  - rewrite <- (omap_Some data'), <- (omap_Some data), Hl, Hperm.
    by rewrite fmap_lookup_seq.
  - intros j i Hj. apply (f_equal (λ l, l !! j)) in Hl.
    rewrite !list_lookup_fmap, Hj in Hl. simpl in Hl.
    destruct (data' !! j) as [x|]; simpl in Hl; [|discriminate].
    by injection Hl as <-.
Qed.

Lemma shuffle_keeps_examples_witness :
  ∃ data', shuffle_data ["a"; "b"; "c"] (Some (Z.of_nat <$> [2; 0; 1])) = Ok data' ∧
           data' ≡ₚ ["a"; "b"; "c"] ∧
           ∀ j i, [2; 0; 1] !! j = Some i → data' !! j = ["a"; "b"; "c"] !! i.
Proof.
  apply (shuffle_keeps_examples ["a"; "b"; "c"] [2; 0; 1]).
  apply (Permutation_cons_append [0; 1] 2).
Defined.

(** ** [DataLoader.__getitem__]: the keys *)

(** X11: [__getitem__] raises [IndexError] exactly for a key outside
    [[0, len(data))]: a negative key does not count from the end.  Both
    loaders. *)
Theorem getitem_index_error :
  (∀ (data : list (list LemmaLoader.example)) (key : Z),
     LemmaLoader.getitem data key = Raise IndexError ↔
     ¬ (0 ≤ key < Z.of_nat (length data))%Z) ∧
  (∀ (data : list (list MwtLoader.example)) (key : Z),
     MwtLoader.getitem data key = Raise IndexError ↔
     ¬ (0 ≤ key < Z.of_nat (length data))%Z).
Proof.
  split; intros data key.
  - destruct (decide (0 ≤ key < Z.of_nat (length data))%Z) as [Hin|Hout].
    + split; [|done]. intros Hr. exfalso. revert Hr. unfold LemmaLoader.getitem.
      rewrite bool_decide_eq_false_2, bool_decide_eq_false_2 by lia.
      destruct (lookup_lt_is_Some_2 data (Z.to_nat key)) as [c ->]; [lia|].
      cbn [orb of_option mbind result_bind]. case_decide; [discriminate|].
      destruct (sort_all c _). by case_decide.
    + split; [done|]. intros _. unfold LemmaLoader.getitem.
      destruct (decide (key < 0)%Z).
      * by rewrite bool_decide_eq_true_2.
      * rewrite (bool_decide_eq_true_2 (key >= _)%Z) by lia. by rewrite orb_true_r.
  - destruct (decide (0 ≤ key < Z.of_nat (length data))%Z) as [Hin|Hout].
    + split; [|done]. intros Hr. exfalso. revert Hr. unfold MwtLoader.getitem.
      rewrite bool_decide_eq_false_2, bool_decide_eq_false_2 by lia.
      destruct (lookup_lt_is_Some_2 data (Z.to_nat key)) as [c ->]; [lia|].
      cbn [orb of_option mbind result_bind]. case_decide; [discriminate|].
      destruct (sort_all c _). by case_decide.
    + split; [done|]. intros _. unfold MwtLoader.getitem.
      destruct (decide (key < 0)%Z).
      * by rewrite bool_decide_eq_true_2.
      * rewrite (bool_decide_eq_true_2 (key >= _)%Z) by lia. by rewrite orb_true_r.
Qed.

Example getitem_negative_key :
  (data ← demo_lemma_loader; LemmaLoader.getitem data (-1)) = Raise IndexError.
Proof. vm_compute. reflexivity. Qed.

(** ** [DataLoader.__iter__]: all batches, and the order of the corpus *)

Lemma mapM_app {A B} (f : A → result B) (l1 l2 : list A) :
  mapM f (l1 ++ l2) = (r1 ← mapM f l1; r2 ← mapM f l2; Ok (r1 ++ r2)).
Proof.
  induction l1 as [|x l1 IH]; csimpl.
  - by destruct (mapM f l2).
  - destruct (f x); csimpl; [|reflexivity]. rewrite IH.
    destruct (mapM f l1); csimpl; [|reflexivity]. by destruct (mapM f l2).
Qed.

Lemma mapM_seq_lookup {A B} (f : Z → result B) (g : A → B) (l : list A) :
  (∀ j c, l !! j = Some c → f (Z.of_nat j) = Ok (g c)) →
  mapM f (Z.of_nat <$> seq 0 (length l)) = Ok (g <$> l).
Proof.
  induction l as [|c l IH] using rev_ind; intros Hf; [reflexivity|].
  rewrite length_app. cbn [length]. replace (length l + 1) with (S (length l)) by lia.
  rewrite seq_S, fmap_app, mapM_app, IH.
  - cbn [mbind result_bind fmap list_fmap mapM Nat.add].
    rewrite (Hf (length l) c) by (by rewrite lookup_app_r, Nat.sub_diag by lia).
    cbn [mbind result_bind]. by rewrite fmap_app.
  - intros j c' Hj. apply Hf. by rewrite lookup_app_l by (by eapply lookup_lt_Some).
Qed.

Lemma concat_fmap {A B} (f : A → B) (ls : list (list A)) :
  concat (fmap (M:=list) (fmap (M:=list) f) ls) = fmap (M:=list) f (concat ls).
Proof.
  induction ls as [|l ls IH]; [reflexivity|]. csimpl. by rewrite fmap_app, IH.
Qed.

Lemma chunk_concat {A} (data : list A) (batch_size : Z) (chunks : list (list A)) :
  (0 < batch_size)%Z → chunk data batch_size = Ok chunks → concat chunks = data.
Proof.
  intros Hpos. unfold chunk, range_step.
  rewrite decide_False, decide_False by lia. csimpl. intros [= <-].
  rewrite concat_chunks. apply take_ge.
  destruct (ceil_div_bounds (length data) (Z.to_nat batch_size)); lia.
Qed.

(** X12: a loader made in evaluation mode (no shuffle) with a positive
    batch size iterates over one batch per chunk and raises nothing;
    putting every batch back in order by its [orig_idx] and concatenating
    the batches gives the tag ids and the edit ids of the examples in the
    order of the corpus ([sort_all] and [unsort] being as the
    specification has them). *)
Theorem iter_restores_corpus_order
    (SOS EOS : string) (UNK_ID : nat) (edit_type_id : string → string → result nat)
    (raw : list LemmaLoader.raw) (vocab pos_vocab : gmap string nat)
    (batch_size : Z) (processed : list LemmaLoader.example) :
  LemmaLoader.preprocess SOS EOS UNK_ID edit_type_id raw vocab pos_vocab = Ok processed →
  (0 < batch_size)%Z →
  ∃ data batches,
    LemmaLoader.init SOS EOS UNK_ID edit_type_id raw vocab pos_vocab None batch_size
      = Ok data ∧
    concat data = processed ∧
    LemmaLoader.iter data = Ok batches ∧
    length batches = length data ∧
    concat ((λ b, unsort (LemmaLoader.b_pos b) (LemmaLoader.b_orig_idx b)) <$> batches)
      = Some <$> (LemmaLoader.ex_pos <$> processed) ∧
    concat ((λ b, unsort (LemmaLoader.b_edits b) (LemmaLoader.b_orig_idx b)) <$> batches)
      = Some <$> (LemmaLoader.ex_edit <$> processed).
Proof.
  intros Hp Hpos.
  destruct (chunk processed batch_size) as [data|e] eqn:Hc.
  2:{ revert Hc. unfold chunk, range_step.
      rewrite decide_False, decide_False by lia. discriminate. }
  assert (Hinit : LemmaLoader.init SOS EOS UNK_ID edit_type_id raw vocab pos_vocab
                    None batch_size = Ok data).
  { unfold LemmaLoader.init. rewrite Hp. csimpl. exact Hc. }
  pose proof (chunk_concat _ _ _ Hpos Hc) as Hconcat.
  pose proof (init_chunks _ _ _ _ _ _ _ _ _ _ Hinit) as Hchunks.
  rewrite Forall_lookup in Hchunks.
  assert (Hiter : LemmaLoader.iter data = Ok (LemmaLoader.batch_of <$> data)).
  { unfold LemmaLoader.iter. apply mapM_seq_lookup. intros j c Hj.
    destruct (Hchunks j c Hj) as [Hne Ha].
    apply getitem_chunk; [lia|by rewrite Nat2Z.id|done..]. }
  exists data, (LemmaLoader.batch_of <$> data).
  split_and!; [done..|by rewrite length_fmap| |].
  - rewrite <- Hconcat.
    trans (concat ((λ c : list LemmaLoader.example,
                      Some <$> (LemmaLoader.ex_pos <$> c)) <$> data)).
    + f_equal. rewrite <- list_fmap_compose. apply list_fmap_ext. intros j c _. unfold compose.
      by destruct (batch_of_spec c) as (_ & _ & _ & _ & _ & _ & -> & _).
    + rewrite <- !concat_fmap, <- list_fmap_compose. reflexivity.
  - rewrite <- Hconcat.
    trans (concat ((λ c : list LemmaLoader.example,
                      Some <$> (LemmaLoader.ex_edit <$> c)) <$> data)).
    + f_equal. rewrite <- list_fmap_compose. apply list_fmap_ext. intros j c _. unfold compose.
      by destruct (batch_of_spec c) as (_ & _ & _ & _ & _ & _ & _ & ->).
    + rewrite <- !concat_fmap, <- list_fmap_compose. reflexivity.
Qed.

Lemma iter_restores_corpus_order_witness :
  ∃ data batches,
    demo_lemma_loader = Ok data ∧
    concat data
      = [LemmaLoader.mk_example [2; 4; 5; 6; 7; 3] [2; 4; 5; 6] [4; 5; 6; 3] 2 0;
         LemmaLoader.mk_example [2; 5; 3] [2; 5] [5; 3] 1 0;
         LemmaLoader.mk_example [2; 8; 5; 9; 3] [2; 8; 10; 9] [8; 10; 9; 3] 3 0] ∧
    LemmaLoader.iter data = Ok batches ∧
    length batches = length data ∧
    concat ((λ b, unsort (LemmaLoader.b_pos b) (LemmaLoader.b_orig_idx b)) <$> batches)
      = [Some 2; Some 1; Some 3] ∧
    concat ((λ b, unsort (LemmaLoader.b_edits b) (LemmaLoader.b_orig_idx b)) <$> batches)
      = [Some 0; Some 0; Some 0].
Proof.
  exact (iter_restores_corpus_order "<SOS>" "<EOS>" 1 (λ _ _, Ok 0) demo_raw
           demo_chars demo_tags 3 _ eq_refl eq_refl).
Defined.

(** ** The decoding loops: what they never exceed *)

(** X13: [predict_greedy] returns one sequence per example of the
    batch; no sequence is longer than [max_dec_len] and none holds the
    end-of-sequence token; the decoder is called [k] times for some
    [k ≤ max_dec_len], and with [max_dec_len = 0] not at all, every
    sequence being empty. *)
Theorem predict_greedy_bounds
    (state : Type) (EOS_ID : Z) (max_dec_len : nat)
    (decode_greedy : state → (nat → Z) * state) (batch_size : nat) (dec0 : state) :
  let run := Seq2SeqModel.greedy_run state EOS_ID max_dec_len decode_greedy
               batch_size dec0 in
  let out := Seq2SeqModel.predict_greedy state EOS_ID max_dec_len decode_greedy
               batch_size dec0 in
  length out = batch_size ∧
  Forall (λ sq, length sq ≤ max_dec_len ∧ EOS_ID ∉ sq) out ∧
  (∃ k, k ≤ max_dec_len ∧ Seq2SeqModel.max_len run = k ∧
        Seq2SeqModel.dec run = Seq2SeqModel.dec_at state decode_greedy dec0 k) ∧
  (max_dec_len = 0 → Forall (λ sq, sq = []) out ∧ Seq2SeqModel.dec run = dec0).
Proof.
  intros run out.
  destruct (greedy_loop_after EOS_ID max_dec_len decode_greedy batch_size dec0
              max_dec_len 0) as (k & Hrun & Hk & _ & _); [lia|lia|].
  rewrite <- greedy_init_after in Hrun.
  assert (Hout : out = (λ i, filter (λ token, token ≠ EOS_ID)
                    ((λ t, Seq2SeqModel.preds_at state decode_greedy dec0 t i)
                       <$> seq 0 k)) <$> seq 0 batch_size).
  { subst out. unfold Seq2SeqModel.predict_greedy, Seq2SeqModel.greedy_run.
    by rewrite Hrun. }
  assert (Hr : run = Seq2SeqModel.greedy_after state EOS_ID decode_greedy
                       batch_size dec0 k) by exact Hrun.
  split_and!.
  - by rewrite Hout, length_fmap, length_seq.
  - rewrite Hout. apply Forall_fmap, Forall_forall. intros i _. simpl. split.
    + etrans; [apply length_filter|]. by rewrite length_fmap, length_seq.
    + intros Hin%list_elem_of_filter. by destruct Hin.
  - exists k. by rewrite Hr.
  - intros ->. assert (k = 0) as -> by lia. rewrite Hr, Hout. split; [|reflexivity].
    apply Forall_fmap, Forall_forall. by intros i _.
Qed.

Lemma length_calls_of (results : list (list bool)) (n : nat) :
  Forall (λ ds, length ds = n) results →
  length (Seq2SeqModel.calls_of results) = n * length results.
Proof.
  unfold Seq2SeqModel.calls_of.
  assert (Hgen : ∀ t0,
    Forall (λ ds, length ds = n) results →
    length (concat (imap (λ t ds, imap (Seq2SeqModel.mk_call (t0 + t)) ds) results))
    = n * length results).
  { induction results as [|ds results IH]; intros t0 Hall; simpl; [lia|].
    apply Forall_cons in Hall as [Hds Hall].
    rewrite length_app, length_imap, Hds.
    erewrite imap_ext; [rewrite (IH (S t0) Hall); lia|].
    intros t ds' _. simpl. do 2 f_equal. lia. }
  intros Hall. apply (Hgen 0 Hall).
Qed.

(** X14: [predict] never goes past its budget.  It runs some number of
    steps, at most [max_dec_len], and calls [advance] once per beam of
    the batch at each of them: [batch_size] × steps calls in all, none
    on a beam outside the batch and none at a later step.  With
    [max_dec_len = 0] or an empty batch it makes no call. *)
Theorem predict_budget
    (state beam logp : Type) (max_dec_len : nat) (new_beam : beam)
    (advance : beam → logp → bool * beam)
    (decode_beam : state → list beam → (nat → logp) * state)
    (update_state : state → nat → beam → state)
    (batch_size : nat) (hidden0 : state) :
  let tr := Seq2SeqModel.calls
              (Seq2SeqModel.predict_search state max_dec_len beam logp new_beam
                 advance decode_beam update_state batch_size hidden0) in
  ∃ steps,
    steps ≤ max_dec_len ∧
    length tr = batch_size * steps ∧
    Forall (λ c, Seq2SeqModel.call_beam c < batch_size
                 ∧ Seq2SeqModel.call_step c < steps) tr ∧
    (∀ t b, t < steps → b < batch_size →
            ∃ d, Seq2SeqModel.mk_call t b d ∈ tr).
Proof.
  intros tr.
  destruct (search_loop_spec advance decode_beam update_state batch_size
              (Seq2SeqModel.mk_search (replicate batch_size new_beam) hidden0 [])
              0 max_dec_len)
    as (results & Hc & Hlens & Hr & _ & _).
  { simpl. apply length_replicate. }
  assert (Htr : tr = Seq2SeqModel.calls_of results).
  { subst tr. unfold Seq2SeqModel.predict_search. rewrite Hc. reflexivity. }
  exists (length results). rewrite Forall_lookup in Hlens. split_and!.
  - done.
  - rewrite Htr. apply length_calls_of. by apply Forall_lookup.
  - apply Forall_forall. intros c Hin. rewrite Htr in Hin.
    apply elem_of_calls_of in Hin as (ds & Hstep & Hbeam).
    specialize (Hlens _ _ Hstep).
    apply lookup_lt_Some in Hstep, Hbeam. lia.
  - intros t b Ht Hb.
    destruct (lookup_lt_is_Some_2 results t Ht) as [ds Hds].
    specialize (Hlens _ _ Hds).
    destruct (lookup_lt_is_Some_2 ds b) as [d Hd]; [lia|].
    exists d. rewrite Htr. apply elem_of_calls_of. exists ds. by split.
Qed.

(** ** [LSTMAttention.forward] *)

Section lstm_facts.
Context {input vec cell : Type} (recurrence : input → vec * cell → vec * cell).

#[local] Abbreviation forward_loop := (LSTMAttention.forward_loop input vec cell recurrence).
#[local] Abbreviation forward := (LSTMAttention.forward input vec cell recurrence).

Lemma forward_loop_app output hidden xs ys :
  forward_loop output hidden (xs ++ ys)
  = forward_loop (forward_loop output hidden xs).1 (forward_loop output hidden xs).2 ys.
Proof.
  unfold LSTMAttention.forward_loop. rewrite foldl_app.
  by destruct (foldl _ (output, hidden) xs).
Qed.

Lemma forward_loop_output output hidden xs :
  (forward_loop output hidden xs).1 = output ++ (forward_loop [] hidden xs).1
  ∧ (forward_loop output hidden xs).2 = (forward_loop [] hidden xs).2
  ∧ length (forward_loop [] hidden xs).1 = length xs.
Proof.
  revert output hidden. induction xs as [|x xs IH]; intros output hidden.
  - simpl. by rewrite app_nil_r.
  - change (forward_loop output hidden (x :: xs))
      with (forward_loop (output ++ [(recurrence x hidden).1]) (recurrence x hidden) xs).
    change (forward_loop [] hidden (x :: xs))
      with (forward_loop ([] ++ [(recurrence x hidden).1]) (recurrence x hidden) xs).
    destruct (IH (output ++ [(recurrence x hidden).1]) (recurrence x hidden))
      as (-> & -> & Hlen).
    destruct (IH ([] ++ [(recurrence x hidden).1]) (recurrence x hidden))
      as (-> & -> & _).
    split_and!; [by rewrite <- app_assoc|reflexivity|].
    rewrite length_app, Hlen. simpl. lia.
Qed.

Lemma forward_loop_last output hidden xs :
  xs ≠ [] →
  last (forward_loop output hidden xs).1 = Some (forward_loop output hidden xs).2.1.
Proof.
  intros Hxs. destruct (exists_last Hxs) as (xs' & x & ->).
  rewrite forward_loop_app.
  destruct (forward_loop output hidden xs') as [out h]. simpl.
  by rewrite last_snoc.
Qed.

Lemma forward_Some steps hidden output hidden' :
  forward steps hidden = Some (output, hidden') ↔
  steps ≠ [] ∧ forward_loop [] hidden steps = (output, hidden').
Proof.
  unfold LSTMAttention.forward.
  destruct (forward_loop_output [] hidden steps) as (_ & _ & Hlen).
  destruct (forward_loop [] hidden steps) as [out h]. simpl in Hlen.
  destruct out as [|o out], steps as [|x steps]; simpl in Hlen; try discriminate;
    split; try (by intros [? ?]); try discriminate.
  - by intros [= <- <-].
  - by intros [_ [= <- <-]].
Qed.

End lstm_facts.

(** X15: the loop of [LSTMAttention.forward].  It raises exactly on an
    input of no step.  Otherwise it returns one output per step, and the
    first component of the hidden state it returns is the last of these
    outputs.  Running it on a first stretch of steps and then, from the
    hidden state returned, on the rest gives the outputs and the hidden
    state of one run over all steps. *)
Theorem lstm_forward_steps
    (input vec cell : Type) (recurrence : input → vec * cell → vec * cell)
    (xs ys : list input) (hidden : vec * cell) :
  xs ≠ [] → ys ≠ [] →
  LSTMAttention.forward input vec cell recurrence [] hidden = None ∧
  ∃ out1 h1 out2 h2,
    LSTMAttention.forward input vec cell recurrence xs hidden = Some (out1, h1) ∧
    length out1 = length xs ∧ last out1 = Some h1.1 ∧
    LSTMAttention.forward input vec cell recurrence ys h1 = Some (out2, h2) ∧
    LSTMAttention.forward input vec cell recurrence (xs ++ ys) hidden
      = Some (out1 ++ out2, h2).
Proof.
  intros Hxs Hys. split; [reflexivity|].
  destruct (LSTMAttention.forward_loop input vec cell recurrence [] hidden xs)
    as [out1 h1] eqn:H1.
  destruct (LSTMAttention.forward_loop input vec cell recurrence [] h1 ys)
    as [out2 h2] eqn:H2.
  exists out1, h1, out2, h2.
  pose proof (forward_loop_output recurrence [] hidden xs) as (_ & _ & Hlen).
  pose proof (forward_loop_last recurrence [] hidden xs Hxs) as Hlast.
  rewrite H1 in Hlen, Hlast. simpl in Hlen, Hlast.
  split_and!; [by apply forward_Some|exact Hlen|exact Hlast|by apply forward_Some|].
  apply forward_Some. split; [by destruct xs|].
  rewrite forward_loop_app, H1. simpl.
  destruct (forward_loop_output recurrence out1 h1 ys) as (Ho & Hh & _).
  rewrite H2 in Ho, Hh. simpl in Ho, Hh.
  destruct (LSTMAttention.forward_loop input vec cell recurrence out1 h1 ys).
  simpl in *. by subst.
Qed.

Lemma lstm_forward_steps_witness :
  ∃ out h, LSTMAttention.forward nat nat nat (λ x '(h, c), (x + h, c + 1)) [1; 2; 3] (0, 0)
           = Some (out, h) ∧ out = [1; 3; 6] ∧ h = (6, 3).
Proof.
  destruct (lstm_forward_steps nat nat nat (λ x '(h, c), (x + h, c + 1)) [1; 2] [3] (0, 0))
    as (_ & out1 & h1 & out2 & h2 & H1 & _ & _ & H2 & H12); [discriminate|discriminate|].
  exists (out1 ++ out2), h2. split; [exact H12|].
  vm_compute in H1. injection H1 as <- <-.
  vm_compute in H2. injection H2 as <- <-.
  split; reflexivity.
Defined.

(** ** [stanfordnlp/utils/resources.py] *)


Lemma build_default_config_value (lang models_path : string) :
  let lang_dir := models_path +:+ "/" +:+ lang +:+ "_models" in
  let path file := lang_dir +:+ "/" +:+ lang +:+ "_" +:+ file in
  Resources.build_default_config lang models_path
  = Ok (if bool_decide (lang ∈ Resources.mwt_languages)
        then [("processors", "tokenize,mwt,pos,lemma,depparse");
              ("tokenize.model_path", path "tokenizer.pt");
              ("mwt.model_path", path "mwt_expander.pt");
              ("pos.model_path", path "tagger.pt");
              ("pos.pretrain_path", path "tagger.pretrain.pt");
              ("lemma.model_path", path "lemmatizer.pt");
              ("depparse.model_path", path "parser.pt");
              ("depparse.pretrain_path", path "parser.pretrain.pt")]
        else [("processors", "tokenize,pos,lemma,depparse");
              ("tokenize.model_path", path "tokenizer.pt");
              ("pos.model_path", path "tagger.pt");
              ("pos.pretrain_path", path "tagger.pretrain.pt");
              ("lemma.model_path", path "lemmatizer.pt");
              ("depparse.model_path", path "parser.pt");
              ("depparse.pretrain_path", path "parser.pretrain.pt")]).
Proof.
  intros lang_dir path. unfold Resources.build_default_config.
  case_bool_decide; reflexivity.
Qed.

(** X16: [build_default_config] never raises: every processor it names
    has a file ending.  For every processor named under ["processors"]
    the configuration holds a model path, and a path of pretrained
    vectors exactly for the tagger and the parser; the multi-word-token
    expander is among the processors exactly for the languages of
    [mwt_languages]; and every path lies in the directory
    [models_path/lang_models] and starts with [lang_]. *)
Theorem build_default_config_paths (lang models_path : string) :
  ∃ cfg processors,
    Resources.build_default_config lang models_path = Ok cfg ∧
    NoDup cfg.*1 ∧
    od_get cfg "processors" = Some processors ∧
    Forall (λ p, is_Some (od_get Resources.processor_to_ending p)
                 ∧ is_Some (od_get cfg (p +:+ ".model_path"))
                 ∧ (is_Some (od_get cfg (p +:+ ".pretrain_path"))
                    ↔ p ∈ ["pos"; "depparse"]))
           (split "," processors) ∧
    (is_Some (od_get cfg "mwt.model_path") ↔ lang ∈ Resources.mwt_languages) ∧
    Forall (λ kv, kv.1 = "processors" ∨
                  ∃ file, kv.2 = (models_path +:+ "/" +:+ lang +:+ "_models")
                                 +:+ "/" +:+ lang +:+ "_" +:+ file)
           cfg.
Proof.
  pose proof (build_default_config_value lang models_path) as Hv. simpl in Hv.
  rewrite Hv. clear Hv.
  assert (Hyes : ∀ p : string, bool_decide (p ∈ ["pos"; "depparse"]) = true →
                               p ∈ ["pos"; "depparse"])
    by (intros p; apply bool_decide_eq_true_1).
  assert (Hno : ∀ p : string, bool_decide (p ∈ ["pos"; "depparse"]) = false →
                              p ∉ ["pos"; "depparse"])
    by (intros p; apply bool_decide_eq_false_1).
  case_bool_decide as Hmwt; eexists _, _; (split; [reflexivity|]).
  - split_and!.
    + apply (bool_decide_unpack _). vm_compute. exact I.
    + reflexivity.
    + vm_compute split.
      repeat (constructor;
              [split_and!; [by eexists|by eexists|];
               split;
               [intros [v Hv];
                first [apply Hyes; reflexivity | vm_compute in Hv; discriminate]
               |intros Hin;
                first [by eexists | exfalso; revert Hin; apply Hno; reflexivity]]|]).
      constructor.
    + split; [done|]. intros _. by eexists.
    + repeat (constructor; [first [by left | right; by eexists]|]). constructor.
  - split_and!.
    + apply (bool_decide_unpack _). vm_compute. exact I.
    + reflexivity.
    + vm_compute split.
      repeat (constructor;
              [split_and!; [by eexists|by eexists|];
               split;
               [intros [v Hv];
                first [apply Hyes; reflexivity | vm_compute in Hv; discriminate]
               |intros Hin;
                first [by eexists | exfalso; revert Hin; apply Hno; reflexivity]]|]).
      constructor.
    + split; [|done]. intros [v Hv]. vm_compute in Hv. discriminate.
    + repeat (constructor; [first [by left | right; by eexists]|]). constructor.
Qed.


(** *** [load_config] *)

(** The character [:] and the number of its occurrences in a line. *)
#[local] Abbreviation colon := (Ascii.Ascii false true false true true true false false).
#[local] Abbreviation colons line :=
  (count_occ Ascii.ascii_dec (String.list_ascii_of_string line) colon).

Lemma colons_app (a b : string) : colons (a +:+ b) = colons a + colons b.
Proof.
  induction a as [|x a IH]; [reflexivity|].
  rewrite sapp_cons. cbn [String.list_ascii_of_string count_occ].
  destruct (Ascii.ascii_dec x colon); rewrite IH; reflexivity.
Qed.

Lemma starts_with_colon (c : Ascii.ascii) (s : string) :
  starts_with ":" (String c s) = bool_decide (c = colon).
Proof.
  simpl. rewrite andb_true_r.
  apply bool_decide_ext. split; congruence.
Qed.

Lemma split_colon_none (cur s : string) :
  colons s = 0 → split_go ":" 0 cur s = [cur +:+ s].
Proof.
  revert cur. induction s as [|c s IH]; intros cur Hs.
  - simpl. by rewrite sapp_nil_r.
  - cbn [String.list_ascii_of_string count_occ] in Hs.
    cbn [split_go]. rewrite starts_with_colon.
    destruct (Ascii.ascii_dec c colon) as [->|Hc]; [discriminate|].
    rewrite bool_decide_eq_false_2 by done.
    rewrite IH by exact Hs. by rewrite sapp_assoc.
Qed.

Lemma split_colon_first (cur k raw : string) :
  colons k = 0 →
  split_go ":" 0 cur (k +:+ String colon raw) = (cur +:+ k) :: split_go ":" 0 "" raw.
Proof.
  revert cur. induction k as [|c k IH]; intros cur Hk.
  - change ("" +:+ String colon raw) with (String colon raw).
    cbn [split_go]. rewrite starts_with_colon, bool_decide_eq_true_2 by done.
    by rewrite sapp_nil_r.
  - cbn [String.list_ascii_of_string count_occ] in Hk.
    rewrite sapp_cons. cbn [split_go]. rewrite starts_with_colon.
    destruct (Ascii.ascii_dec c colon) as [->|Hc]; [discriminate|].
    rewrite bool_decide_eq_false_2 by done.
    rewrite IH by exact Hk. by rewrite sapp_assoc.
Qed.

Lemma split_colon_length (cur s : string) :
  length (split_go ":" 0 cur s) = S (colons s).
Proof.
  revert cur. induction s as [|c s IH]; intros cur; [reflexivity|].
  cbn [split_go String.list_ascii_of_string count_occ]. rewrite starts_with_colon.
  destruct (Ascii.ascii_dec c colon) as [->|Hc].
  - rewrite bool_decide_eq_true_2 by done. simpl. by rewrite IH.
  - rewrite bool_decide_eq_false_2 by done. apply IH.
Qed.

Lemma one_colon (s : string) :
  colons s = 1 →
  ∃ k raw, s = k +:+ String colon raw ∧ colons k = 0 ∧ colons raw = 0.
Proof.
  induction s as [|c s IH]; [discriminate|].
  cbn [String.list_ascii_of_string count_occ].
  destruct (Ascii.ascii_dec c colon) as [->|Hc]; intros Hs.
  - exists "", s. split_and!; [reflexivity|reflexivity|lia].
  - destruct (IH Hs) as (k & raw & -> & Hk & Hraw).
    exists (String c k), raw. split_and!; [reflexivity| |exact Hraw].
    cbn [String.list_ascii_of_string count_occ].
    by destruct (Ascii.ascii_dec c colon).
Qed.

Lemma split_one_colon (k raw : string) :
  colons (k +:+ String colon raw) = 1 → split ":" (k +:+ String colon raw) = [k; raw].
Proof.
  rewrite colons_app. cbn [String.list_ascii_of_string count_occ].
  destruct (Ascii.ascii_dec colon colon) as [_|]; [|done]. intros Hc.
  unfold split. rewrite split_colon_first by lia.
  by rewrite split_colon_none by lia.
Qed.

Lemma starts_with_app (p s : string) : starts_with p (p +:+ s) = true.
Proof.
  induction p as [|c p IH]; [reflexivity|].
  rewrite sapp_cons. simpl. by rewrite bool_decide_eq_true_2, IH.
Qed.

Lemma lstrip_lstrip (s : string) :
  Resources.lstrip (Resources.lstrip s) = Resources.lstrip s.
Proof.
  induction s as [|c s IH]; [reflexivity|]. simpl.
  destruct (Resources.is_space c) eqn:Hc; [exact IH|]. simpl. by rewrite Hc.
Qed.

Lemma rstrip_rstrip (s : string) :
  Resources.rstrip (Resources.rstrip s) = Resources.rstrip s.
Proof.
  induction s as [|c s IH]; [reflexivity|]. cbn [Resources.rstrip].
  destruct (Resources.rstrip s) as [|c' r] eqn:Hr.
  - destruct (Resources.is_space c) eqn:Hc; [reflexivity|]. simpl. by rewrite Hc.
  - cbn [Resources.rstrip]. cbn [Resources.rstrip] in IH. by rewrite IH.
Qed.

Lemma rstrip_lstrip (r : string) :
  Resources.rstrip r = r → Resources.rstrip (Resources.lstrip r) = Resources.lstrip r.
Proof.
  induction r as [|c r IH]; [reflexivity|]. intros Hr. cbn [Resources.lstrip].
  destruct (Resources.is_space c) eqn:Hc; [|exact Hr].
  apply IH. cbn [Resources.rstrip] in Hr.
  destruct (Resources.rstrip r) as [|c' r'] eqn:Hr'.
  - rewrite Hc in Hr. discriminate.
  - by injection Hr.
Qed.

Lemma foldM_app {A S} (body : S → A → result S) (s : S) (l1 l2 : list A) :
  ComposedVocab.foldM body s (l1 ++ l2)
  = s' ← ComposedVocab.foldM body s l1; ComposedVocab.foldM body s' l2.
Proof.
  revert s. induction l1 as [|x l1 IH]; intros s; simpl; [reflexivity|].
  destruct (body s x) as [s1|e]; simpl; [apply IH|reflexivity].
Qed.

Section load_config_facts.

#[local] Abbreviation config_body :=
  (λ (loaded_config : list (string * string)) (config_line : string),
     match split ":" config_line with
     | [config_key; config_value] =>
         Ok (od_set loaded_config config_key
                    (Resources.lstrip (Resources.rstrip config_value)))
     | _ => Raise ValueError
     end).

Lemma config_body_ok (cfg : list (string * string)) (line : string) :
  colons line = 1 →
  ∃ k raw, line = k +:+ ":" +:+ raw ∧
           config_body cfg line
           = Ok (od_set cfg k (Resources.lstrip (Resources.rstrip raw))).
Proof.
  intros Hc. destruct (one_colon line Hc) as (k & raw & -> & _ & _).
  exists k, raw. split; [reflexivity|]. by rewrite (split_one_colon k raw Hc).
Qed.

Lemma config_body_raises (cfg : list (string * string)) (line : string) :
  colons line ≠ 1 → config_body cfg line = Raise ValueError.
Proof.
  intros Hc. pose proof (split_colon_length "" line) as Hlen.
  unfold split.
  destruct (split_go ":" 0 "" line) as [|a [|b [|c l]]]; simpl in Hlen;
    try reflexivity.
  lia.
Qed.

Lemma config_lines_raise (cfg : list (string * string)) (lines : list string) :
  Exists (λ line, colons line ≠ 1) lines →
  ComposedVocab.foldM config_body cfg lines = Raise ValueError.
Proof.
  intros Hex. revert cfg. induction lines as [|line lines IH]; intros cfg.
  - by apply Exists_nil in Hex.
  - cbn [ComposedVocab.foldM].
    destruct (decide (colons line = 1)) as [Hc|Hc].
    + destruct (config_body_ok cfg line Hc) as (k & raw & _ & ->). simpl.
      apply IH. apply Exists_cons in Hex as [?|?]; [done|assumption].
    + by rewrite (config_body_raises cfg line Hc).
Qed.

Lemma config_lines_ok (cfg : list (string * string)) (lines : list string) :
  Forall (λ line, colons line = 1) lines →
  ∃ cfg', ComposedVocab.foldM config_body cfg lines = Ok cfg'.
Proof.
  intros Hall. revert cfg. induction Hall as [|line lines Hc _ IH]; intros cfg.
  - by exists cfg.
  - cbn [ComposedVocab.foldM].
    destruct (config_body_ok cfg line Hc) as (k & raw & _ & ->). simpl. apply IH.
Qed.

Lemma config_lines_keep (k : string) (lines : list string)
    (cfg cfg' : list (string * string)) :
  Forall (λ line, starts_with (k +:+ ":") line = false) lines →
  ComposedVocab.foldM config_body cfg lines = Ok cfg' →
  od_get cfg' k = od_get cfg k.
Proof.
  intros Hall. revert cfg. induction Hall as [|line lines Hk _ IH]; intros cfg.
  - by intros [= <-].
  - cbn [ComposedVocab.foldM].
    destruct (decide (colons line = 1)) as [Hc|Hc].
    + destruct (config_body_ok cfg line Hc) as (k' & raw & -> & ->). simpl.
      intros Hrest. rewrite (IH _ Hrest). apply od_get_set_ne. intros ->.
      by rewrite <- (sapp_assoc k ":" raw), starts_with_app in Hk.
    + by rewrite (config_body_raises cfg line Hc).
Qed.

End load_config_facts.

(** X18: [load_config].  A missing file raises [FileNotFoundError].  A
    line that does not hold exactly one colon (an empty line, a value
    with a colon in it) raises [ValueError].  If every line holds
    exactly one colon the configuration is returned: its keys are
    distinct, every value is the text after the colon of some line of
    that key with the white space at both ends removed, so it neither
    starts nor ends with white space, and the last line of a key gives
    its value. *)
Theorem load_config_lines (lines : list string) :
  Resources.load_config None = Raise FileNotFoundError ∧
  (Exists (λ line, colons line ≠ 1) lines →
   Resources.load_config (Some lines) = Raise ValueError) ∧
  (Forall (λ line, colons line = 1) lines →
   ∃ cfg,
     Resources.load_config (Some lines) = Ok cfg ∧
     NoDup cfg.*1 ∧
     Forall (λ kv, Resources.lstrip kv.2 = kv.2 ∧ Resources.rstrip kv.2 = kv.2 ∧
                   ∃ raw, (kv.1 +:+ ":" +:+ raw) ∈ lines
                          ∧ kv.2 = Resources.lstrip (Resources.rstrip raw)) cfg ∧
     (∀ pre k raw post,
        lines = pre ++ (k +:+ ":" +:+ raw) :: post →
        Forall (λ line, starts_with (k +:+ ":") line = false) post →
        od_get cfg k = Some (Resources.lstrip (Resources.rstrip raw)))).
Proof.
  split_and!; [reflexivity|apply config_lines_raise|].
  intros Hall. destruct (config_lines_ok [] lines Hall) as [cfg Hcfg].
  exists cfg. split_and!; [exact Hcfg| | |].
  - revert Hcfg. apply (foldM_invariant (λ cfg : list (string * string), NoDup cfg.*1)).
    + intros s line s' Hin Hs.
      rewrite Forall_forall in Hall.
      destruct (config_body_ok s line (Hall _ Hin)) as (k & raw & _ & ->).
      intros [= <-]. destruct (decide (k ∈ s.*1)) as [Hk|Hk].
      * by rewrite od_set_keys_present.
      * rewrite od_set_keys_absent by done.
        apply NoDup_app. split_and!; [exact Hs| |apply NoDup_singleton].
        intros x Hx ->%list_elem_of_singleton. contradiction.
    + constructor.
  - revert Hcfg.
    apply (foldM_invariant
             (λ cfg : list (string * string),
                Forall (λ kv, Resources.lstrip kv.2 = kv.2 ∧ Resources.rstrip kv.2 = kv.2 ∧
                   ∃ raw, (kv.1 +:+ ":" +:+ raw) ∈ lines
                          ∧ kv.2 = Resources.lstrip (Resources.rstrip raw)) cfg)).
    + intros s line s' Hin Hs.
      rewrite Forall_forall in Hall.
      destruct (config_body_ok s line (Hall _ Hin)) as (k & raw & -> & ->).
      intros [= <-]. apply Forall_forall. intros [k' v'] Hkv.
      assert (Hcase : (k', v') = (k, Resources.lstrip (Resources.rstrip raw))
                      ∨ (k', v') ∈ s).
      { clear -Hkv. induction s as [|[k0 v0] s IH]; simpl in Hkv.
        - apply list_elem_of_singleton in Hkv. by left.
        - case_decide.
          + apply elem_of_cons in Hkv as [->|Hkv]; [by left|]. right. by right.
          + apply elem_of_cons in Hkv as [->|Hkv]; [right; by left|].
            destruct (IH Hkv) as [?|?]; [by left|right; by right]. }
      destruct Hcase as [[= -> ->]|Hold].
      * simpl. split_and!.
        -- apply lstrip_lstrip.
        -- apply rstrip_lstrip, rstrip_rstrip.
        -- by exists raw.
      * rewrite Forall_forall in Hs. apply (Hs _ Hold).
    + constructor.
  - intros pre k raw post -> Hpost.
    rewrite foldM_app in Hcfg.
    apply Forall_app in Hall as [Hpre Hrest].
    apply Forall_cons in Hrest as [Hline Hrest].
    destruct (config_lines_ok [] pre Hpre) as [cfg1 Hcfg1].
    rewrite Hcfg1 in Hcfg. simpl in Hcfg.
    change (k +:+ ":" +:+ raw) with (k +:+ String colon raw) in Hcfg, Hline.
    rewrite (split_one_colon k raw Hline) in Hcfg. simpl in Hcfg.
    rewrite (config_lines_keep k post _ _ Hpost Hcfg).
    apply od_get_set_eq.
Qed.

(** ** [LemmaProcessor.process] *)

(** X19: after [process] has mapped the empty lemmas, no lemma is the
    empty string: an empty prediction becomes ["_"], every other
    prediction is kept as it is, in its place. *)
Theorem fill_empty_never_empty (preds : list string) :
  let lemmas := LemmaProcessor.fill_empty preds in
  length lemmas = length preds ∧
  Forall (λ x, x ≠ "") lemmas ∧
  (∀ i x, preds !! i = Some x →
          lemmas !! i = Some (if decide (x = "") then "_" else x)) ∧
  LemmaProcessor.fill_empty lemmas = lemmas.
Proof.
  assert (Hone : ∀ x : string,
    (LemmaProcessor.max_pair (String.length x, x) [(0, "_")]).2
    = if decide (x = "") then "_" else x).
  { intros [|c x]; [reflexivity|].
    unfold LemmaProcessor.max_pair, LemmaProcessor.pair_lt.
    cbn [foldl fst snd String.length].
    rewrite (decide_False (P := S (String.length x) = 0)) by done.
    change (S (String.length x) <? 0) with false. cbn [snd].
    by rewrite decide_False. }
  assert (Hall : ∀ l, Forall (λ x : string, x ≠ "") l → LemmaProcessor.fill_empty l = l).
  { intros l Hl. unfold LemmaProcessor.fill_empty.
    induction Hl as [|x l Hx _ IH]; [reflexivity|].
    rewrite fmap_cons, IH. cbv beta. rewrite Hone, decide_False by done.
    reflexivity. }
  intros lemmas.
  assert (Hne : Forall (λ x, x ≠ "") lemmas).
  { apply Forall_fmap, Forall_forall. intros x _. unfold compose. rewrite Hone.
    by case_decide. }
  split_and!.
  - apply length_fmap.
  - exact Hne.
  - intros i x Hx. subst lemmas. unfold LemmaProcessor.fill_empty.
    by rewrite list_lookup_fmap, Hx, <- Hone.
  - by apply Hall.
Qed.

Lemma unskipped_cons {A} (x : A) (words : list A) (s : bool) (skip : list bool) :
  LemmaProcessor.unskipped (x :: words) (s :: skip)
  = if s then LemmaProcessor.unskipped words skip
    else x :: LemmaProcessor.unskipped words skip.
Proof.
  unfold LemmaProcessor.unskipped. cbn [zip zip_with]. rewrite filter_cons.
  destruct s; reflexivity.
Qed.

Lemma py_index_nat {A} (l : list A) (i : nat) :
  py_index l (Z.of_nat i) = of_option IndexError (l !! i).
Proof.
  unfold py_index. rewrite (proj2 (Z.leb_le 0 (Z.of_nat i))) by lia.
  by rewrite Nat2Z.id.
Qed.

Lemma expand_loop (preds : list string) (skip : list bool) (acc : list string) (i : nat) :
  let n := length (filter (λ s, s = false) skip) in
  i ≤ length preds →
  (length preds < i + n →
   ComposedVocab.foldM (LemmaProcessor.expand_step preds) (acc, i) skip
   = Raise IndexError) ∧
  (i + n ≤ length preds →
   ∃ out,
     ComposedVocab.foldM (LemmaProcessor.expand_step preds) (acc, i) skip
     = Ok (acc ++ out, i + n) ∧
     length out = length skip ∧
     LemmaProcessor.unskipped out skip = take n (drop i preds) ∧
     (∀ j, skip !! j = Some true → out !! j = Some "")).
Proof.
  revert acc i. induction skip as [|s skip IH]; intros acc i n Hi.
  - subst n. simpl. split; [lia|]. intros _. exists [].
    rewrite app_nil_r, Nat.add_0_r. split_and!; try reflexivity.
    intros j Hj. by rewrite lookup_nil in Hj.
  - destruct s.
    + assert (Hn : n = length (filter (λ s, s = false) skip)).
      { subst n. by rewrite filter_cons, decide_False. }
      rewrite Hn. clear Hn n.
      cbn [ComposedVocab.foldM LemmaProcessor.expand_step]. csimpl.
      destruct (IH (acc ++ [""]) i Hi) as [Hraise Hok]. split; [exact Hraise|].
      intros Hle. destruct (Hok Hle) as (out & -> & Hlen & Hun & Hskip).
      exists ("" :: out). split_and!.
      * by rewrite <- app_assoc.
      * simpl. by rewrite Hlen.
      * by rewrite unskipped_cons.
      * intros [|j] Hj; [reflexivity|]. apply Hskip. exact Hj.
    + assert (Hn : n = S (length (filter (λ s, s = false) skip))).
      { subst n. by rewrite filter_cons, decide_True. }
      rewrite Hn. clear Hn n.
      cbn [ComposedVocab.foldM LemmaProcessor.expand_step].
      rewrite py_index_nat.
      destruct (preds !! i) as [p|] eqn:Hp; csimpl.
      * apply lookup_lt_Some in Hp as Hlt.
        destruct (IH (acc ++ [p]) (i + 1)) as [Hraise Hok]; [lia|].
        split; [intros Hlt'; apply Hraise; lia|].
        intros Hle. destruct Hok as (out & -> & Hlen & Hun & Hskip); [lia|].
        exists (p :: out). split_and!.
        -- rewrite <- app_assoc. do 2 f_equal. lia.
        -- simpl. by rewrite Hlen.
        -- rewrite unskipped_cons, Hun, (drop_S _ _ _ Hp). simpl.
           by rewrite Nat.add_1_r.
        -- intros [|j] Hj; [discriminate|]. apply Hskip. exact Hj.
      * apply lookup_ge_None in Hp. split; [reflexivity|]. lia.
Qed.

(** X20: the loop of [process] that expands the predictions of the model
    to the size of all words.  With fewer predictions than words that
    are not skipped it raises [IndexError].  Otherwise it returns one
    entry per word: the empty string at every skipped word and, read off
    at the words that are not skipped, the predictions in their order;
    predictions beyond their number are dropped without notice. *)
Theorem expand_predictions (skip : list bool) (preds : list string) :
  let n := length (filter (λ s, s = false) skip) in
  (length preds < n → LemmaProcessor.expand skip preds = Raise IndexError) ∧
  (n ≤ length preds →
   ∃ preds1,
     LemmaProcessor.expand skip preds = Ok preds1 ∧
     length preds1 = length skip ∧
     LemmaProcessor.unskipped preds1 skip = take n preds ∧
     (∀ j, skip !! j = Some true → preds1 !! j = Some "")).
Proof.
  intros n. unfold LemmaProcessor.expand.
  destruct (expand_loop preds skip [] 0) as [Hraise Hok]; [lia|]. fold n in Hraise, Hok.
  split.
  - intros Hlt. by rewrite Hraise.
  - intros Hle. destruct (Hok Hle) as (out & -> & Hlen & Hun & Hskip).
    exists out. split_and!; [reflexivity|exact Hlen|exact Hun|exact Hskip].
Qed.
